(** * DeepFlags: a shallow embedding of the recursive flag parser

    This development embeds [DeepFlags.hpp]: the parsing core (the argument
    reader, the value parsers, the flag nodes and the recursive dispatch of
    [parseArgsR]) and the help printer, and proves properties of them.

    Conventions of the embedding:
    - C strings and [std::string] are [String.string]; [char] is [ascii], the
      NUL character standing for "no short name";
    - a flag object is a value of the inductive type [Flag]; a member function
      that mutates its object returns the new object;
    - [ArgReader] is a record, threaded explicitly through every call;
    - the recursion of [parseArgsR] is driven by a fuel argument; running out
      of fuel is the outcome [OutOfFuel], never a parse result;
    - a read outside the [argv] array or past the terminator of an argument
      is the outcome [Undefined];
    - descriptions, value names, the unenforced "required" bit and the
      floating-point flag types take no part in parsing and are left out of
      [Flag]; the help printer is embedded apart, in the module [Help], with
      the descriptions and value names it prints, and the range check of the
      floating-point types in the module [ParseFloat]. *)

From Stdlib Require Import String Ascii List ZArith NArith Bool Arith Lia.
Import ListNotations.

Set Warnings "-register-all".

Local Open Scope string_scope.
Local Open Scope list_scope.

(* ------------------------------------------------------------------ *)
(** ** Characters and strings *)

Definition NUL : ascii := Ascii.zero.
Definition dash : ascii := "-"%char.
Definition equalsSign : ascii := "="%char.

Definition charCode (c : ascii) : Z := Z.of_N (N_of_ascii c).

(** Modelled from the spec: the standard library's [std::tolower] in the
    "C" locale (not part of the repository); the boolean names are to be
    compared without regard to case. *)
Definition tolower (c : ascii) : ascii :=
  let n := charCode c in
  if (65 <=? n)%Z && (n <=? 90)%Z then ascii_of_N (Z.to_N (n + 32)) else c.

(** [Internal::lower]. *)
Fixpoint lower (x : string) : string :=
  match x with
  | EmptyString => EmptyString
  | String c x' => String (tolower c) (lower x')
  end.

(** Modelled from the spec: the standard library's [std::isspace] in the
    "C" locale (not part of the repository), by which the number syntax
    skips leading white space. *)
Definition isspace (c : ascii) : bool :=
  let n := charCode c in
  (n =? 32)%Z || ((9 <=? n)%Z && (n <=? 13)%Z).

(* ------------------------------------------------------------------ *)
(** ** Value parsers ([ParseType<T>]) *)

Module ParseType.

(** [Internal::boolNames], looked up with [find]. *)
Definition boolNames (k : string) : option bool :=
  if String.eqb k "1" then Some true
  else if String.eqb k "on" then Some true
  else if String.eqb k "yes" then Some true
  else if String.eqb k "true" then Some true
  else if String.eqb k "0" then Some false
  else if String.eqb k "no" then Some false
  else if String.eqb k "off" then Some false
  else if String.eqb k "false" then Some false
  else None.

(** [ParseType<bool>]: [None] is [error = true]. *)
Definition parseBool (val : string) : option bool := boolNames (lower val).

Definition digitVal (c : ascii) : option Z :=
  let n := charCode c in
  if (48 <=? n)%Z && (n <=? 57)%Z then Some (n - 48)%Z
  else if (97 <=? n)%Z && (n <=? 122)%Z then Some (n - 87)%Z
  else if (65 <=? n)%Z && (n <=? 90)%Z then Some (n - 55)%Z
  else None.

Fixpoint skipSpaces (s : string) : string :=
  match s with
  | String c s' => if isspace c then skipSpaces s' else s
  | EmptyString => s
  end.

(** The longest run of digits of the base at the head of [s]: its value,
    and whether it has any digit. *)
Fixpoint readDigits (base : Z) (s : string) (acc : Z) (seen : bool)
  : Z * bool :=
  match s with
  | String c s' =>
      match digitVal c with
      | Some d =>
          if (d <? base)%Z then readDigits base s' (acc * base + d)%Z true
          else (acc, seen)
      | None => (acc, seen)
      end
  | EmptyString => (acc, seen)
  end.

Definition isHexDigit (c : ascii) : bool :=
  match digitVal c with Some d => (d <? 16)%Z | None => false end.

(** Modelled from the spec: the number syntax of the C++ standard
    library's [std::stoll]/[std::stoull] with base 0 (not part of the
    repository): leading white space, an optional sign, a [0x] prefix for
    base 16, a leading [0] for base 8, base 10 otherwise, then the longest
    run of digits; trailing text is ignored.  The result is the sign and
    the magnitude, [None] when there is no digit ([std::invalid_argument]). *)
Definition readNumber (val : string) : option (bool * Z) :=
  let s := skipSpaces val in
  let '(neg, s1) :=
    match s with
    | String c s' =>
        if Ascii.eqb c "-" then (true, s')
        else if Ascii.eqb c "+" then (false, s')
        else (false, s)
    | EmptyString => (false, s)
    end in
  let '(base, s2) :=
    match s1 with
    | String "0" (String x (String h s')) =>
        if (Ascii.eqb x "x" || Ascii.eqb x "X") && isHexDigit h
        then (16%Z, String h s') else (8%Z, s1)
    | String "0" _ => (8%Z, s1)
    | _ => (10%Z, s1)
    end in
  match readDigits base s2 0%Z false with
  | (m, true) => Some (neg, m)
  | (_, false) => None
  end.

(** Modelled from the spec: [std::stoll(val, nullptr, 0)];  [None] is a
    thrown exception (no digits, or a value outside [long long]). *)
Definition stoll (val : string) : option Z :=
  match readNumber val with
  | Some (neg, m) =>
      let v := if neg then (- m)%Z else m in
      if (- 2 ^ 63 <=? v)%Z && (v <=? 2 ^ 63 - 1)%Z then Some v else None
  | None => None
  end.

(** Modelled from the spec: [std::stoull(val, nullptr, 0)]; a negated
    magnitude wraps around in [unsigned long long]. *)
Definition stoull (val : string) : option Z :=
  match readNumber val with
  | Some (neg, m) =>
      if (m <=? 2 ^ 64 - 1)%Z
      then Some (if neg then ((2 ^ 64 - m) mod 2 ^ 64)%Z else m)
      else None
  | None => None
  end.

(** The integer types for which [df_internal_DEFINE_PRIM_PARSER] defines a
    parser. *)
Inductive IntKind := I8 | I16 | I32 | I64 | U8 | U16 | U32 | U64.

Definition isSigned (k : IntKind) : bool :=
  match k with I8 | I16 | I32 | I64 => true | _ => false end.

Definition bits (k : IntKind) : Z :=
  match k with
  | I8 | U8 => 8 | I16 | U16 => 16 | I32 | U32 => 32 | I64 | U64 => 64
  end%Z.

(** [std::numeric_limits<T>::min()] and [max()]. *)
Definition minOf (k : IntKind) : Z :=
  if isSigned k then (- 2 ^ (bits k - 1))%Z else 0%Z.
Definition maxOf (k : IntKind) : Z :=
  if isSigned k then (2 ^ (bits k - 1) - 1)%Z else (2 ^ bits k - 1)%Z.

(** [ParseIntType<T, BT, parse>]. *)
Definition parseInt (k : IntKind) (val : string) : option Z :=
  match (if isSigned k then stoll val else stoull val) with
  | Some i =>
      if (minOf k <=? i)%Z && (i <=? maxOf k)%Z then Some i else None
  | None => None
  end.

End ParseType.

(** The scalar types [P] of [PrimitiveFlag<P>]. *)
Inductive PrimType :=
| TBool
| TInt (k : ParseType.IntKind)
| TString.

(** A value of a scalar type. *)
Inductive PrimValue :=
| VBool (b : bool)
| VInt (i : Z)
| VString (s : string).

(** [P()]: the value-initialised scalar. *)
Definition defaultValue (ty : PrimType) : PrimValue :=
  match ty with
  | TBool => VBool false
  | TInt _ => VInt 0
  | TString => VString ""
  end.

(** [ParseType<P> parsed(rawvalue)]; [None] is [parsed.error]. *)
Definition parseType (ty : PrimType) (rawvalue : string) : option PrimValue :=
  match ty with
  | TBool => option_map VBool (ParseType.parseBool rawvalue)
  | TInt k => option_map VInt (ParseType.parseInt k rawvalue)
  | TString => Some (VString rawvalue)
  end.

(* ------------------------------------------------------------------ *)
(** ** The argument reader ([Internal::ArgReader]) *)

Module ArgReader.

(** The data members of the class.  [argv] is the array the pointer
    designates; [argc] and [position] are [unsigned] and never exceed
    [INT_MAX + 1], so they do not wrap. *)
Record t := mk {
  argc : nat;
  argv : list string;
  charKey : ascii;
  key : string;
  value : string;
  flagAbsent : bool;
  flagIsCharacter : bool;
  valueSpecified : bool;
  clearedOut : bool;
  position : nat;
  charFlags : list ascii
}.

(** The constructor: a negative count is clamped to zero; the other members
    take their default initialisers ([charKey] has none and is not read
    before [parseNextArg] sets it). *)
Definition make (_argc : Z) (_argv : list string) : t :=
  mk (if (_argc <? 0)%Z then 0 else Z.to_nat _argc) _argv
     NUL "" "" true false false false 0 [].

Definition atEnd (r : t) : bool := clearedOut r.
Definition hasMoreArguments (r : t) : bool :=
  (position r <? argc r)%nat.
Definition hasValue (r : t) : bool := valueSpecified r.
Definition getValue (r : t) : string := value r.
Definition hasAnyFlag (r : t) : bool := negb (flagAbsent r).
Definition hasLongFlag (r : t) : bool :=
  negb (flagAbsent r) && negb (flagIsCharacter r).
Definition hasShortFlag (r : t) : bool :=
  negb (flagAbsent r) && flagIsCharacter r.
Definition getLongFlag (r : t) : string := key r.
Definition getShortFlag (r : t) : ascii := charKey r.
Definition tell (r : t) : nat := position r.

(** The loop of [parseNextArg] over a long flag: the text before the first
    [=] and the text after it, if there is one. *)
Fixpoint splitAtEquals (s : string) : option (string * string) :=
  match s with
  | EmptyString => None
  | String c s' =>
      if Ascii.eqb c equalsSign then Some (EmptyString, s')
      else match splitAtEquals s' with
           | Some (k, v) => Some (String c k, v)
           | None => None
           end
  end.

(** The characters pushed on [charFlags] by the last loop of
    [parseNextArg]. *)
Definition charsOf (s : string) : list ascii := list_ascii_of_string s.

(** The part of [parseNextArg] that follows
    [const char *curArg = argv[position]], [pos] being the position just
    incremented.  [None]: the argument is a lone ["-"], and the last loop
    starts reading past its terminator. *)
Definition readArgument (r : t) (pos : nat) (curArg : string) : option t :=
  match curArg with
  | String c0 rest0 =>
      if negb (Ascii.eqb c0 dash) then
        Some (mk (argc r) (argv r) NUL "" curArg true false true
                 (clearedOut r) pos [])
      else
        match rest0 with
        | String c1 rest1 =>
            if Ascii.eqb c1 dash then
              match splitAtEquals rest1 with
              | Some (k, v) =>
                  Some (mk (argc r) (argv r) NUL k v false false true
                           (clearedOut r) pos [])
              | None =>
                  Some (mk (argc r) (argv r) NUL rest1 "" false false false
                           (clearedOut r) pos [])
              end
            else
              Some (mk (argc r) (argv r) c1 "" "" false true false
                       (clearedOut r) pos (charsOf rest1))
        | EmptyString => None
        end
  | EmptyString =>
      Some (mk (argc r) (argv r) NUL "" curArg true false true
               (clearedOut r) pos [])
  end.

(** [parseNextArg].  [None]: the call reads [argv] outside the array, or
    reads a lone ["-"] past its terminator. *)
Definition parseNextArg (r : t) : option t :=
  match charFlags r with
  | c :: q =>
      Some (mk (argc r) (argv r) c (key r) "" false true false
               (clearedOut r) (position r) q)
  | [] =>
      if (argc r <=? position r)%nat then
        Some (mk (argc r) (argv r) NUL "" "" false false false
                 true (position r) [])
      else if (argc r <=? S (position r))%nat then
        Some (mk (argc r) (argv r) NUL "" "" false false false
                 true (S (position r)) [])
      else
        match nth_error (argv r) (S (position r)) with
        | None => None
        | Some curArg => readArgument r (S (position r)) curArg
        end
  end.

(** [nextRawArgument]: the returned string and the reader after the call.
    [None]: [argv[++position]] is outside the array. *)
Definition nextRawArgument (r : t) : option (string * t) :=
  match nth_error (argv r) (S (position r)) with
  | None => None
  | Some raw =>
      Some (raw, mk (argc r) (argv r) (charKey r) "" raw true false true
                    (clearedOut r) (S (position r)) (charFlags r))
  end.

End ArgReader.

Abbreviation ArgReader := ArgReader.t.

(* ------------------------------------------------------------------ *)
(** ** Flag nodes *)

(** The identity a flag is constructed with: [CtorArgs::_longName] and
    [CtorArgs::_shortName] (the NUL character when there is none).  The
    [_group] pointer is represented by the position of the flag in the
    [members] of its group. *)
Record CtorArgs := mkCtorArgs {
  _longName : string;
  _shortName : ascii
}.

(** [CtorArgs()]: the anonymous flag. *)
Definition anonymous : CtorArgs := mkCtorArgs "" NUL.

(** The classes derived from [FlagBase], each with its data members.

    - [PrimitiveFlag]: [PrimitiveFlag<P>], that is [Flag<P>] for a scalar [P];
    - [Switch];
    - [FlagOfFlag]: [Flag<T, true>], whose [value] is itself a flag (a
      group); its constructor hands its own arguments to [value], so the
      names of the two are the same and are kept once, in [value];
    - [VectorFlag]: [VectorFlag<T, greedy, reentrant>]; [T] stands for the
      element type, given as the parser [Flag<T>] constructs (its own names
      do not matter: [newFlag] sets them); [value] holds, for each
      [push_back(flag.value)], the element parser [flag] whose [value]
      member the C++ vector keeps;
    - [FlagGroup]: [members] lists the registered flags in the order of
      [addFlag]. *)
Inductive Flag :=
| PrimitiveFlag (args : CtorArgs) (P : PrimType)
                (present : bool) (value : PrimValue)
| Switch (args : CtorArgs) (present : bool)
| FlagOfFlag (value : Flag)
| VectorFlag (args : CtorArgs) (greedy reentrant : bool) (T : Flag)
             (entered : bool) (value : list Flag)
| FlagGroup (args : CtorArgs) (members : list Flag).

(** The constructor arguments of a node ([FlagBase::_name], [_shortname]). *)
Fixpoint ctorArgs (f : Flag) : CtorArgs :=
  match f with
  | PrimitiveFlag a _ _ _ | Switch a _
  | VectorFlag a _ _ _ _ _ | FlagGroup a _ => a
  | FlagOfFlag value => ctorArgs value
  end.

Definition getLongName (f : Flag) : string := _longName (ctorArgs f).
Definition getShortName (f : Flag) : ascii := _shortName (ctorArgs f).
Definition hasLongName (f : Flag) : bool :=
  negb (String.length (getLongName f) =? 0)%nat.
Definition hasShortName (f : Flag) : bool :=
  negb (Ascii.eqb (getShortName f) NUL).

(** [T(args)]: the flag of type [T] constructed with the given arguments,
    [T] being given as a flag in the state its constructor leaves.
    [Flag<T, true>] passes the arguments on to its [value]. *)
Fixpoint construct (T : Flag) (args : CtorArgs) : Flag :=
  match T with
  | PrimitiveFlag _ P p v => PrimitiveFlag args P p v
  | Switch _ p => Switch args p
  | FlagOfFlag v => FlagOfFlag (construct v args)
  | VectorFlag _ g re T' e v => VectorFlag args g re T' e v
  | FlagGroup _ ms => FlagGroup args ms
  end.

(** [VectorFlag::newFlag]: [instantiate<Flag<T>>(getCtorArgs(nullptr))]. *)
Definition newFlag (self_args : CtorArgs) (T : Flag) : Flag :=
  construct T self_args.

(** Declarations: a default-constructed flag of each kind. *)
Definition primitive (P : PrimType) (args : CtorArgs) : Flag :=
  PrimitiveFlag args P false (defaultValue P).
Definition switch (args : CtorArgs) : Flag := Switch args false.
(** [Flag<std::vector<T>>], [Flag<Sequential<T>>], [Flag<Repeated<T>>]. *)
Definition vectorOf (T : Flag) (args : CtorArgs) : Flag :=
  VectorFlag args true true T false [].
Definition sequentialOf (T : Flag) (args : CtorArgs) : Flag :=
  VectorFlag args true false T false [].
Definition repeatedOf (T : Flag) (args : CtorArgs) : Flag :=
  VectorFlag args false true T false [].
(** [Flag<G>] for a group type [G] whose members are [ms]. *)
Definition groupFlag (ms : list Flag) (args : CtorArgs) : Flag :=
  FlagOfFlag (FlagGroup args ms).

(** [flag(group, name)], [flag(group, name, shortname)],
    [flag(group, shortname)]. *)
Definition flag (name : string) : CtorArgs := mkCtorArgs name NUL.
Definition flag2 (name : string) (shortname : ascii) : CtorArgs :=
  mkCtorArgs name shortname.
Definition flagc (shortname : ascii) : CtorArgs := mkCtorArgs "" shortname.

(* ------------------------------------------------------------------ *)
(** ** The capability contract: [atCapacity] and [hasFlag] *)

(** [atCapacity], by class. *)
Fixpoint atCapacity (f : Flag) : bool :=
  match f with
  | PrimitiveFlag _ _ present _ => present
  | Switch _ present => present
  | FlagOfFlag value => atCapacity value
  | VectorFlag _ _ reentrant _ entered _ => entered && negb reentrant
  | FlagGroup _ members => forallb atCapacity members
  end.

(** [hasFlag(string name)], by class.  The vector case asks the parser that
    [newFlag] stacks, a fresh [Flag<T>] carrying the vector's own arguments:
    [hasFlagOf T args] is [hasFlag] of the flag [T(args)], by recursion on
    the type [T]. *)
Fixpoint hasFlag (f : Flag) (name : string) : bool :=
  match f with
  | PrimitiveFlag args _ _ _ => String.eqb (_longName args) name
  | Switch args _ => String.eqb (_longName args) name
  | FlagOfFlag value => hasFlag value name
  | VectorFlag args _ _ T _ _ =>
      String.eqb (_longName args) name || hasFlagOf T args name
  | FlagGroup _ members => existsb (fun m => hasFlag m name) members
  end
with hasFlagOf (T : Flag) (args : CtorArgs) (name : string) : bool :=
  match T with
  | PrimitiveFlag _ _ _ _ => String.eqb (_longName args) name
  | Switch _ _ => String.eqb (_longName args) name
  | FlagOfFlag value => hasFlagOf value args name
  | VectorFlag _ _ _ T' _ _ =>
      String.eqb (_longName args) name || hasFlagOf T' args name
  | FlagGroup _ members => existsb (fun m => hasFlag m name) members
  end.

(** [hasFlag(char name)], likewise. *)
Fixpoint hasFlagChar (f : Flag) (name : ascii) : bool :=
  match f with
  | PrimitiveFlag args _ _ _ => Ascii.eqb (_shortName args) name
  | Switch args _ => Ascii.eqb (_shortName args) name
  | FlagOfFlag value => hasFlagChar value name
  | VectorFlag args _ _ T _ _ =>
      Ascii.eqb (_shortName args) name || hasFlagOfChar T args name
  | FlagGroup _ members => existsb (fun m => hasFlagChar m name) members
  end
with hasFlagOfChar (T : Flag) (args : CtorArgs) (name : ascii) : bool :=
  match T with
  | PrimitiveFlag _ _ _ _ => Ascii.eqb (_shortName args) name
  | Switch _ _ => Ascii.eqb (_shortName args) name
  | FlagOfFlag value => hasFlagOfChar value args name
  | VectorFlag _ _ _ T' _ _ =>
      Ascii.eqb (_shortName args) name || hasFlagOfChar T' args name
  | FlagGroup _ members => existsb (fun m => hasFlagChar m name) members
  end.

(* ------------------------------------------------------------------ *)
(** ** The indices of a group *)

(** [membersByLongName.find(name)], as [addFlag] leaves the map once it has
    run on every member in order: a flag is entered under its long name if
    it has one, and a later entry replaces an earlier one.  The result is
    the position of the flag in [members]. *)
Fixpoint membersByLongName (members : list Flag) (name : string)
  : option nat :=
  match members with
  | [] => None
  | m :: ms =>
      match membersByLongName ms name with
      | Some j => Some (S j)
      | None =>
          if hasLongName m && String.eqb (getLongName m) name
          then Some 0 else None
      end
  end.

(** [membersByShortName.find(name)], likewise. *)
Fixpoint membersByShortName (members : list Flag) (name : ascii)
  : option nat :=
  match members with
  | [] => None
  | m :: ms =>
      match membersByShortName ms name with
      | Some j => Some (S j)
      | None =>
          if hasShortName m && Ascii.eqb (getShortName m) name
          then Some 0 else None
      end
  end.

(** The members after the flag at position [i] has become [m']: the effect,
    on the group, of a call through the pointer [flag->second]. *)
Fixpoint setMember (members : list Flag) (i : nat) (m' : Flag) : list Flag :=
  match members, i with
  | [], _ => []
  | _ :: ms, O => m' :: ms
  | m :: ms, S j => m :: setMember ms j m'
  end.

(* ------------------------------------------------------------------ *)
(** ** Parsing *)

(** What a call of [parseArgsR] comes to: it returns [ok] and leaves the
    flag and the reader as given; or its behaviour is undefined; or the fuel
    of the embedding ran out. *)
Inductive Outcome :=
| Done (ok : bool) (f : Flag) (r : ArgReader)
| Undefined
| OutOfFuel.

(** [PrimitiveFlag<P>::parse]: [None] when it returns false, which leaves
    the flag as it is. *)
Definition parse (args : CtorArgs) (P : PrimType) (rawvalue : string)
  : option Flag :=
  match parseType P rawvalue with
  | None => None
  | Some v => Some (PrimitiveFlag args P true v)
  end.

(** [SingletonFlag::parseArgsR], for the primitive flag [self]. *)
Definition SingletonFlag_parseArgsR (self : Flag) (args : CtorArgs)
    (P : PrimType) (argReader : ArgReader) : Outcome :=
  if ArgReader.hasValue argReader then
    match parse args P (ArgReader.getValue argReader) with
    | None => Done false self argReader
    | Some self' =>
        match ArgReader.parseNextArg argReader with
        | Some r' => Done true self' r'
        | None => Undefined
        end
    end
  else if ArgReader.hasMoreArguments argReader then
    match ArgReader.nextRawArgument argReader with
    | None => Undefined
    | Some (raw, r1) =>
        match parse args P raw with
        | None => Done false self r1
        | Some self' =>
            match ArgReader.parseNextArg r1 with
            | Some r' => Done true self' r'
            | None => Undefined
            end
        end
    end
  else Done false self argReader.

(** [Switch::parseArgsR]. *)
Definition Switch_parseArgsR (args : CtorArgs) (present : bool)
    (argReader : ArgReader) : Outcome :=
  if ArgReader.hasValue argReader then Done false (Switch args present) argReader
  else
    match ArgReader.parseNextArg argReader with
    | Some r' => Done true (Switch args true) r'
    | None => Undefined
    end.

(** [VectorFlag::canReenter], with the template argument [reentrant]. *)
Definition canReenter (reentrant : bool) (argReader : ArgReader)
    (flag : Flag) : bool :=
  if negb reentrant then false
  else if ArgReader.hasShortFlag argReader
       then hasFlagChar flag (ArgReader.getShortFlag argReader)
       else hasFlag flag (ArgReader.getLongFlag argReader).

(** The condition under which [VectorFlag::parseArgsR] calls itself again
    after [push_back]. *)
Definition reinvokes (greedy reentrant : bool) (argReader : ArgReader)
    (flag : Flag) : bool :=
  greedy && (negb (ArgReader.hasAnyFlag argReader)
             || canReenter reentrant argReader flag).

(** The first test of [FlagGroup::parseArgsR]: the reader holds neither
    exactly a long flag nor exactly a short one. *)
Definition notOneFlag (argReader : ArgReader) : bool :=
  Bool.eqb (ArgReader.hasLongFlag argReader)
           (ArgReader.hasShortFlag argReader).

(** The second test of [FlagGroup::parseArgsR]: the current flag is the
    group's own name. *)
Definition namesGroup (args : CtorArgs) (argReader : ArgReader) : bool :=
  (negb (String.length (_longName args) =? 0)%nat
   && ArgReader.hasLongFlag argReader
   && String.eqb (_longName args) (ArgReader.getLongFlag argReader))
  || (negb (Ascii.eqb (_shortName args) NUL)
      && ArgReader.hasShortFlag argReader
      && Ascii.eqb (_shortName args) (ArgReader.getShortFlag argReader)).

Section Dispatch.

(** [invokeParse]: the virtual call of [parseArgsR] on a member. *)
Variable invokeParse : Flag -> ArgReader -> Outcome.

(** The [while] loop of [FlagGroup::parseArgsR]; each iteration takes one
    unit of fuel.  An index holds positions of [members] only, so the
    branch for a position outside [members] is never taken
    ([membersByLongName_found], [membersByShortName_found]). *)
Fixpoint groupLoop (fuel : nat) (args : CtorArgs) (members : list Flag)
    (argReader : ArgReader) : Outcome :=
  match fuel with
  | O => OutOfFuel
  | S fuel' =>
      if ArgReader.atEnd argReader
      then Done true (FlagGroup args members) argReader
      else if ArgReader.hasLongFlag argReader then
        match membersByLongName members (ArgReader.getLongFlag argReader) with
        | None => Done true (FlagGroup args members) argReader
        | Some i =>
            match nth_error members i with
            | None => Done true (FlagGroup args members) argReader
            | Some m =>
                if atCapacity m
                then Done true (FlagGroup args members) argReader
                else
                  let pos := ArgReader.tell argReader in
                  match invokeParse m argReader with
                  | Done false m' r' =>
                      Done false (FlagGroup args (setMember members i m')) r'
                  | Done true m' r' =>
                      if (ArgReader.tell r' =? pos)%nat
                      then Done true
                             (FlagGroup args (setMember members i m')) r'
                      else groupLoop fuel' args (setMember members i m') r'
                  | Undefined => Undefined
                  | OutOfFuel => OutOfFuel
                  end
            end
        end
      else
        match membersByShortName members
                (ArgReader.getShortFlag argReader) with
        | None => Done true (FlagGroup args members) argReader
        | Some i =>
            match nth_error members i with
            | None => Done true (FlagGroup args members) argReader
            | Some m =>
                if atCapacity m
                then Done true (FlagGroup args members) argReader
                else
                  match invokeParse m argReader with
                  | Done false m' r' =>
                      Done false (FlagGroup args (setMember members i m')) r'
                  | Done true m' r' =>
                      groupLoop fuel' args (setMember members i m') r'
                  | Undefined => Undefined
                  | OutOfFuel => OutOfFuel
                  end
            end
        end
  end.

(** [FlagGroup::parseArgsR]. *)
Definition FlagGroup_parseArgsR (fuel : nat) (args : CtorArgs)
    (members : list Flag) (argReader : ArgReader) : Outcome :=
  if notOneFlag argReader
  then Done false (FlagGroup args members) argReader
  else if namesGroup args argReader then
    match ArgReader.parseNextArg argReader with
    | Some r1 => groupLoop fuel args members r1
    | None => Undefined
    end
  else groupLoop fuel args members argReader.

End Dispatch.

(** [parseArgsR], the virtual function, by class.  Every call, the
    vector's call of itself included, takes one unit of fuel. *)
Fixpoint parseArgsR (fuel : nat) (self : Flag) (argReader : ArgReader)
  : Outcome :=
  match fuel with
  | O => OutOfFuel
  | S fuel' =>
      match self with
      | PrimitiveFlag args P _ _ =>
          SingletonFlag_parseArgsR self args P argReader
      | Switch args present => Switch_parseArgsR args present argReader
      | FlagOfFlag value =>
          match parseArgsR fuel' value argReader with
          | Done ok value' r' => Done ok (FlagOfFlag value') r'
          | Undefined => Undefined
          | OutOfFuel => OutOfFuel
          end
      | VectorFlag args greedy reentrant T _ value =>
          let position := ArgReader.tell argReader in
          match parseArgsR fuel' (newFlag args T) argReader with
          | Done false _ r' =>
              Done false (VectorFlag args greedy reentrant T true value) r'
          | Done true flag r' =>
              if (position =? ArgReader.tell r')%nat
              then Done true (VectorFlag args greedy reentrant T true value) r'
              else
                let self' :=
                  VectorFlag args greedy reentrant T true (value ++ [flag]) in
                if reinvokes greedy reentrant r' flag
                then parseArgsR fuel' self' r'
                else Done true self' r'
          | Undefined => Undefined
          | OutOfFuel => OutOfFuel
          end
      | FlagGroup args members =>
          FlagGroup_parseArgsR (parseArgsR fuel') fuel' args members argReader
      end
  end.

(** What a call of [parseArgs] comes to. *)
Inductive Result :=
| Returned (ok : bool) (f : Flag)
| UndefinedBehaviour
| NoFuel.

(** [FlagBase::parseArgs].  The diagnostics written to [stderr] are not
    part of the result. *)
Definition parseArgs (fuel : nat) (self : Flag) (argc : Z)
    (argv : list string) : Result :=
  if (argc <? 2)%Z then Returned true self
  else
    match ArgReader.parseNextArg (ArgReader.make argc argv) with
    | None => UndefinedBehaviour
    | Some argReader =>
        match parseArgsR fuel self argReader with
        | Done false f _ => Returned false f
        | Done true f r => Returned (ArgReader.atEnd r) f
        | Undefined => UndefinedBehaviour
        | OutOfFuel => NoFuel
        end
    end.

(** [parseArgs] on a whole array, [argc] being its length. *)
Definition parseArgv (fuel : nat) (self : Flag) (argv : list string)
  : Result :=
  parseArgs fuel self (Z.of_nat (List.length argv)) argv.

(* ------------------------------------------------------------------ *)
(** ** Reading a flag tree *)

(** The members of a group (of a [Flag<G>] too), and the member at a
    position. *)
Fixpoint membersOf (f : Flag) : list Flag :=
  match f with
  | FlagGroup _ ms => ms
  | FlagOfFlag v => membersOf v
  | _ => []
  end.

Definition member (f : Flag) (i : nat) : option Flag :=
  nth_error (membersOf f) i.

(** [present] and [value] of a primitive flag or a switch. *)
Definition isPresent (f : Flag) : bool :=
  match f with
  | PrimitiveFlag _ _ p _ => p
  | Switch _ p => p
  | _ => false
  end.

Definition valueOf (f : Flag) : option PrimValue :=
  match f with
  | PrimitiveFlag _ _ _ v => Some v
  | _ => None
  end.

(** [value] of a vector flag: its elements, and their scalar values when
    the element type is a scalar. *)
Definition elements (f : Flag) : list Flag :=
  match f with
  | VectorFlag _ _ _ _ _ vs => vs
  | _ => []
  end.

Definition scalars (f : Flag) : list PrimValue :=
  flat_map (fun e => match valueOf e with Some v => [v] | None => [] end)
           (elements f).

Definition isVector (f : Flag) : bool :=
  match f with VectorFlag _ _ _ _ _ _ => true | _ => false end.

Definition isReentrant (f : Flag) : bool :=
  match f with VectorFlag _ _ re _ _ _ => re | _ => false end.

Definition isGreedy (f : Flag) : bool :=
  match f with VectorFlag _ g _ _ _ _ => g | _ => false end.

Definition wasEntered (f : Flag) : bool :=
  match f with VectorFlag _ _ _ _ e _ => e | _ => false end.

(** A flag as its declaration leaves it: nothing present, no vector entered
    or filled. *)
Fixpoint untouched (f : Flag) : bool :=
  match f with
  | PrimitiveFlag _ _ p _ => negb p
  | Switch _ p => negb p
  | FlagOfFlag v => untouched v
  | VectorFlag _ _ _ _ e vs =>
      negb e && match vs with [] => true | _ => false end
  | FlagGroup _ ms => forallb untouched ms
  end.

(** [value] of the scalar member at a position of a group, and the values
    held by the vector member at a position. *)
Definition valueAt (g : Flag) (i : nat) : option PrimValue :=
  match member g i with
  | Some m => valueOf m
  | None => None
  end.

Definition scalarsAt (g : Flag) (i : nat) : list PrimValue :=
  match member g i with
  | Some m => scalars m
  | None => []
  end.

Definition presentAt (g : Flag) (i : nat) : bool :=
  match member g i with
  | Some m => isPresent m
  | None => false
  end.

(** A scalar element type. *)
Definition isScalar (T : Flag) : bool :=
  match T with PrimitiveFlag _ _ _ _ => true | _ => false end.

(** The flag found in a tree by going down through the members of groups,
    one position of [path] at a time. *)
Fixpoint descend (f : Flag) (path : list nat) : option Flag :=
  match path with
  | [] => Some f
  | i :: path' =>
      match nth_error (membersOf f) i with
      | Some m => descend m path'
      | None => None
      end
  end.

(** The member found for the current token: the long-name index is asked
    when the reader holds a long flag, the short-name index otherwise. *)
Definition dispatched (members : list Flag) (argReader : ArgReader)
  : option nat :=
  if ArgReader.hasLongFlag argReader
  then membersByLongName members (ArgReader.getLongFlag argReader)
  else membersByShortName members (ArgReader.getShortFlag argReader).

(* ------------------------------------------------------------------ *)
(** ** Induction on flag trees *)

Section FlagInduction.

Variable Q : Flag -> Prop.
Hypothesis Q_primitive : forall a P p v, Q (PrimitiveFlag a P p v).
Hypothesis Q_switch : forall a p, Q (Switch a p).
Hypothesis Q_flag : forall v, Q v -> Q (FlagOfFlag v).
Hypothesis Q_vector : forall a g re T e vs,
    Q T -> Forall Q vs -> Q (VectorFlag a g re T e vs).
Hypothesis Q_group : forall a ms, Forall Q ms -> Q (FlagGroup a ms).

Fixpoint Flag_tree_ind (f : Flag) : Q f :=
  match f with
  | PrimitiveFlag a P p v => Q_primitive a P p v
  | Switch a p => Q_switch a p
  | FlagOfFlag v => Q_flag v (Flag_tree_ind v)
  | VectorFlag a g re T e vs =>
      Q_vector a g re T e vs (Flag_tree_ind T)
        ((fix all (l : list Flag) : Forall Q l :=
            match l with
            | [] => Forall_nil Q
            | x :: l' => Forall_cons x (Flag_tree_ind x) (all l')
            end) vs)
  | FlagGroup a ms =>
      Q_group a ms
        ((fix all (l : list Flag) : Forall Q l :=
            match l with
            | [] => Forall_nil Q
            | x :: l' => Forall_cons x (Flag_tree_ind x) (all l')
            end) ms)
  end.

End FlagInduction.

(* ------------------------------------------------------------------ *)
(** ** What a parse cannot change *)

(** [later f f']: [f'] is a state the flag [f] can be in later in a parse:
    the same names, types and shape, and no [present] or [entered] mark
    taken back. *)
Inductive later : Flag -> Flag -> Prop :=
| later_primitive a P p v p' v' :
    (p = true -> p' = true) ->
    later (PrimitiveFlag a P p v) (PrimitiveFlag a P p' v')
| later_switch a p p' :
    (p = true -> p' = true) ->
    later (Switch a p) (Switch a p')
| later_flag v v' :
    later v v' ->
    later (FlagOfFlag v) (FlagOfFlag v')
| later_vector a g re T e vs e' vs' :
    (e = true -> e' = true) ->
    later (VectorFlag a g re T e vs) (VectorFlag a g re T e' vs')
| later_group a ms ms' :
    Forall2 later ms ms' ->
    later (FlagGroup a ms) (FlagGroup a ms').

(* ------------------------------------------------------------------ *)
(** ** Runs and their outcomes *)

(** The reader as [parseArgs] hands it to the root flag, for an array with
    at least two arguments. *)
Definition firstToken (argv : list string) : ArgReader :=
  match ArgReader.parseNextArg
          (ArgReader.make (Z.of_nat (List.length argv)) argv) with
  | Some r => r
  | None => ArgReader.make 0 []
  end.

(** The parts of an outcome. *)
Definition flagOf (o : Outcome) (default : Flag) : Flag :=
  match o with Done _ f _ => f | _ => default end.
Definition readerOf (o : Outcome) : ArgReader :=
  match o with Done _ _ r => r | _ => ArgReader.make 0 [] end.

(** What [parseArgs] returns for an outcome of the root flag. *)
Definition resultOf (o : Outcome) : Result :=
  match o with
  | Done false f _ => Returned false f
  | Done true f r => Returned (ArgReader.atEnd r) f
  | Undefined => UndefinedBehaviour
  | OutOfFuel => NoFuel
  end.

(** A member whose [parseArgsR] returns true and reads nothing, which the
    contract of [parseArgsR] allows ("this function can return success even
    if no input is parsed"). *)
Definition idleParse (m : Flag) (argReader : ArgReader) : Outcome :=
  Done true m argReader.

(* ------------------------------------------------------------------ *)
(** ** The words of the specification *)

(** The current token is a flag that names the vector itself: a long flag
    equal to its long name or a short flag equal to its short name. *)
Definition namesVector (args : CtorArgs) (argReader : ArgReader) : bool :=
  (ArgReader.hasLongFlag argReader
   && String.eqb (_longName args) (ArgReader.getLongFlag argReader))
  || (ArgReader.hasShortFlag argReader
      && Ascii.eqb (_shortName args) (ArgReader.getShortFlag argReader)).

(** The condition of re-invocation in the words of the specification: the
    next token is not a flag at all, or it is a flag matching the node's
    own name and the node is reentrant. *)
Definition spec_reinvokes (args : CtorArgs) (greedy reentrant : bool)
    (argReader : ArgReader) : bool :=
  greedy && (negb (ArgReader.hasAnyFlag argReader)
             || (namesVector args argReader && reentrant)).

(** The current token names one of the given members or a descendant of
    one: [hasFlag] of the kind of the token, asked of each member. *)
Definition namesMember (members : list Flag) (argReader : ArgReader) : bool :=
  if ArgReader.hasShortFlag argReader
  then existsb (fun m => hasFlagChar m (ArgReader.getShortFlag argReader))
               members
  else existsb (fun m => hasFlag m (ArgReader.getLongFlag argReader)) members.

(** A flag that takes a value: a scalar, or a vector of such flags. *)
Fixpoint takesValue (f : Flag) : bool :=
  match f with
  | PrimitiveFlag _ _ _ _ => true
  | VectorFlag _ _ _ T _ _ => takesValue T
  | _ => false
  end.

(** The three ways of writing a flag with its value. *)
Definition attachedForm (name v : string) : list string :=
  [ String dash (String dash (name ++ String equalsSign v)) ].
Definition separateForm (name v : string) : list string :=
  [ String dash (String dash name); v ].
Definition shortForm (c : ascii) (v : string) : list string :=
  [ String dash (String c EmptyString); v ].

(* ------------------------------------------------------------------ *)
(** ** Two readers over two arrays *)

(** [shifted d rA rB]: the reader [rB] stands [d] arguments further in its
    array than [rA] in its own, with the same arguments left to read and
    the same current token. *)
Definition shifted (d : nat) (rA rB : ArgReader) : Prop :=
  ArgReader.argc rB = ArgReader.argc rA + d
  /\ ArgReader.position rB = ArgReader.position rA + d
  /\ skipn (S (ArgReader.position rA)) (ArgReader.argv rA)
     = skipn (S (ArgReader.position rB)) (ArgReader.argv rB)
  /\ ArgReader.charKey rB = ArgReader.charKey rA
  /\ ArgReader.key rB = ArgReader.key rA
  /\ ArgReader.value rB = ArgReader.value rA
  /\ ArgReader.flagAbsent rB = ArgReader.flagAbsent rA
  /\ ArgReader.flagIsCharacter rB = ArgReader.flagIsCharacter rA
  /\ ArgReader.valueSpecified rB = ArgReader.valueSpecified rA
  /\ ArgReader.clearedOut rB = ArgReader.clearedOut rA
  /\ ArgReader.charFlags rB = ArgReader.charFlags rA.

(** Two outcomes that agree: the same result and the same flag, with
    readers shifted as before. *)
Definition sameOutcome (d : nat) (oA oB : Outcome) : Prop :=
  match oA, oB with
  | Done okA fA rA, Done okB fB rB =>
      okA = okB /\ fA = fB /\ shifted d rA rB
  | Undefined, Undefined => True
  | OutOfFuel, OutOfFuel => True
  | _, _ => False
  end.

(** [valuePending v rA rB]: both readers are on a flag token, at the same
    position; the token of [rA] carries the attached value [v], the token
    of [rB] carries none and the next argument of its array is [v]; after
    that the two arrays go on alike. *)
Definition valuePending (v : string) (rA rB : ArgReader) : Prop :=
  ArgReader.valueSpecified rA = true
  /\ ArgReader.value rA = v
  /\ ArgReader.valueSpecified rB = false
  /\ ArgReader.charFlags rA = []
  /\ ArgReader.charFlags rB = []
  /\ ArgReader.position rB = ArgReader.position rA
  /\ ArgReader.argc rB = S (ArgReader.argc rA)
  /\ ArgReader.position rA < ArgReader.argc rA
  /\ nth_error (ArgReader.argv rB) (S (ArgReader.position rB)) = Some v
  /\ skipn (S (ArgReader.position rA)) (ArgReader.argv rA)
     = skipn (S (S (ArgReader.position rB))) (ArgReader.argv rB)
  /\ ArgReader.clearedOut rB = ArgReader.clearedOut rA.

(** Two outcomes of a call made with the value pending: the same result
    and the same flag, and after a true result the value has been taken in
    both runs, the readers being one argument apart and past the token. *)
Definition valueTaken (pos : nat) (oA oB : Outcome) : Prop :=
  match oA, oB with
  | Done okA fA rA, Done okB fB rB =>
      okA = okB /\ fA = fB
      /\ (okA = true -> shifted 1 rA rB /\ pos < ArgReader.position rA)
  | Undefined, Undefined => True
  | OutOfFuel, OutOfFuel => True
  | _, _ => False
  end.

(* ------------------------------------------------------------------ *)
(** ** A flag with its value, anywhere in the arguments *)

(** An argument that, read as a token, leaves no short flag pending: it is
    not a cluster of two or more short flags. *)
Definition clusterFree (arg : string) : bool :=
  match ArgReader.readArgument (ArgReader.make 0 []) 0 arg with
  | Some r => match ArgReader.charFlags r with [] => true | _ => false end
  | None => true
  end.

(** The arguments before the flag: the program name, then arguments none
    of which is a cluster of short flags. *)
Definition prefixOK (pre : list string) : bool :=
  match pre with
  | [] => false
  | _ :: args => forallb clusterFree args
  end.

(** The flag token, if it is one, that the reader holds: the constructor
    arguments [a] bear its name. *)
Definition bearsToken (r : ArgReader) (a : CtorArgs) : bool :=
  if ArgReader.hasShortFlag r
  then Ascii.eqb (_shortName a) (ArgReader.getShortFlag r)
  else String.eqb (_longName a) (ArgReader.getLongFlag r).

(** The last of the arguments before the flag, read as a token, when it is
    a flag without a value: a flag that takes a value, called on it, would
    take the next argument for its value. *)
Definition pendingFlag (pre : list string) : option ArgReader :=
  match List.length pre with
  | S (S n) =>
      match nth_error pre (S n) with
      | Some arg =>
          match ArgReader.readArgument (ArgReader.make 0 []) 0 arg with
          | Some t => if ArgReader.valueSpecified t then None else Some t
          | None => None
          end
      | None => None
      end
  | _ => None
  end.

(** The names of that flag token. *)
Definition lastBears (pre : list string) (a : CtorArgs) : bool :=
  match pendingFlag pre with
  | Some t => bearsToken t a
  | None => false
  end.

(** A flag whose parser starts by taking a value. *)
Fixpoint wantsValue (f : Flag) : bool :=
  match f with
  | PrimitiveFlag _ _ _ _ => true
  | FlagOfFlag v => wantsValue v
  | VectorFlag _ _ _ T _ _ => wantsValue T
  | _ => false
  end.

(** No flag of the tree that wants a value bears one of the names
    [bears].  [quietOf bears T args] is the same for the parser [T(args)]
    that a vector stacks. *)
Fixpoint quiet (bears : CtorArgs -> bool) (f : Flag) : bool :=
  match f with
  | PrimitiveFlag a _ _ _ => negb (bears a)
  | Switch _ _ => true
  | FlagOfFlag v => quiet bears v
  | VectorFlag a _ _ T _ _ => quietOf bears T a
  | FlagGroup _ ms => forallb (quiet bears) ms
  end
with quietOf (bears : CtorArgs -> bool) (T : Flag) (a : CtorArgs) : bool :=
  match T with
  | PrimitiveFlag _ _ _ _ => negb (bears a)
  | Switch _ _ => true
  | FlagOfFlag v => quietOf bears v a
  | VectorFlag _ _ _ T' _ _ => quietOf bears T' a
  | FlagGroup _ ms => forallb (quiet bears) ms
  end.

(** Every flag of the tree that bears the long name [name] takes a value:
    no switch and no group has this name, and a vector that has it is a
    vector of scalars.  [valueNamedOf name T args] is the same for the
    parser [T(args)] that a vector stacks. *)
Fixpoint valueNamed (name : string) (f : Flag) : bool :=
  match f with
  | PrimitiveFlag _ _ _ _ => true
  | Switch a _ => negb (String.eqb (_longName a) name)
  | FlagOfFlag v => valueNamed name v
  | VectorFlag a _ _ T _ _ => valueNamedOf name T a
  | FlagGroup a ms =>
      negb (String.eqb (_longName a) name) && forallb (valueNamed name) ms
  end
with valueNamedOf (name : string) (T : Flag) (a : CtorArgs) : bool :=
  match T with
  | PrimitiveFlag _ _ _ _ => true
  | Switch _ _ => negb (String.eqb (_longName a) name)
  | FlagOfFlag v => valueNamedOf name v a
  | VectorFlag _ _ _ T' _ _ => valueNamedOf name T' a
  | FlagGroup _ ms =>
      negb (String.eqb (_longName a) name) && forallb (valueNamed name) ms
  end.

(** A group, or a [Flag<G>] of one. *)
Fixpoint groupLike (f : Flag) : bool :=
  match f with
  | FlagGroup _ _ => true
  | FlagOfFlag v => groupLike v
  | _ => false
  end.

(** A flag that can be handed the token [--name]: it owns the name, or it
    is a group, which looks the name up. *)
Definition addressed (name : string) (f : Flag) : bool :=
  hasFlag f name || groupLike f.

(** The reader stands on the last argument before the flag and holds no
    value. *)
Definition awaiting (pre : list string) (r : ArgReader) : Prop :=
  S (ArgReader.position r) = List.length pre
  /\ ArgReader.valueSpecified r = false.

(** The two readers before the flag: in the same state, over the two
    arrays, the cursor within [pre], no short flag pending; on the last
    argument of [pre] the reader holds a value or the flag token
    [pendingFlag pre]. *)
Definition beforeToken (name v : string) (pre post : list string)
    (rA rB : ArgReader) : Prop :=
  ArgReader.argv rA = pre ++ attachedForm name v ++ post
  /\ ArgReader.argv rB = pre ++ separateForm name v ++ post
  /\ ArgReader.argc rA = List.length (ArgReader.argv rA)
  /\ ArgReader.argc rB = List.length (ArgReader.argv rB)
  /\ ArgReader.position rB = ArgReader.position rA
  /\ ArgReader.position rA < List.length pre
  /\ ArgReader.charFlags rA = []
  /\ ArgReader.charFlags rB = []
  /\ (S (ArgReader.position rA) = List.length pre ->
      ArgReader.valueSpecified rA = true
      \/ (ArgReader.flagAbsent rA = false
          /\ forall a, bearsToken rA a = lastBears pre a))
  /\ ArgReader.charKey rB = ArgReader.charKey rA
  /\ ArgReader.key rB = ArgReader.key rA
  /\ ArgReader.value rB = ArgReader.value rA
  /\ ArgReader.flagAbsent rB = ArgReader.flagAbsent rA
  /\ ArgReader.flagIsCharacter rB = ArgReader.flagIsCharacter rA
  /\ ArgReader.valueSpecified rB = ArgReader.valueSpecified rA
  /\ ArgReader.clearedOut rB = ArgReader.clearedOut rA.

(** The two readers on the flag: the long flag [name] is the current token
    of both, with the value [v] attached for [rA] and next in the array for
    [rB]. *)
Definition atToken (name v : string) (pre post : list string)
    (rA rB : ArgReader) : Prop :=
  ArgReader.argv rA = pre ++ attachedForm name v ++ post
  /\ ArgReader.argv rB = pre ++ separateForm name v ++ post
  /\ ArgReader.argc rA = List.length (ArgReader.argv rA)
  /\ ArgReader.argc rB = List.length (ArgReader.argv rB)
  /\ ArgReader.position rA = List.length pre
  /\ ArgReader.position rB = List.length pre
  /\ ArgReader.charFlags rA = []
  /\ ArgReader.charFlags rB = []
  /\ ArgReader.key rA = name
  /\ ArgReader.key rB = name
  /\ ArgReader.charKey rB = ArgReader.charKey rA
  /\ ArgReader.flagAbsent rA = false
  /\ ArgReader.flagAbsent rB = false
  /\ ArgReader.flagIsCharacter rA = false
  /\ ArgReader.flagIsCharacter rB = false
  /\ ArgReader.valueSpecified rA = true
  /\ ArgReader.value rA = v
  /\ ArgReader.valueSpecified rB = false
  /\ ArgReader.clearedOut rB = ArgReader.clearedOut rA.

(** The two readers after the flag and its value. *)
Definition afterToken (pre : list string) (rA rB : ArgReader) : Prop :=
  shifted 1 rA rB /\ List.length pre < ArgReader.position rA.

(** The two readers at any time of the two runs. *)
Definition related (name v : string) (pre post : list string)
    (rA rB : ArgReader) : Prop :=
  beforeToken name v pre post rA rB
  \/ atToken name v pre post rA rB
  \/ afterToken pre rA rB.

(** Two outcomes with the same result and the same flag, the readers
    being related by [R] when the result is true. *)
Definition alike (R : ArgReader -> ArgReader -> Prop) (oA oB : Outcome)
  : Prop :=
  match oA, oB with
  | Done okA fA rA, Done okB fB rB =>
      okA = okB /\ fA = fB /\ (okA = true -> R rA rB)
  | Undefined, Undefined => True
  | OutOfFuel, OutOfFuel => True
  | _, _ => False
  end.

(* ------------------------------------------------------------------ *)
(** ** Measures for termination *)

(** The depth to which calls of [parseArgsR] nest in a flag tree. *)
Fixpoint height (f : Flag) : nat :=
  match f with
  | PrimitiveFlag _ _ _ _ => 0
  | Switch _ _ => 0
  | FlagOfFlag v => S (height v)
  | VectorFlag _ _ _ T _ _ => S (height T)
  | FlagGroup _ ms => S (fold_right (fun m h => Nat.max (height m) h) 0 ms)
  end.

(** The greatest height among the members of a group. *)
Definition maxHeight (ms : list Flag) : nat :=
  fold_right (fun m h => Nat.max (height m) h) 0 ms.

(** The characters of the arguments in a list. *)
Fixpoint totalLength (l : list string) : nat :=
  match l with
  | [] => 0
  | s :: l' => String.length s + totalLength l'
  end.

(** What a reader has left to do: the short flags pending, the end mark to
    set, the text of the arguments after the cursor, and the steps of the
    cursor up to [argc]. *)
Definition workLeft (r : ArgReader) : nat :=
  List.length (ArgReader.charFlags r)
  + (if ArgReader.clearedOut r then 0 else 1)
  + totalLength (skipn (S (ArgReader.position r)) (ArgReader.argv r))
  + (ArgReader.argc r - ArgReader.position r).

(** [readsOn r r']: the reader [r'] comes after [r]: it has no more left
    to do, and less if the cursor moved. *)
Definition readsOn (r r' : ArgReader) : Prop :=
  workLeft r' <= workLeft r
  /\ (ArgReader.tell r' <> ArgReader.tell r -> workLeft r' < workLeft r).

(** The current token is not a long flag and its character is the short
    name of the flag [m]. *)
Definition namedShort (m : Flag) (r : ArgReader) : Prop :=
  ArgReader.hasLongFlag r = false
  /\ hasShortName m = true
  /\ Ascii.eqb (getShortName m) (ArgReader.getShortFlag r) = true.

(* ------------------------------------------------------------------ *)
(** ** The flag groups of the tests and of the example *)

(** [Flag<bool>], [Flag<int>], [Flag<int64_t>] and [Flag<std::string>]. *)
Definition Flag_bool : CtorArgs -> Flag := primitive TBool.
Definition Flag_int : CtorArgs -> Flag := primitive (TInt ParseType.I32).
Definition Flag_int64_t : CtorArgs -> Flag := primitive (TInt ParseType.I64).
Definition Flag_string : CtorArgs -> Flag := primitive TString.

(** A group with a [Flag<bool>] [alive], a [Flag<int64_t>] [param] and a
    [Flag<vector<int>>] [ind], as in [BasicTest::MyFlagGroup]. *)
Definition BasicFlagGroup : Flag :=
  FlagGroup anonymous
    [ Flag_bool (flag "alive");
      Flag_int64_t (flag "param");
      vectorOf (Flag_int anonymous) (flag "ind") ].

(** A group with the two switches of [BasicTest::MyFlagGroup]. *)
Definition ToggleGroup : Flag :=
  FlagGroup anonymous [ switch (flag "toggle"); switch (flag "toggle2") ].

(** A group with the two switches [p] and [b]. *)
Definition ClusterGroup : Flag :=
  FlagGroup anonymous [ switch (flagc "p"); switch (flagc "b") ].

(** A group that carries a name, with one member: [EntityFlags] cut down
    to its [id]. *)
Definition EntityGroup : Flag :=
  FlagGroup (flag "entity") [ Flag_int64_t (flag "id") ].

(** A group with one [Flag<Sequential<int>>]. *)
Definition WeightsGroup : Flag :=
  FlagGroup anonymous [ sequentialOf (Flag_int anonymous) (flag "weights") ].

Module Test2.

(** [struct RepeatableGroup]: one [Flag<Sequential<int>>] named [weights]. *)
Definition RepeatableGroup : CtorArgs -> Flag :=
  groupFlag [ sequentialOf (Flag_int anonymous) (flag "weights") ].

(** [struct MyFlagGroup]. *)
Definition MyFlagGroup : Flag :=
  FlagGroup anonymous
    [ Flag_int64_t (flag "param");
      vectorOf (RepeatableGroup anonymous) (flag "lists") ].

(** The [weights] of each element of [lists], as integers. *)
Definition weightsOf (g : Flag) : list (list PrimValue) :=
  match member g 1 with
  | Some lists =>
      map (fun e => match member e 0 with
                    | Some w => scalars w
                    | None => []
                    end) (elements lists)
  | None => []
  end.

End Test2.

(** The [lists] vector of [Test2::MyFlagGroup] on its own. *)
Definition listsVector : Flag :=
  vectorOf (Test2.RepeatableGroup anonymous) (flag "lists").

(** The arguments of scenario C as the specification gives them. *)
Definition scenario_C_argv : list string :=
  ["prog"; "--lists"; "--weights"; "1"; "2"; "3";
   "--weights"; "4"; "5"; "6"; "--param"; "1336";
   "--lists"; "--weights"; "10"; "11"; "12"].

Module Example.

(** [struct DisplayFile]. *)
Definition DisplayFile : CtorArgs -> Flag :=
  groupFlag
    [ Flag_string (flag2 "file" "f");
      Flag_string (flag2 "label" "l");
      vectorOf (Flag_int anonymous) (flag2 "bookmark" "b");
      switch (flagc "p") ].

(** [struct AllFlags]. *)
Definition AllFlags : Flag :=
  FlagGroup anonymous
    [ repeatedOf (DisplayFile anonymous) (flag2 "display" "D") ].

End Example.

(** The file of the one element of [files], when there is exactly one. *)
Definition onlyFile (g : Flag) : option Flag :=
  match member g 0 with
  | Some files =>
      match elements files with
      | [file] => Some file
      | _ => None
      end
  | None => None
  end.

(** [DisplayFile] as the root group of a program. *)
Definition DisplayFileRoot : Flag :=
  FlagGroup anonymous (membersOf (Example.DisplayFile anonymous)).

(** A group named [inner], with a member [id]; and a root group with a
    vector [outer] of groups that hold it as a plain member. *)
Definition InnerGroup : Flag :=
  FlagGroup (flag "inner") [ Flag_int64_t (flag "id") ].

Definition OuterRoot : Flag :=
  FlagGroup anonymous
    [ vectorOf (groupFlag [ InnerGroup ] anonymous) (flag "outer") ].

(* ------------------------------------------------------------------ *)
(** ** Registering the members of a group ([FlagGroup::addFlag]) *)

(** A [std::map] as [addFlag] and [parseArgsR] use it: [find] and
    assignment through [operator[]], over the entries in the order in
    which their keys were first assigned. *)
Section StdMap.

Variables K V : Type.
Variable eqb : K -> K -> bool.

Fixpoint mapFind (m : list (K * V)) (k : K) : option V :=
  match m with
  | [] => None
  | (k', v) :: m' => if eqb k' k then Some v else mapFind m' k
  end.

Fixpoint mapAssign (m : list (K * V)) (k : K) (v : V) : list (K * V) :=
  match m with
  | [] => [(k, v)]
  | (k', v') :: m' =>
      if eqb k' k then (k, v) :: m' else (k', v') :: mapAssign m' k v
  end.

End StdMap.

Arguments mapFind {K V} eqb m k.
Arguments mapAssign {K V} eqb m k v.

(** The three containers of a [FlagGroup].  A pointer to a member is the
    position of the member in [members]. *)
Record GroupFields := mkGroupFields {
  fieldMembers : list Flag;
  fieldMembersByLongName : list (string * nat);
  fieldMembersByShortName : list (ascii * nat)
}.

(** A group as its constructor leaves it. *)
Definition noMembers : GroupFields := mkGroupFields [] [] [].

(** [FlagGroup::addFlag]. *)
Definition addFlag (g : GroupFields) (flag : Flag) : GroupFields :=
  let p := List.length (fieldMembers g) in
  mkGroupFields
    (fieldMembers g ++ [flag])
    (if hasLongName flag
     then mapAssign String.eqb (fieldMembersByLongName g) (getLongName flag) p
     else fieldMembersByLongName g)
    (if hasShortName flag
     then mapAssign Ascii.eqb (fieldMembersByShortName g)
                    (getShortName flag) p
     else fieldMembersByShortName g).

(** The group after its members have been constructed in the order of
    their declarations, each constructor calling [addFlag]. *)
Definition declare (members : list Flag) : GroupFields :=
  fold_left addFlag members noMembers.

(* ------------------------------------------------------------------ *)
(** ** Readers on an argument *)

(** [k] calls of [parseNextArg] in a row. *)
Fixpoint parseNextArgs (k : nat) (r : ArgReader) : option ArgReader :=
  match k with
  | O => Some r
  | S k' =>
      match ArgReader.parseNextArg r with
      | Some r' => parseNextArgs k' r'
      | None => None
      end
  end.

(** An argument that is no flag: it does not start with a dash. *)
Definition isBare (arg : string) : bool :=
  match arg with
  | String c _ => negb (Ascii.eqb c dash)
  | EmptyString => true
  end.

(** The reader that [parseArgs] makes and then moves through [argv], as
    it stands on a bare argument [v] at position [p], and as it stands
    after the last argument. *)
Definition bareReader (argv : list string) (p : nat) (v : string)
  : ArgReader :=
  ArgReader.mk (List.length argv) argv NUL "" v true false true false p [].

Definition endReader (argv : list string) : ArgReader :=
  ArgReader.mk (List.length argv) argv NUL "" "" false false false true
               (List.length argv) [].

(** The same reader as it stands on the long flag [name] at position [p],
    without a value and with the value [v]. *)
Definition flagReader (argv : list string) (p : nat) (name : string)
  : ArgReader :=
  ArgReader.mk (List.length argv) argv NUL name "" false false false false
               p [].

Definition valueReader (argv : list string) (p : nat) (name v : string)
  : ArgReader :=
  ArgReader.mk (List.length argv) argv NUL name v false false true false
               p [].

(** The same reader as it stands on the lone short flag [c] at position
    [p]. *)
Definition shortReader (argv : list string) (p : nat) (c : ascii)
  : ArgReader :=
  ArgReader.mk (List.length argv) argv c "" "" false true false false p [].

(** The same reader after [parseNextArg] has moved it to position [p]:
    on the argument there, or at the end of the arguments. *)
Definition tokenAt (argv : list string) (p : nat) : option ArgReader :=
  match nth_error argv p with
  | Some arg =>
      ArgReader.readArgument
        (ArgReader.mk (List.length argv) argv NUL "" "" true false false
                      false 0 [])
        p arg
  | None => Some (endReader argv)
  end.

(** The elements a vector of scalars holds after it has parsed the values
    [xs]. *)
Definition parsedElements (a : CtorArgs) (P : PrimType)
    (xs : list PrimValue) : list Flag :=
  map (fun x => PrimitiveFlag a P true x) xs.

(** The reader stands within its array, and two readers are over the same
    array. *)
Definition withinArgs (r : ArgReader) : Prop :=
  ArgReader.position r <= ArgReader.argc r.

Definition sameArguments (r r' : ArgReader) : Prop :=
  ArgReader.argc r' = ArgReader.argc r
  /\ ArgReader.argv r' = ArgReader.argv r.

(** The reader [r'] is over the array of [r], and within it if [r] is. *)
Definition staysWithin (r r' : ArgReader) : Prop :=
  sameArguments r r' /\ (withinArgs r -> withinArgs r').

(* ------------------------------------------------------------------ *)
(** ** The ways of giving a value to a vector flag *)

(** One value of a vector flag [name], as the command line gives it: after
    the flag ([--name v]), attached to the flag ([--name=v]), or bare,
    after another value ([v]). *)
Inductive Given :=
| AfterFlag (v : string)
| Attached (v : string)
| Bare (v : string).

Definition givenValue (g : Given) : string :=
  match g with AfterFlag v | Attached v | Bare v => v end.

Definition givenArgs (name : string) (g : Given) : list string :=
  match g with
  | AfterFlag v => separateForm name v
  | Attached v => attachedForm name v
  | Bare v => [v]
  end.

(** The arguments that give the values [gs], one after another. *)
Definition writtenOut (name : string) (gs : list Given) : list string :=
  flat_map (givenArgs name) gs.

(** The value of [g] is accepted by the type [P], as [x]; a bare value
    does not start with a dash. *)
Definition accepted (P : PrimType) (g : Given) (x : PrimValue) : Prop :=
  parseType P (givenValue g) = Some x
  /\ match g with Bare v => isBare v = true | _ => True end.

(* ------------------------------------------------------------------ *)
(** ** Floating-point value parsers ([ParseFloatType<T>]) *)

Module ParseFloat.

(** Modelled from the spec: a [long double] as the standard library's
    [std::stold] returns it (not part of the repository): a binary
    floating-point number [m * 2^e], an infinity, or not a number. *)
Inductive LongDouble :=
| Finite (m e : Z)
| Infinite (negative : bool)
| NotANumber.

(** [m1 * 2^e1 <= m2 * 2^e2]. *)
Definition dyadic_leb (m1 e1 m2 e2 : Z) : bool :=
  let e := Z.min e1 e2 in
  (m1 * 2 ^ (e1 - e) <=? m2 * 2 ^ (e2 - e))%Z.

(** [i >= bound] and [i <= bound] for a finite bound; a comparison with
    not-a-number is false. *)
Definition geBound (i : LongDouble) (bm be : Z) : bool :=
  match i with
  | Finite m e => dyadic_leb bm be m e
  | Infinite negative => negb negative
  | NotANumber => false
  end.

Definition leBound (i : LongDouble) (bm be : Z) : bool :=
  match i with
  | Finite m e => dyadic_leb m e bm be
  | Infinite negative => negative
  | NotANumber => false
  end.

(** [std::numeric_limits<T>::min()] and [max()] of a floating type [T],
    each as [m * 2^e]. *)
Record Limits := mkLimits {
  minM : Z; minE : Z;
  maxM : Z; maxE : Z
}.

(** Modelled from the spec: the limits of [float] and [double] (IEEE 754
    binary32 and binary64); [min()] of a floating type is its smallest
    positive normalised value. *)
Definition floatLimits : Limits :=
  mkLimits 1 (-126) (2 ^ 24 - 1) 104.
Definition doubleLimits : Limits :=
  mkLimits 1 (-1022) (2 ^ 53 - 1) 971.

(** [ParseFloatType<T>]: the field [error] that the constructor leaves.
    [stold val] is [None] when [std::stold] throws. *)
Definition error (stold : string -> option LongDouble) (lim : Limits)
    (val : string) : bool :=
  match stold val with
  | Some i =>
      negb (geBound i (minM lim) (minE lim)
            && leBound i (maxM lim) (maxE lim))
  | None => true
  end.

End ParseFloat.

(* ------------------------------------------------------------------ *)
(** ** Help text ([FlagProperties], [BasicHelpPrinter], [printHelp]) *)

Module Help.

Local Open Scope string_scope.

Record FlagProperties := mkFlagProperties {
  flagName : string;
  shortName : ascii;
  valueName : string;
  greedy : bool;
  reentrant : bool
}.

Definition hasShortName (p : FlagProperties) : bool :=
  negb (Ascii.eqb (shortName p) NUL).
Definition hasLongName (p : FlagProperties) : bool :=
  negb (String.length (flagName p) =? 0)%nat.
Definition hasValueName (p : FlagProperties) : bool :=
  negb (String.length (valueName p) =? 0)%nat.
Definition hasAnyName (p : FlagProperties) : bool :=
  hasShortName p || hasLongName p.
Definition isRepeatable (p : FlagProperties) : bool := reentrant p.
Definition acceptsMultipleValues (p : FlagProperties) : bool := greedy p.

(** [FlagProperties::listFlagNames]. *)
Definition listFlagNames (p : FlagProperties) : string :=
  if hasLongName p then
    if hasShortName p
    then "--" ++ flagName p ++ ", -" ++ String (shortName p) ""
    else "--" ++ flagName p
  else if hasShortName p then String dash (String (shortName p) "")
  else "".

(** [BasicHelpPrinter::writeFlagHeader]: the text it writes to the
    stream. *)
Definition writeFlagHeader (props : FlagProperties) : string :=
  let written := hasAnyName props in
  let names := if written then listFlagNames props else "" in
  if hasValueName props then
    names
    ++ (if written then " " else "[")
    ++ valueName props
    ++ (if acceptsMultipleValues props
        then " [" ++ valueName props ++ " [" ++ valueName props ++ "...]]"
        else "")
    ++ (if written then "" else "]")
    ++ (if isRepeatable props
        then " (Flag can "
             ++ (if acceptsMultipleValues props then "also be" else "be")
             ++ " repeated)"
        else "")
  else
    names
    ++ (if isRepeatable props
        then (if written then " " else "") ++ "[Repeatable]"
        else "")
    ++ (if acceptsMultipleValues props
        then (if written || isRepeatable props then " " else "")
             ++ "[Accepts multiple values]"
        else "").

(** The characters that the printer writes besides the texts it is
    given. *)
Definition space : ascii := " "%char.
Definition newline : ascii := ascii_of_nat 10.
Definition escape : ascii := ascii_of_nat 27.
(** [std::endl]. *)
Definition endl : string := String newline "".
Definition boldOn : string := String escape "[1m".
Definition boldOff : string := String escape "[0m".

Fixpoint spaces (n : nat) : string :=
  match n with
  | O => ""
  | S n' => String space (spaces n')
  end.

(** The state of a [BasicHelpPrinter]: [consoleWidth] is a [size_t],
    taken from the environment when the printer is made; [stream] is the
    text written so far; [indent] is an [int]. *)
Record BasicHelpPrinter := mkBasicHelpPrinter {
  consoleWidth : Z;
  stream : string;
  inFlag : bool;
  indent : Z
}.

(** [BasicHelpPrinter(ostream)], for a console of the given width. *)
Definition newPrinter (width : Z) (ostream : string) : BasicHelpPrinter :=
  mkBasicHelpPrinter width ostream false 0.

(** The loop of [writeIndentation] and the [write] after it: blocks of
    sixteen spaces while more than sixteen are to be printed, then the
    rest.  Each turn of the loop takes one unit of fuel. *)
Fixpoint indentation (fuel : nat) (toPrint : Z) : string :=
  if (16 <? toPrint)%Z then
    match fuel with
    | O => ""
    | S fuel' => spaces 16 ++ indentation fuel' (toPrint - 16)
    end
  else spaces (Z.to_nat toPrint).

(** What [writeIndentation] writes: [unsigned toPrint = indent], a
    conversion modulo [2^32], and then the loop. *)
Definition indentationOf (ind : Z) : string :=
  let toPrint := (ind mod 2 ^ 32)%Z in
  indentation (Z.to_nat toPrint) toPrint.

Definition writeIndentation (p : BasicHelpPrinter) : BasicHelpPrinter :=
  mkBasicHelpPrinter (consoleWidth p)
                     (stream p ++ indentationOf (indent p))
                     (inFlag p) (indent p).

(** The first loop of [writeIndentedBlock]: the white space at the head
    of the text that is left, and the text after it. *)
Fixpoint spanSpaces (s : string) : string * string :=
  match s with
  | String c s' =>
      if isspace c
      then let (sp, rest) := spanSpaces s' in (String c sp, rest)
      else ("", s)
  | EmptyString => ("", "")
  end.

(** The second loop: the characters of the word after its first one, and
    the text after the word. *)
Fixpoint spanWord (s : string) : string * string :=
  match s with
  | String c s' =>
      if isspace c then ("", s)
      else let (w, rest) := spanWord s' in (String c w, rest)
  | EmptyString => ("", "")
  end.

(** The [for] loop of [writeIndentedBlock], on the text from [i] on:
    [col] is [i - lineStart], [ind] is what [writeIndentation] writes.
    The result is what the loop writes.  Each turn takes one unit of
    fuel. *)
Fixpoint blockLoop (fuel : nat) (workingSpace : Z) (ind : string)
    (text : string) (col : Z) : string :=
  match fuel with
  | O => ""
  | S fuel' =>
      match text with
      | EmptyString => ""
      | _ =>
          let (sp, text1) := spanSpaces text in
          match text1 with
          | EmptyString => ""
          | String c text1' =>
              let (w, text2) := spanWord text1' in
              let word := String c w in
              let reach :=
                (col + Z.of_nat (String.length sp)
                 + Z.of_nat (String.length word))%Z in
              if (workingSpace <? reach)%Z
              then endl ++ ind ++ word
                   ++ blockLoop fuel' workingSpace ind text2
                                (Z.of_nat (String.length word))
              else sp ++ word
                   ++ blockLoop fuel' workingSpace ind text2 reach
          end
      end
  end.

(** What [writeIndentedBlock] writes.  [workingSpace] is a [size_t], of
    64 bits here: the subtraction wraps around when the indentation
    exceeds the width of the console. *)
Definition blockOf (width ind : Z) (textString : string) : string :=
  let workingSpace := ((width - ind) mod 2 ^ 64)%Z in
  indentationOf ind
  ++ blockLoop (S (String.length textString)) workingSpace
               (indentationOf ind) textString 0
  ++ endl ++ endl.

Definition writeIndentedBlock (p : BasicHelpPrinter) (textString : string)
  : BasicHelpPrinter :=
  mkBasicHelpPrinter (consoleWidth p)
                     (stream p
                      ++ blockOf (consoleWidth p) (indent p) textString)
                     (inFlag p) (indent p).

(** The interface [HelpPrinter]. *)
Class HelpPrinter (S : Type) := {
  writeBlock : S -> string -> S;
  enterFlag : S -> FlagProperties -> S;
  leaveFlag : S -> S
}.

(** [BasicHelpPrinter::enterFlag]. *)
Definition BasicHelpPrinter_enterFlag (p : BasicHelpPrinter)
    (props : FlagProperties) : BasicHelpPrinter :=
  let p1 :=
    if hasAnyName props then
      mkBasicHelpPrinter
        (consoleWidth p)
        (stream p ++ indentationOf (indent p) ++ boldOn
         ++ writeFlagHeader props ++ boldOff ++ endl ++ endl)
        true (indent p)
    else p in
  if inFlag p1
  then mkBasicHelpPrinter (consoleWidth p1) (stream p1) (inFlag p1)
                          (indent p1 + 2)
  else mkBasicHelpPrinter (consoleWidth p1) (stream p1) true (indent p1).

(** [BasicHelpPrinter::leaveFlag]. *)
Definition BasicHelpPrinter_leaveFlag (p : BasicHelpPrinter)
  : BasicHelpPrinter :=
  mkBasicHelpPrinter (consoleWidth p) (stream p) (inFlag p)
                     (if (2 <? indent p)%Z then indent p - 2 else 0)%Z.

#[export] Instance BasicHelpPrinter_HelpPrinter
  : HelpPrinter BasicHelpPrinter := {
  writeBlock := writeIndentedBlock;
  enterFlag := BasicHelpPrinter_enterFlag;
  leaveFlag := BasicHelpPrinter_leaveFlag
}.

(** What [printHelp] reads of a flag: its names, its description and the
    name of its value. *)
Record Documented := mkDocumented {
  docArgs : CtorArgs;
  _description : string;
  _valuename : string
}.

Definition hasDescription (d : Documented) : bool :=
  negb (String.length (_description d) =? 0)%nat.

(** [FlagBase::makeProps]. *)
Definition makeProps (d : Documented) (isGreedy isReentrant : bool)
  : FlagProperties :=
  mkFlagProperties (_longName (docArgs d)) (_shortName (docArgs d))
                   (_valuename d) isGreedy isReentrant.

(** A tree of flags as [printHelp] goes through it: a flag that prints
    with [FlagBase::printHelp] (a scalar, a switch), a [Flag<T>] of a
    flag, a vector with the flag that [newAnonymousFlag] makes, a
    group with its members. *)
Inductive HelpFlag :=
| HelpScalar (d : Documented)
| HelpOfFlag (value : HelpFlag)
| HelpVector (d : Documented) (isGreedy isReentrant : bool)
             (anonymousFlag : HelpFlag)
| HelpGroup (d : Documented) (members : list HelpFlag).

(** [printHelp], by class. *)
Fixpoint printHelp {S : Type} `{HelpPrinter S} (flag : HelpFlag)
    (printer : S) : S :=
  match flag with
  | HelpScalar d =>
      let p1 := enterFlag printer (makeProps d false false) in
      let p2 := if hasDescription d then writeBlock p1 (_description d)
                else p1 in
      leaveFlag p2
  | HelpOfFlag value => printHelp value printer
  | HelpVector d isGreedy isReentrant anonymousFlag =>
      let p1 := enterFlag printer (makeProps d isGreedy isReentrant) in
      let p2 := if hasDescription d then writeBlock p1 (_description d)
                else p1 in
      leaveFlag (printHelp anonymousFlag p2)
  | HelpGroup d members =>
      let p1 := enterFlag printer (makeProps d false false) in
      leaveFlag (fold_left (fun p m => printHelp m p) members p1)
  end.

(** [FlagGroup::printHelp(std::ostream &)]: the text on the stream
    afterwards. *)
Definition printHelpTo (width : Z) (flag : HelpFlag) (ostream : string)
  : string :=
  stream (printHelp flag (newPrinter width ostream)).

(** The words of a text: its longest runs of characters that are not
    white space, in order.  [word] is the word that the characters read
    so far have begun, if any. *)
Fixpoint wordsFrom (s : string) (word : option string) : list string :=
  match s with
  | String c s' =>
      if isspace c
      then match word with
           | Some w => w :: wordsFrom s' None
           | None => wordsFrom s' None
           end
      else wordsFrom s' (Some (match word with
                               | Some w => w ++ String c ""
                               | None => String c ""
                               end))
  | EmptyString =>
      match word with Some w => [w] | None => [] end
  end.

Definition words (s : string) : list string := wordsFrom s None.

(** Texts of white space only, texts without white space, and texts at
    whose head no word goes on. *)
Fixpoint blank (s : string) : bool :=
  match s with
  | String c s' => isspace c && blank s'
  | EmptyString => true
  end.

Fixpoint solid (s : string) : bool :=
  match s with
  | String c s' => negb (isspace c) && solid s'
  | EmptyString => true
  end.

Definition wordEnds (s : string) : bool :=
  match s with
  | String c _ => isspace c
  | EmptyString => true
  end.

(** The length of the longest line of a text, when [n] characters stand
    before it on its first line. *)
Fixpoint longestLine (s : string) (n : nat) : nat :=
  match s with
  | String c s' =>
      if Ascii.eqb c newline
      then Nat.max n (longestLine s' 0)
      else longestLine s' (S n)
  | EmptyString => n
  end.

Section HelpInduction.

Variable Q : HelpFlag -> Prop.
Hypothesis Q_scalar : forall d, Q (HelpScalar d).
Hypothesis Q_flag : forall v, Q v -> Q (HelpOfFlag v).
Hypothesis Q_vector :
  forall d g re T, Q T -> Q (HelpVector d g re T).
Hypothesis Q_group :
  forall d ms, Forall Q ms -> Q (HelpGroup d ms).

Fixpoint HelpFlag_tree_ind (f : HelpFlag) : Q f :=
  match f with
  | HelpScalar d => Q_scalar d
  | HelpOfFlag v => Q_flag v (HelpFlag_tree_ind v)
  | HelpVector d g re T => Q_vector d g re T (HelpFlag_tree_ind T)
  | HelpGroup d ms =>
      Q_group d ms
        ((fix all (l : list HelpFlag) : Forall Q l :=
            match l with
            | [] => Forall_nil Q
            | x :: l' => Forall_cons x (HelpFlag_tree_ind x) (all l')
            end) ms)
  end.

End HelpInduction.

End Help.

(** The flags of [Example.cpp] as [printHelp] goes through them. *)
Module HelpExample.

Import Help.
Local Open Scope string_scope.

(** A flag declared with [.description(...)] and no [.valueName(...)]. *)
Definition described (args : CtorArgs) (description : string)
  : Documented :=
  mkDocumented args description "".

(** [Flag<DisplayFile>], constructed with the arguments [args]. *)
Definition DisplayFile (args : CtorArgs) : HelpFlag :=
  HelpOfFlag
    (HelpGroup (described args "")
       [ HelpScalar
           (described (flag2 "file" "f")
              "Specifies the file to read (reads from stdin by default).");
         HelpScalar
           (described (flag2 "label" "l")
              "Assigns a label to this file's tab.");
         HelpVector
           (described (flag2 "bookmark" "b")
              "Gives the number of this entity to create.")
           true true (HelpScalar (described anonymous ""));
         HelpScalar
           (described (flagc "p")
              ("Denotes that if this file does not exist, it should be"
               ++ " created. If bookmarks are specified, the file will be"
               ++ " sized to contain the largest bookmark.")) ]).

(** [struct AllFlags]. *)
Definition AllFlags : HelpFlag :=
  HelpGroup (described anonymous "")
    [ HelpVector
        (described (flag2 "display" "D")
           "Create a tab to display a given file.")
        false true (DisplayFile anonymous) ].

End HelpExample.

(* ------------------------------------------------------------------ *)
(** ** Arguments that give every flag its value *)

(** An argument that [parseNextArg] reads within its text and in one
    call: it is not a lone dash, and not a cluster of two or more short
    flags. *)
Definition plainArg (arg : string) : bool :=
  match ArgReader.readArgument (ArgReader.make 0 []) 0 arg with
  | Some r => match ArgReader.charFlags r with [] => true | _ => false end
  | None => false
  end.

(** The arguments after the program name: each is plain, and the last
    one is no flag. *)
Definition valuesGiven (args : list string) : bool :=
  forallb plainArg args && isBare (last args "").

(** A reader over such arguments, as [parseNextArg] and [nextRawArgument]
    leave it: when it holds no value, it does not stand on the last
    argument. *)
Definition suppliedReader (r : ArgReader) : Prop :=
  ArgReader.charFlags r = []
  /\ ArgReader.argc r = List.length (ArgReader.argv r)
  /\ valuesGiven (tl (ArgReader.argv r)) = true
  /\ (ArgReader.hasValue r = false ->
      S (ArgReader.position r) <> ArgReader.argc r).

(** An outcome that is not undefined, with such a reader. *)
Definition returnsSupplied (o : Outcome) : Prop :=
  match o with
  | Done _ _ r' => suppliedReader r'
  | Undefined => False
  | OutOfFuel => True
  end.

(** The text that a scalar flag called with the reader [r] parses: the
    value that the reader holds, or else the next argument, when there is
    one. *)
Definition valueOffered (r : ArgReader) : option string :=
  if ArgReader.hasValue r then Some (ArgReader.getValue r)
  else if ArgReader.hasMoreArguments r
       then nth_error (ArgReader.argv r) (S (ArgReader.position r))
       else None.

(* ================================================================== *)
(** * Properties *)

(** Reduces the projections of a reader that is given by its fields. *)
Ltac reader_fields :=
  cbn [ArgReader.argc ArgReader.argv ArgReader.charKey ArgReader.key
       ArgReader.value ArgReader.flagAbsent ArgReader.flagIsCharacter
       ArgReader.valueSpecified ArgReader.clearedOut ArgReader.position
       ArgReader.charFlags] in *.

(* ------------------------------------------------------------------ *)
(** ** Fuel *)

(** More fuel does not change an outcome that did not run out of it. *)
Lemma groupLoop_fuel (inv inv' : Flag -> ArgReader -> Outcome) :
  (forall f r, inv f r <> OutOfFuel -> inv' f r = inv f r) ->
  forall k k' args ms r,
    k <= k' ->
    groupLoop inv k args ms r <> OutOfFuel ->
    groupLoop inv' k' args ms r = groupLoop inv k args ms r.
Proof.
  intros Hinv k. induction k as [|k IH]; intros k' args ms r Hle Hdef.
  - simpl in Hdef. congruence.
  - destruct k' as [|k']; [lia|]. simpl in *.
    destruct (ArgReader.atEnd r); [reflexivity|].
    destruct (ArgReader.hasLongFlag r).
    + destruct (membersByLongName ms (ArgReader.getLongFlag r)) as [i|];
        [|reflexivity].
      destruct (nth_error ms i) as [m|]; [|reflexivity].
      destruct (atCapacity m); [reflexivity|].
      destruct (inv m r) as [ok m' r'| |] eqn:E; try congruence.
      * rewrite (Hinv m r) by congruence. rewrite E.
        destruct ok; [|reflexivity].
        destruct (ArgReader.tell r' =? ArgReader.tell r)%nat; [reflexivity|].
        apply IH; [lia|assumption].
      * rewrite (Hinv m r) by congruence. rewrite E. reflexivity.
    + destruct (membersByShortName ms (ArgReader.getShortFlag r)) as [i|];
        [|reflexivity].
      destruct (nth_error ms i) as [m|]; [|reflexivity].
      destruct (atCapacity m); [reflexivity|].
      destruct (inv m r) as [ok m' r'| |] eqn:E; try congruence.
      * rewrite (Hinv m r) by congruence. rewrite E.
        destruct ok; [|reflexivity].
        apply IH; [lia|assumption].
      * rewrite (Hinv m r) by congruence. rewrite E. reflexivity.
Qed.

Lemma parseArgsR_fuel :
  forall n m f r,
    n <= m ->
    parseArgsR n f r <> OutOfFuel ->
    parseArgsR m f r = parseArgsR n f r.
Proof.
  induction n as [|n IH]; intros m f r Hle Hdef.
  - simpl in Hdef. congruence.
  - destruct m as [|m]; [lia|].
    assert (Hnm : n <= m) by lia.
    destruct f as [a P p v|a p|v|a g re T e vs|a ms]; simpl in *.
    + reflexivity.
    + reflexivity.
    + destruct (parseArgsR n v r) as [ok v' r'| |] eqn:E; try congruence;
        rewrite (IH m v r Hnm) by congruence; rewrite E; reflexivity.
    + destruct (parseArgsR n (newFlag a T) r) as [ok fl r'| |] eqn:E;
        try congruence;
        rewrite (IH m (newFlag a T) r Hnm) by congruence; rewrite E;
        [|reflexivity].
      destruct ok; [|reflexivity].
      destruct (ArgReader.tell r =? ArgReader.tell r')%nat; [reflexivity|].
      destruct (reinvokes g re r' fl); [|reflexivity].
      apply IH; assumption.
    + unfold FlagGroup_parseArgsR in *.
      destruct (notOneFlag r); [reflexivity|].
      destruct (namesGroup a r).
      * destruct (ArgReader.parseNextArg r) as [r1|]; [|reflexivity].
        apply groupLoop_fuel; auto.
      * apply groupLoop_fuel; auto.
Qed.

Lemma parseArgs_fuel :
  forall n m f argc argv,
    n <= m ->
    parseArgs n f argc argv <> NoFuel ->
    parseArgs m f argc argv = parseArgs n f argc argv.
Proof.
  intros n m f argc argv Hle Hdef. unfold parseArgs in *.
  destruct (argc <? 2)%Z; [reflexivity|].
  destruct (ArgReader.parseNextArg (ArgReader.make argc argv)) as [r|];
    [|reflexivity].
  destruct (parseArgsR n f r) as [ok f' r'| |] eqn:E.
  - rewrite (parseArgsR_fuel n m f r Hle) by congruence. rewrite E.
    reflexivity.
  - rewrite (parseArgsR_fuel n m f r Hle) by congruence. rewrite E.
    reflexivity.
  - destruct Hdef. reflexivity.
Qed.

(** Two runs that both return agree, whatever their fuel. *)
Lemma parseArgs_returns_once :
  forall n m f argc argv ok1 f1 ok2 f2,
    parseArgs n f argc argv = Returned ok1 f1 ->
    parseArgs m f argc argv = Returned ok2 f2 ->
    ok1 = ok2 /\ f1 = f2.
Proof.
  intros n m f argc argv ok1 f1 ok2 f2 H1 H2.
  destruct (Nat.le_ge_cases n m) as [Hle|Hle].
  - rewrite (parseArgs_fuel n m f argc argv Hle) in H2 by congruence.
    rewrite H1 in H2. inversion H2. auto.
  - rewrite (parseArgs_fuel m n f argc argv Hle) in H1 by congruence.
    rewrite H2 in H1. inversion H1. auto.
Qed.

(** The equations of [parseArgsR], one for each class. *)
Lemma parseArgsR_primitive :
  forall n a P p v r,
    parseArgsR (S n) (PrimitiveFlag a P p v) r
    = SingletonFlag_parseArgsR (PrimitiveFlag a P p v) a P r.
Proof. reflexivity. Qed.

Lemma parseArgsR_switch :
  forall n a p r,
    parseArgsR (S n) (Switch a p) r = Switch_parseArgsR a p r.
Proof. reflexivity. Qed.

Lemma parseArgsR_flag :
  forall n v r,
    parseArgsR (S n) (FlagOfFlag v) r
    = match parseArgsR n v r with
      | Done ok v' r' => Done ok (FlagOfFlag v') r'
      | Undefined => Undefined
      | OutOfFuel => OutOfFuel
      end.
Proof. reflexivity. Qed.

Lemma parseArgsR_vector :
  forall n a g re T e vs r,
    parseArgsR (S n) (VectorFlag a g re T e vs) r
    = match parseArgsR n (newFlag a T) r with
      | Done false _ r' => Done false (VectorFlag a g re T true vs) r'
      | Done true flag r' =>
          if (ArgReader.tell r =? ArgReader.tell r')%nat
          then Done true (VectorFlag a g re T true vs) r'
          else if reinvokes g re r' flag
               then parseArgsR n (VectorFlag a g re T true (vs ++ [flag])) r'
               else Done true (VectorFlag a g re T true (vs ++ [flag])) r'
      | Undefined => Undefined
      | OutOfFuel => OutOfFuel
      end.
Proof. reflexivity. Qed.

Lemma parseArgsR_group :
  forall n a ms r,
    parseArgsR (S n) (FlagGroup a ms) r
    = FlagGroup_parseArgsR (parseArgsR n) n a ms r.
Proof. reflexivity. Qed.

(** [hasFlagOf T args] is [hasFlag] of the parser that [newFlag] stacks. *)
Lemma hasFlagOf_newFlag :
  forall T args name,
    hasFlagOf T args name = hasFlag (newFlag args T) name
    /\ forall c, hasFlagOfChar T args c = hasFlagChar (newFlag args T) c.
Proof.
  unfold newFlag.
  induction T using Flag_tree_ind; intros args name; simpl; auto.
Qed.

(** An index of a group holds positions of its members, each under the
    name it was registered with. *)
Lemma membersByLongName_found :
  forall ms name i,
    membersByLongName ms name = Some i ->
    exists m, nth_error ms i = Some m
              /\ hasLongName m = true
              /\ String.eqb (getLongName m) name = true.
Proof.
  induction ms as [|x ms IH]; intros name i H; simpl in H; [discriminate|].
  destruct (membersByLongName ms name) as [j|] eqn:E.
  - inversion H; subst. simpl. eauto.
  - destruct (hasLongName x && String.eqb (getLongName x) name) eqn:Hx;
      [|discriminate].
    inversion H; subst. exists x. apply andb_true_iff in Hx.
    simpl. tauto.
Qed.

Lemma membersByShortName_found :
  forall ms c i,
    membersByShortName ms c = Some i ->
    exists m, nth_error ms i = Some m
              /\ hasShortName m = true
              /\ Ascii.eqb (getShortName m) c = true.
Proof.
  induction ms as [|x ms IH]; intros c i H; simpl in H; [discriminate|].
  destruct (membersByShortName ms c) as [j|] eqn:E.
  - inversion H; subst. simpl. eauto.
  - destruct (hasShortName x && Ascii.eqb (getShortName x) c) eqn:Hx;
      [|discriminate].
    inversion H; subst. exists x. apply andb_true_iff in Hx.
    simpl. tauto.
Qed.

(** A run that returns with some fuel returns the same with more. *)
Lemma parseArgv_more_fuel :
  forall n k f argv ok f',
    parseArgv n f argv = Returned ok f' ->
    parseArgv (n + k) f argv = Returned ok f'.
Proof.
  intros n k f argv ok f' H. unfold parseArgv in *.
  rewrite (parseArgs_fuel n (n + k)); [assumption|lia|congruence].
Qed.

Ltac run_parse :=
  apply parseArgv_more_fuel; vm_compute; reflexivity.

(* ------------------------------------------------------------------ *)
(** ** The scenarios of the tests *)

(** C5. Scenario A: the arguments
    [prog --alive=true --param 20 --ind=10 --ind 11], parsed by a group with
    a bool flag [alive], an integer flag [param] and an unconstrained vector
    flag [ind], are accepted; afterwards [alive.value] is true,
    [param.value] is 20 and [ind.value] is [10, 11], in this order.  Five
    units of fuel are enough, and more change nothing. *)
Theorem scenario_A_basic_flags :
  forall k, exists g,
    parseArgv (5 + k) BasicFlagGroup
      ["prog"; "--alive=true"; "--param"; "20"; "--ind=10"; "--ind"; "11"]
    = Returned true g
    /\ valueAt g 0 = Some (VBool true)
    /\ valueAt g 1 = Some (VInt 20)
    /\ scalarsAt g 2 = [VInt 10; VInt 11].
Proof.
  intro k. eexists. split; [run_parse|].
  vm_compute. auto.
Qed.

(** C4, as stated, fails: no run on these arguments leaves five [weights]
    sequences. *)
Lemma scenario_C_not_five :
  ~ (exists fuel g,
        parseArgv fuel Test2.MyFlagGroup scenario_C_argv = Returned true g
        /\ List.length (Test2.weightsOf g) = 5
        /\ valueAt g 0 = Some (VInt 1336)).
Proof.
  intros (fuel & g & Hrun & Hlen & _).
  assert (H12 : exists g0,
             parseArgv 12 Test2.MyFlagGroup scenario_C_argv = Returned true g0
             /\ List.length (Test2.weightsOf g0) = 3).
  { eexists. split; [vm_compute; reflexivity|vm_compute; reflexivity]. }
  destruct H12 as (g0 & Hrun0 & Hlen0).
  destruct (parseArgs_returns_once _ _ _ _ _ _ _ _ _ Hrun Hrun0) as [_ ->].
  congruence.
Qed.

(** C4, amended. The arguments
    [--lists --weights 1 2 3 --weights 4 5 6 --param 1336 --lists
     --weights 10 11 12] are accepted and leave three elements in [lists],
    one for each [--weights]: the sequences [1,2,3], [4,5,6] and
    [10,11,12], with [param] equal to 1336.  The second [--weights] opens a
    new element of [lists]; it does not extend the first sequence. *)
Theorem scenario_C_three_lists :
  forall k, exists g,
    parseArgv (12 + k) Test2.MyFlagGroup scenario_C_argv = Returned true g
    /\ Test2.weightsOf g
       = [ [VInt 1; VInt 2; VInt 3];
           [VInt 4; VInt 5; VInt 6];
           [VInt 10; VInt 11; VInt 12] ]
    /\ valueAt g 0 = Some (VInt 1336).
Proof.
  intro k. eexists. split; [run_parse|].
  vm_compute. auto.
Qed.

(** The arguments of [TEST(FlagsTest, SequentialFlagsCannotBeReentered)],
    with their five occurrences of [--weights], do leave five elements. *)
Lemma test_SequentialFlagsCannotBeReentered :
  forall k, exists g,
    parseArgv (14 + k) Test2.MyFlagGroup
      ["flagstext.exe"; "--lists";
       "--weights"; "1"; "2"; "3";
       "--weights"; "4"; "5"; "6";
       "--weights"; "7"; "8"; "9";
       "--param"; "1336";
       "--lists";
       "--weights"; "10"; "11"; "12";
       "--weights"; "13"; "14"; "15"]
    = Returned true g
    /\ Test2.weightsOf g
       = [ [VInt 1; VInt 2; VInt 3];
           [VInt 4; VInt 5; VInt 6];
           [VInt 7; VInt 8; VInt 9];
           [VInt 10; VInt 11; VInt 12];
           [VInt 13; VInt 14; VInt 15] ]
    /\ valueAt g 0 = Some (VInt 1336).
Proof.
  intro k. eexists. split; [run_parse|].
  vm_compute. auto.
Qed.

(* ------------------------------------------------------------------ *)
(** ** Short-flag clusters *)

(** C3. The example's [-bp 10]: the cluster is dispatched to the
    [bookmark] vector first, whose scalar parser finds no attached value,
    sees that arguments remain and takes the next raw argument.  The value
    10 is delivered to [b] although [b] is not the last character of its
    cluster, and [p] is set afterwards. *)
Theorem cluster_bp_delivers_value_to_b :
  forall k, exists g file,
    parseArgv (7 + k) Example.AllFlags
      ["FlagsExample"; "--display"; "-bp"; "10"]
    = Returned true g
    /\ onlyFile g = Some file
    /\ scalarsAt file 2 = [VInt 10]
    /\ presentAt file 3 = true.
Proof.
  intro k. eexists. eexists. split; [run_parse|].
  vm_compute. auto.
Qed.

(** The cause, for every scalar flag: with no value attached and arguments
    left, the flag takes the next raw argument whether or not short flags
    of its cluster are still pending; the first of them becomes the current
    token afterwards. *)
Lemma singleton_takes_value_inside_cluster :
  forall self a P r raw r1 val c q,
    ArgReader.hasValue r = false ->
    ArgReader.hasMoreArguments r = true ->
    ArgReader.charFlags r = c :: q ->
    ArgReader.nextRawArgument r = Some (raw, r1) ->
    parseType P raw = Some val ->
    exists r',
      SingletonFlag_parseArgsR self a P r
      = Done true (PrimitiveFlag a P true val) r'
      /\ ArgReader.hasShortFlag r' = true
      /\ ArgReader.getShortFlag r' = c
      /\ ArgReader.charFlags r' = q
      /\ ArgReader.tell r' = S (ArgReader.tell r).
Proof.
  intros self a P r raw r1 val c q Hv Hm Hq Hraw Hval.
  unfold SingletonFlag_parseArgsR, parse. rewrite Hv, Hm, Hraw, Hval.
  unfold ArgReader.nextRawArgument in Hraw.
  destruct (nth_error (ArgReader.argv r) (S (ArgReader.position r)));
    [|discriminate].
  inversion Hraw; subst. unfold ArgReader.parseNextArg. reader_fields.
  rewrite Hq. eexists. split; [reflexivity|].
  repeat split.
Qed.

(** The stacked [-pb] and the separate [-p -b] leave the same flags. *)
Lemma cluster_pb_same_as_separate :
  forall k,
    parseArgv (7 + k) Example.AllFlags
      ["FlagsExample"; "--display"; "-pb"; "10"]
    = parseArgv (7 + k) Example.AllFlags
        ["FlagsExample"; "--display"; "-p"; "-b"; "10"].
Proof.
  intro k.
  assert (H : exists res,
             parseArgv 7 Example.AllFlags
               ["FlagsExample"; "--display"; "-pb"; "10"] = Returned true res
             /\ parseArgv 7 Example.AllFlags
                  ["FlagsExample"; "--display"; "-p"; "-b"; "10"]
                = Returned true res).
  { eexists. split; vm_compute; reflexivity. }
  destruct H as (res & H1 & H2).
  rewrite (parseArgv_more_fuel _ k _ _ _ _ H1).
  rewrite (parseArgv_more_fuel _ k _ _ _ _ H2). reflexivity.
Qed.

(* ------------------------------------------------------------------ *)
(** ** Ownership of names *)

(** [FlagGroup::hasFlag] asks the members and nothing else. *)
Lemma FlagGroup_hasFlag_members :
  forall a ms name,
    hasFlag (FlagGroup a ms) name = existsb (fun m => hasFlag m name) ms
    /\ forall c,
      hasFlagChar (FlagGroup a ms) c = existsb (fun m => hasFlagChar m c) ms.
Proof. intros. split; reflexivity. Qed.

(** C7. A group named [entity], with a member [id]: [hasFlag] answers
    true for the member's name and false for the group's own long name, and
    likewise for a group with a short name; [Flag<G>] delegates to the group
    and answers the same. *)
Theorem group_hasFlag_misses_own_name :
  hasFlag EntityGroup "id" = true
  /\ getLongName EntityGroup = "entity"
  /\ hasFlag EntityGroup "entity" = false
  /\ hasFlag (FlagOfFlag EntityGroup) "entity" = false
  /\ hasFlagChar (FlagGroup (flagc "e") [Flag_int64_t (flag "id")]) "e" = false.
Proof. vm_compute. auto. Qed.

(** A consequence: the element group of [outer] dispatches [--inner] to
    its member group, yet [hasFlag] denies the name, so a second [--inner]
    does not open a new element of [outer] (as a second [--weights] does in
    [Test2]) and the parse fails on it. *)
Lemma nested_group_name_not_reentered :
  forall k, exists g,
    parseArgv (9 + k) OuterRoot
      ["prog"; "--outer"; "--inner"; "--id"; "1"; "--inner"; "--id"; "2"]
    = Returned false g
    /\ match member g 0 with
       | Some outer => List.length (elements outer) = 1
       | None => False
       end.
Proof.
  intro k. eexists. split; [run_parse|].
  vm_compute. auto.
Qed.

(** Every other class does compare its own name. *)
Lemma leaf_and_vector_hasFlag_own_name :
  forall a,
    (forall P p v, hasFlag (PrimitiveFlag a P p v) (_longName a) = true)
    /\ (forall p, hasFlag (Switch a p) (_longName a) = true)
    /\ (forall g re T e vs,
           hasFlag (VectorFlag a g re T e vs) (_longName a) = true).
Proof.
  intro a. repeat split; intros; simpl; rewrite String.eqb_refl; reflexivity.
Qed.

(* ------------------------------------------------------------------ *)
(** ** No arguments *)

(** C10. With [argc] below 2 (zero and negative counts included)
    [parseArgs] returns true at once, whatever [argv] holds and whatever
    the fuel, and the flag tree is left as it was: a tree in which nothing
    was present or entered stays so. *)
Theorem parseArgs_without_arguments
        (fuel : nat) (self : Flag) (argc : Z) (argv : list string)
        (Hargc : (argc < 2)%Z) :
  parseArgs fuel self argc argv = Returned true self
  /\ (forall fuel' argv',
         parseArgs fuel' self argc argv' = parseArgs fuel self argc argv)
  /\ (untouched self = true ->
      exists f, parseArgs fuel self argc argv = Returned true f
                /\ untouched f = true).
Proof.
  assert (H : forall n av, parseArgs n self argc av = Returned true self).
  { intros n av. unfold parseArgs.
    destruct (argc <? 2)%Z eqn:E; [reflexivity|].
    apply Z.ltb_ge in E. lia. }
  repeat split.
  - apply H.
  - intros. rewrite !H. reflexivity.
  - intro Hu. exists self. split; [apply H|assumption].
Qed.

Lemma parseArgs_without_arguments_witness :
  parseArgs 0 BasicFlagGroup (-3) []
  = Returned true BasicFlagGroup
  /\ parseArgs 0 BasicFlagGroup 1 ["prog"]
     = Returned true BasicFlagGroup.
Proof.
  split.
  - apply (parseArgs_without_arguments 0 BasicFlagGroup (-3) []). lia.
  - apply (parseArgs_without_arguments 0 BasicFlagGroup 1 ["prog"]). lia.
Defined.

(* ------------------------------------------------------------------ *)
(** ** Switches *)

Lemma setMember_same :
  forall ms i m, nth_error ms i = Some m -> setMember ms i m = ms.
Proof.
  induction ms as [|x ms IH]; intros [|i] m H; simpl in *;
    try discriminate; try reflexivity.
  - inversion H. reflexivity.
  - rewrite IH by assumption. reflexivity.
Qed.

(** A token that carries a value is not the end of the arguments: the
    call that read it left [clearedOut] alone. *)
Lemma parseNextArg_keeps_end :
  forall r0 r,
    ArgReader.parseNextArg r0 = Some r ->
    ArgReader.hasValue r = true ->
    ArgReader.atEnd r = ArgReader.atEnd r0.
Proof.
  intros r0 r H Hv. unfold ArgReader.parseNextArg in H.
  unfold ArgReader.hasValue in Hv. unfold ArgReader.atEnd.
  destruct (ArgReader.charFlags r0).
  - destruct (ArgReader.argc r0 <=? ArgReader.position r0)%nat;
      [inversion H; subst; discriminate|].
    destruct (ArgReader.argc r0 <=? S (ArgReader.position r0))%nat;
      [inversion H; subst; discriminate|].
    destruct (nth_error (ArgReader.argv r0) (S (ArgReader.position r0)))
      as [curArg|]; [|discriminate].
    unfold ArgReader.readArgument in H.
    destruct curArg as [|c0 rest0]; [inversion H; reflexivity|].
    destruct (negb (Ascii.eqb c0 dash)); [inversion H; reflexivity|].
    destruct rest0 as [|c1 rest1]; [discriminate|].
    destruct (Ascii.eqb c1 dash).
    + destruct (ArgReader.splitAtEquals rest1) as [[k v]|];
        inversion H; reflexivity.
    + inversion H; reflexivity.
  - inversion H; subst; discriminate.
Qed.



(** A false result goes up unchanged through every caller: [Flag<T>], the
    vector, the loop of a group and [parseArgs] return false as soon as the
    call they made returns false. *)
Lemma failure_propagates :
  (forall n v r v' r',
      parseArgsR n v r = Done false v' r' ->
      parseArgsR (S n) (FlagOfFlag v) r = Done false (FlagOfFlag v') r')
  /\ (forall n a g re T e vs r fl r',
         parseArgsR n (newFlag a T) r = Done false fl r' ->
         parseArgsR (S n) (VectorFlag a g re T e vs) r
         = Done false (VectorFlag a g re T true vs) r')
  /\ (forall inv k a ms r i m m' r',
         ArgReader.atEnd r = false ->
         dispatched ms r = Some i ->
         nth_error ms i = Some m ->
         atCapacity m = false ->
         inv m r = Done false m' r' ->
         groupLoop inv (S k) a ms r
         = Done false (FlagGroup a (setMember ms i m')) r')
  /\ (forall n f argc argv r f' r',
         (2 <= argc)%Z ->
         ArgReader.parseNextArg (ArgReader.make argc argv) = Some r ->
         parseArgsR n f r = Done false f' r' ->
         parseArgs n f argc argv = Returned false f').
Proof.
  repeat split.
  - intros n v r v' r' H. rewrite parseArgsR_flag, H. reflexivity.
  - intros n a g re T e vs r fl r' H. rewrite parseArgsR_vector, H.
    reflexivity.
  - intros inv k a ms r i m m' r' Hend Hd Hnth Hcap H.
    unfold dispatched in Hd. cbn [groupLoop]. rewrite Hend.
    destruct (ArgReader.hasLongFlag r); rewrite Hd, Hnth, Hcap, H;
      reflexivity.
  - intros n f argc argv r f' r' Hargc Hfirst H. unfold parseArgs.
    destruct (argc <? 2)%Z eqn:E; [apply Z.ltb_lt in E; lia|].
    rewrite Hfirst, H. reflexivity.
Qed.

(* ------------------------------------------------------------------ *)
(** ** What a parse keeps: declarations and marks *)

Lemma later_refl : forall f, later f f.
Proof.
  induction f using Flag_tree_ind; constructor; auto.
  induction H; constructor; auto.
Qed.

Lemma Forall2_later_refl : forall ms, Forall2 later ms ms.
Proof. induction ms; constructor; auto using later_refl. Qed.

Lemma Forall2_trans_pointwise {A} (R : A -> A -> Prop) :
  forall l,
    Forall (fun x => forall y z, R x y -> R y z -> R x z) l ->
    forall l' l'', Forall2 R l l' -> Forall2 R l' l'' -> Forall2 R l l''.
Proof.
  induction 1 as [|x l Hx Hl IH]; intros l' l'' H1 H2.
  - inversion H1; subst. inversion H2; subst. constructor.
  - inversion H1; subst. inversion H2; subst. constructor; eauto.
Qed.

Lemma later_trans : forall f g h, later f g -> later g h -> later f h.
Proof.
  induction f using Flag_tree_ind; intros g0 h H1 H2.
  - inversion H1; subst. inversion H2; subst. constructor. auto.
  - inversion H1; subst. inversion H2; subst. constructor. auto.
  - inversion H1; subst. inversion H2; subst. constructor. eauto.
  - inversion H1; subst. inversion H2; subst. constructor. auto.
  - inversion H1; subst. inversion H2; subst. constructor.
    eapply Forall2_trans_pointwise; eauto.
Qed.

Lemma Forall2_later_trans :
  forall l l' l'',
    Forall2 later l l' -> Forall2 later l' l'' -> Forall2 later l l''.
Proof.
  intros l l' l'' H1 H2.
  eapply Forall2_trans_pointwise; eauto.
  apply Forall_forall. intros x _ y z. apply later_trans.
Qed.

Lemma Forall2_later_setMember :
  forall ms i m m',
    nth_error ms i = Some m -> later m m' ->
    Forall2 later ms (setMember ms i m').
Proof.
  induction ms as [|x ms IH]; intros [|i] m m' Hnth Hl; simpl in *;
    try discriminate.
  - inversion Hnth; subst. constructor; auto using Forall2_later_refl.
  - constructor; eauto using later_refl.
Qed.

Lemma later_ctorArgs : forall f f', later f f' -> ctorArgs f' = ctorArgs f.
Proof.
  induction f using Flag_tree_ind; intros f' Hl;
    inversion Hl; subst; simpl; auto.
Qed.

(** The answers of [hasFlag] depend on the declaration only. *)
Lemma later_hasFlag :
  forall f f', later f f' -> forall name, hasFlag f' name = hasFlag f name.
Proof.
  induction f using Flag_tree_ind; intros f' Hl name;
    inversion Hl; subst; simpl; auto.
  match goal with HF : Forall2 later _ _ |- _ => rename HF into H2 end.
  clear Hl. revert ms' H2.
  induction H as [|x ms Hx Hms IH]; intros ms' H2; inversion H2; subst;
    simpl; [reflexivity|].
  match goal with HF : later x _ |- _ => rewrite (Hx _ HF) end.
  f_equal. auto.
Qed.

Lemma later_hasFlagChar :
  forall f f', later f f' -> forall c, hasFlagChar f' c = hasFlagChar f c.
Proof.
  induction f using Flag_tree_ind; intros f' Hl name;
    inversion Hl; subst; simpl; auto.
  match goal with HF : Forall2 later _ _ |- _ => rename HF into H2 end.
  clear Hl. revert ms' H2.
  induction H as [|x ms Hx Hms IH]; intros ms' H2; inversion H2; subst;
    simpl; [reflexivity|].
  match goal with HF : later x _ |- _ => rewrite (Hx _ HF) end.
  f_equal. auto.
Qed.

(** So do the indices of a group. *)
Lemma later_membersByLongName :
  forall ms ms', Forall2 later ms ms' ->
    forall name, membersByLongName ms' name = membersByLongName ms name.
Proof.
  induction 1 as [|m m' ms ms' Hm Hms IH]; intro name; simpl;
    [reflexivity|].
  rewrite IH. unfold hasLongName, getLongName.
  rewrite (later_ctorArgs _ _ Hm). reflexivity.
Qed.

Lemma later_membersByShortName :
  forall ms ms', Forall2 later ms ms' ->
    forall c, membersByShortName ms' c = membersByShortName ms c.
Proof.
  induction 1 as [|m m' ms ms' Hm Hms IH]; intro c; simpl;
    [reflexivity|].
  rewrite IH. unfold hasShortName, getShortName.
  rewrite (later_ctorArgs _ _ Hm). reflexivity.
Qed.

(** A mark of capacity is never taken back. *)
Lemma later_atCapacity :
  forall f f', later f f' -> atCapacity f = true -> atCapacity f' = true.
Proof.
  induction f using Flag_tree_ind; intros f' Hl Hc;
    inversion Hl; subst; simpl in *; auto.
  - apply andb_true_iff in Hc. destruct Hc as [He Hre].
    rewrite Hre.
    match goal with HE : e = true -> _ |- _ => rewrite (HE He) end.
    reflexivity.
  - match goal with HF : Forall2 later _ _ |- _ => rename HF into H2 end.
    clear Hl. revert ms' H2 Hc.
    induction H as [|x ms Hx Hms IH]; intros ms' H2 Hc; inversion H2; subst;
      simpl in *; [reflexivity|].
    apply andb_true_iff in Hc. destruct Hc as [Hc1 Hc2].
    match goal with HF : later x _ |- _ => rewrite (Hx _ HF Hc1) end.
    simpl. auto.
Qed.

Lemma later_members :
  forall f f', later f f' -> Forall2 later (membersOf f) (membersOf f').
Proof.
  induction f using Flag_tree_ind; intros f' Hl;
    inversion Hl; subst; simpl; auto.
Qed.

Lemma later_descend :
  forall path f f' v,
    later f f' -> descend f path = Some v ->
    exists v', descend f' path = Some v' /\ later v v'.
Proof.
  induction path as [|i path IH]; intros f f' v Hl Hd; simpl in *.
  - inversion Hd; subst. eauto.
  - destruct (nth_error (membersOf f) i) as [m|] eqn:E; [|discriminate].
    pose proof (later_members _ _ Hl) as Hms.
    revert E. generalize dependent i.
    induction Hms as [|x y l l' Hxy Hl' IHl]; intros [|i] E;
      simpl in *; try discriminate.
    + inversion E; subst. eauto.
    + eauto.
Qed.

(** The loop of a group keeps the declaration when each call on a member
    does. *)
Lemma groupLoop_later (inv : Flag -> ArgReader -> Outcome) :
  (forall m r ok m' r', inv m r = Done ok m' r' -> later m m') ->
  forall k a ms r ok f' r',
    groupLoop inv k a ms r = Done ok f' r' -> later (FlagGroup a ms) f'.
Proof.
  intros Hinv k. induction k as [|k IH]; intros a ms r ok f' r' H;
    simpl in H; [discriminate|].
  assert (Hstay : forall o r0,
             Done true (FlagGroup a ms) r0 = Done o f' r' ->
             later (FlagGroup a ms) f').
  { intros o r0 E. inversion E; subst. apply later_refl. }
  assert (Hstep : forall i m m',
             nth_error ms i = Some m -> later m m' ->
             forall f'', later (FlagGroup a (setMember ms i m')) f'' ->
                         later (FlagGroup a ms) f'').
  { intros i m m' Hnth Hm f'' Hl. eapply later_trans; [|exact Hl].
    constructor. eapply Forall2_later_setMember; eauto. }
  destruct (ArgReader.atEnd r); [eauto|].
  destruct (ArgReader.hasLongFlag r).
  - destruct (membersByLongName ms (ArgReader.getLongFlag r)) as [i|];
      [|eauto].
    destruct (nth_error ms i) as [m|] eqn:Hnth; [|eauto].
    destruct (atCapacity m); [eauto|].
    destruct (inv m r) as [o m' r1| |] eqn:E; try discriminate.
    pose proof (Hinv _ _ _ _ _ E) as Hm.
    destruct o.
    + destruct (ArgReader.tell r1 =? ArgReader.tell r)%nat.
      * inversion H; subst. eapply Hstep; eauto using later_refl.
      * eapply Hstep; eauto.
    + inversion H; subst. eapply Hstep; eauto using later_refl.
  - destruct (membersByShortName ms (ArgReader.getShortFlag r)) as [i|];
      [|eauto].
    destruct (nth_error ms i) as [m|] eqn:Hnth; [|eauto].
    destruct (atCapacity m); [eauto|].
    destruct (inv m r) as [o m' r1| |] eqn:E; try discriminate.
    pose proof (Hinv _ _ _ _ _ E) as Hm.
    destruct o.
    + eapply Hstep; eauto.
    + inversion H; subst. eapply Hstep; eauto using later_refl.
Qed.

(** Every call of [parseArgsR] leaves a later state of the same flag. *)
Lemma parseArgsR_later :
  forall n f r ok f' r', parseArgsR n f r = Done ok f' r' -> later f f'.
Proof.
  induction n as [|n IH]; intros f r ok f' r' H; [discriminate|].
  destruct f as [a P p v|a p|v|a g re T e vs|a ms].
  - rewrite parseArgsR_primitive in H.
    unfold SingletonFlag_parseArgsR, parse in H.
    destruct (ArgReader.hasValue r).
    + destruct (parseType P (ArgReader.getValue r));
        [destruct (ArgReader.parseNextArg r); [|discriminate]|];
        inversion H; subst; constructor; auto.
    + destruct (ArgReader.hasMoreArguments r);
        [|inversion H; subst; constructor; auto].
      destruct (ArgReader.nextRawArgument r) as [[raw r1]|]; [|discriminate].
      destruct (parseType P raw);
        [destruct (ArgReader.parseNextArg r1); [|discriminate]|];
        inversion H; subst; constructor; auto.
  - rewrite parseArgsR_switch in H. unfold Switch_parseArgsR in H.
    destruct (ArgReader.hasValue r);
      [|destruct (ArgReader.parseNextArg r); [|discriminate]];
      inversion H; subst; constructor; auto.
  - rewrite parseArgsR_flag in H.
    destruct (parseArgsR n v r) as [o v' r1| |] eqn:E; try discriminate.
    inversion H; subst. constructor. eauto.
  - rewrite parseArgsR_vector in H.
    destruct (parseArgsR n (newFlag a T) r) as [o fl r1| |] eqn:E;
      try discriminate.
    destruct o.
    + destruct (ArgReader.tell r =? ArgReader.tell r1)%nat.
      * inversion H; subst. constructor. auto.
      * destruct (reinvokes g re r1 fl).
        -- apply IH in H. inversion H; subst. constructor. auto.
        -- inversion H; subst. constructor. auto.
    + inversion H; subst. constructor. auto.
  - rewrite parseArgsR_group in H. unfold FlagGroup_parseArgsR in H.
    destruct (notOneFlag r).
    + inversion H; subst. apply later_refl.
    + destruct (namesGroup a r).
      * destruct (ArgReader.parseNextArg r); [|discriminate].
        eapply groupLoop_later; eauto.
      * eapply groupLoop_later; eauto.
Qed.

(* ------------------------------------------------------------------ *)
(** ** Capacity of vectors *)

(** A call of [parseArgsR] on a vector leaves it entered, its template
    arguments untouched. *)
Lemma vector_entered :
  forall n a g re T e vs r ok f' r',
    parseArgsR n (VectorFlag a g re T e vs) r = Done ok f' r' ->
    exists vs', f' = VectorFlag a g re T true vs'.
Proof.
  induction n as [|n IH]; intros a g re T e vs r ok f' r' H;
    [discriminate|].
  rewrite parseArgsR_vector in H.
  destruct (parseArgsR n (newFlag a T) r) as [o fl r1| |]; try discriminate.
  destruct o.
  - destruct (ArgReader.tell r =? ArgReader.tell r1)%nat.
    + inversion H; subst. eauto.
    + destruct (reinvokes g re r1 fl).
      * eapply IH; eauto.
      * inversion H; subst. eauto.
  - inversion H; subst. eauto.
Qed.

(** A vector is declared with room for an occurrence, whatever its mode. *)
Lemma declared_vector_not_at_capacity :
  forall T a,
    atCapacity (vectorOf T a) = false
    /\ atCapacity (sequentialOf T a) = false
    /\ atCapacity (repeatedOf T a) = false.
Proof. intros. repeat split. Qed.

(** C6. For a vector [v] anywhere in a flag tree, [atCapacity] is
    [entered && !reentrant]; a call of [parseArgsR] on the tree leaves the
    vector in place with the same mode; a call on the vector itself leaves
    it entered; a vector at capacity is still at capacity afterwards (the
    latch of a Sequential vector); and a reentrant vector is not at
    capacity before or after. *)
Theorem vector_atCapacity_latch
        (n : nat) (f : Flag) (r : ArgReader)
        (ok : bool) (f' : Flag) (r' : ArgReader)
        (path : list nat) (v : Flag)
        (Hrun : parseArgsR n f r = Done ok f' r')
        (Hv : descend f path = Some v)
        (Hvec : isVector v = true) :
  atCapacity v = wasEntered v && negb (isReentrant v)
  /\ exists v',
      descend f' path = Some v'
      /\ isVector v' = true
      /\ isReentrant v' = isReentrant v
      /\ isGreedy v' = isGreedy v
      /\ atCapacity v' = wasEntered v' && negb (isReentrant v')
      /\ (path = [] -> wasEntered v' = true)
      /\ (atCapacity v = true -> atCapacity v' = true)
      /\ (isReentrant v = true ->
          atCapacity v = false /\ atCapacity v' = false).
Proof.
  pose proof (parseArgsR_later _ _ _ _ _ _ Hrun) as Hl.
  destruct (later_descend _ _ _ _ Hl Hv) as (v' & Hv' & Hvv').
  destruct v as [| | |a g re T e vs|]; try discriminate.
  split; [reflexivity|].
  exists v'. split; [assumption|].
  pose proof (later_atCapacity _ _ Hvv') as Hcap.
  inversion Hvv'; subst. simpl in *.
  repeat split; auto.
  - intros ->. simpl in *. inversion Hv; subst. inversion Hv'; subst.
    destruct (vector_entered _ _ _ _ _ _ _ _ _ _ _ Hrun) as (vs0 & E).
    inversion E. reflexivity.
  - match goal with Hre : re = true |- _ => rewrite Hre end.
    apply andb_false_r.
  - match goal with Hre : re = true |- _ => rewrite Hre end.
    apply andb_false_r.
Qed.

Lemma vector_atCapacity_latch_witness :
  exists v',
    descend (flagOf (parseArgsR 4 WeightsGroup
                       (firstToken ["prog"; "--weights"; "1"; "2"]))
                    WeightsGroup) [0]
    = Some v'
    /\ atCapacity v' = true
    /\ elements v' <> [].
Proof.
  set (r := firstToken ["prog"; "--weights"; "1"; "2"]).
  set (o := parseArgsR 4 WeightsGroup r).
  assert (Hrun : parseArgsR 4 WeightsGroup r
                 = Done true (flagOf o WeightsGroup) (readerOf o))
    by (vm_compute; reflexivity).
  assert (Hv : descend WeightsGroup [0]
               = Some (sequentialOf (Flag_int anonymous) (flag "weights")))
    by reflexivity.
  destruct (vector_atCapacity_latch
              4 WeightsGroup r true (flagOf o WeightsGroup) (readerOf o)
              [0] _ Hrun Hv eq_refl)
    as (_ & v' & Hv' & _ & _ & _ & Hcap & _).
  exists v'. split; [exact Hv'|].
  vm_compute in Hv'. inversion Hv'; subst v'.
  split; [reflexivity|discriminate].
Defined.

(* ------------------------------------------------------------------ *)
(** ** Re-invocation of a greedy vector *)

(** The element parser of a vector of scalars owns the vector's names and
    no other: the code's condition is the specification's. *)
Lemma reinvokes_scalar :
  forall a P p v g re r1,
    reinvokes g re r1 (PrimitiveFlag a P p v) = spec_reinvokes a g re r1.
Proof.
  intros. unfold reinvokes, spec_reinvokes, canReenter, namesVector.
  unfold ArgReader.hasAnyFlag, ArgReader.hasShortFlag, ArgReader.hasLongFlag.
  simpl.
  destruct g, re, (ArgReader.flagAbsent r1), (ArgReader.flagIsCharacter r1),
    (String.eqb (_longName a) (ArgReader.getLongFlag r1)),
    (Ascii.eqb (_shortName a) (ArgReader.getShortFlag r1));
    reflexivity.
Qed.

(** The element parser of a vector of groups owns the names of the members
    of the group and of their descendants. *)
Lemma reinvokes_group :
  forall a' ms g re r1,
    reinvokes g re r1 (FlagOfFlag (FlagGroup a' ms))
    = g && (negb (ArgReader.hasAnyFlag r1) || (re && namesMember ms r1)).
Proof.
  intros. unfold reinvokes, canReenter, namesMember. simpl.
  destruct re; simpl; [|reflexivity].
  destruct (ArgReader.hasShortFlag r1); reflexivity.
Qed.

Lemma reinvokes_later :
  forall g re r1 fl fl',
    later fl fl' -> reinvokes g re r1 fl' = reinvokes g re r1 fl.
Proof.
  intros g re r1 fl fl' Hl. unfold reinvokes, canReenter.
  rewrite (later_hasFlag _ _ Hl), (later_hasFlagChar _ _ Hl). reflexivity.
Qed.

(** C1, as stated, fails.  In [--lists --weights 1 --weights 2] the first
    element of [lists] ends at the second [--weights].  This token is a
    flag, it does not name [lists], and by the specification's condition the
    vector would stop; the code re-invokes, and [lists] ends with two
    elements. *)
Lemma reinvocation_on_descendant_name :
  let r := firstToken ["prog"; "--lists"; "--weights"; "1"; "--weights"; "2"] in
  let T := Test2.RepeatableGroup anonymous in
  exists fl r1 v r2,
    parseArgsR 5 (newFlag (flag "lists") T) r = Done true fl r1
    /\ ArgReader.tell r <> ArgReader.tell r1
    /\ ArgReader.hasAnyFlag r1 = true
    /\ ArgReader.getLongFlag r1 = "weights"
    /\ namesVector (flag "lists") r1 = false
    /\ spec_reinvokes (flag "lists") true true r1 = false
    /\ reinvokes true true r1 fl = true
    /\ parseArgsR 6 listsVector r = Done true v r2
    /\ List.length (elements v) = 2.
Proof.
  intros r T. do 4 eexists.
  split; [vm_compute; reflexivity|].
  split; [vm_compute; discriminate|].
  repeat (split; [vm_compute; reflexivity|]).
  split; vm_compute; reflexivity.
Qed.

(** C1, amended.  After an append (the element parser returned true and
    moved the cursor) the vector calls itself again exactly when
    [reinvokes] holds, and returns true otherwise.  For a scalar element
    type [reinvokes] is the specification's condition: the node is greedy,
    and the token is not a flag or names the node itself while the node is
    reentrant.  For a group element type a greedy node re-invokes when the
    token is not a flag, and when the node is reentrant and the token names
    a member of the element group or a descendant of one; it stops on every
    flag when it is not reentrant, and on a flag that names neither the
    node nor such a member. *)
Theorem vector_reinvocation
        (n : nat) (a : CtorArgs) (g re : bool) (T : Flag)
        (e : bool) (vs : list Flag)
        (r : ArgReader) (fl : Flag) (r1 : ArgReader)
        (Helem : parseArgsR n (newFlag a T) r = Done true fl r1)
        (Hmoved : ArgReader.tell r <> ArgReader.tell r1) :
  parseArgsR (S n) (VectorFlag a g re T e vs) r
  = (if reinvokes g re r1 fl
     then parseArgsR n (VectorFlag a g re T true (vs ++ [fl])) r1
     else Done true (VectorFlag a g re T true (vs ++ [fl])) r1)
  /\ (isScalar T = true -> reinvokes g re r1 fl = spec_reinvokes a g re r1)
  /\ (forall c ms,
         T = FlagOfFlag (FlagGroup c ms) ->
         (ArgReader.hasAnyFlag r1 = false -> reinvokes g re r1 fl = g)
         /\ (re = true -> namesMember ms r1 = true ->
             reinvokes g re r1 fl = g)
         /\ (ArgReader.hasAnyFlag r1 = true -> re = false ->
             reinvokes g re r1 fl = false)
         /\ (ArgReader.hasAnyFlag r1 = true ->
             namesMember ms r1 = false -> namesVector a r1 = false ->
             reinvokes g re r1 fl = false)).
Proof.
  pose proof (parseArgsR_later _ _ _ _ _ _ Helem) as Hl.
  split; [|split].
  - rewrite parseArgsR_vector, Helem.
    destruct (ArgReader.tell r =? ArgReader.tell r1)%nat eqn:E;
      [apply Nat.eqb_eq in E; contradiction|reflexivity].
  - intro Hs. destruct T; try discriminate.
    rewrite (reinvokes_later _ _ _ _ _ Hl). apply reinvokes_scalar.
  - intros c ms ->.
    rewrite (reinvokes_later _ _ _ _ _ Hl). unfold newFlag. simpl.
    rewrite reinvokes_group.
    repeat split.
    + intros ->. simpl. apply andb_true_r.
    + intros -> ->. simpl. rewrite orb_true_r. apply andb_true_r.
    + intros -> ->. simpl. apply andb_false_r.
    + intros -> -> _. simpl. rewrite andb_false_r. apply andb_false_r.
Qed.

Lemma vector_reinvocation_witness :
  exists v r2,
    parseArgsR 3 (vectorOf (Flag_int anonymous) (flag "ind"))
               (firstToken ["prog"; "--ind=10"; "--ind"; "11"; "--param"])
    = Done true v r2
    /\ scalars v = [VInt 10; VInt 11]
    /\ ArgReader.getLongFlag r2 = "param".
Proof.
  set (r := firstToken ["prog"; "--ind=10"; "--ind"; "11"; "--param"]).
  set (o := parseArgsR 2 (newFlag (flag "ind") (Flag_int anonymous)) r).
  assert (Helem : parseArgsR 2 (newFlag (flag "ind") (Flag_int anonymous)) r
                  = Done true (flagOf o BasicFlagGroup) (readerOf o))
    by (vm_compute; reflexivity).
  assert (Hmoved : ArgReader.tell r <> ArgReader.tell (readerOf o))
    by (vm_compute; discriminate).
  destruct (vector_reinvocation 2 (flag "ind") true true (Flag_int anonymous)
              false [] r _ _ Helem Hmoved) as (Hrun & _ & _).
  do 2 eexists. unfold vectorOf.
  split; [rewrite Hrun; vm_compute; reflexivity|].
  split; vm_compute; reflexivity.
Defined.

(* ------------------------------------------------------------------ *)
(** ** The progress check of the group loop *)

(** C2, as stated, fails for short flags.  On [-pb] the switch [p]
    returns true and leaves [tell()] where it was, the cursor still being in
    the cluster; the group does not stop there: it goes on to [b]. *)
Lemma short_flag_loop_goes_on :
  let r := firstToken ["prog"; "-pb"] in
  let ms := membersOf ClusterGroup in
  exists m' r1 g r2,
    ArgReader.hasShortFlag r = true
    /\ dispatched ms r = Some 0
    /\ parseArgsR 1 (switch (flagc "p")) r = Done true m' r1
    /\ ArgReader.tell r1 = ArgReader.tell r
    /\ groupLoop (parseArgsR 1) 3 anonymous ms r = Done true g r2
    /\ g <> FlagGroup anonymous (setMember ms 0 m')
    /\ presentAt g 1 = true.
Proof.
  intros r ms. do 4 eexists.
  split; [vm_compute; reflexivity|].
  split; [vm_compute; reflexivity|].
  split; [vm_compute; reflexivity|].
  split; [vm_compute; reflexivity|].
  split; [vm_compute; reflexivity|].
  split; [vm_compute; discriminate|vm_compute; reflexivity].
Qed.

(** C2, amended.  When the member found for the current token is not at
    capacity and its [parseArgsR] returns true with [tell()] unchanged, the
    group stops and returns true if the token is a long flag; for any other
    token (a short flag) it makes no such test and goes round the loop
    again, with the reader as the member left it. *)
Theorem group_loop_progress_check
        (invokeParse : Flag -> ArgReader -> Outcome)
        (fuel : nat) (a : CtorArgs) (ms : list Flag) (r : ArgReader)
        (i : nat) (m m' : Flag) (r1 : ArgReader)
        (Hend : ArgReader.atEnd r = false)
        (Hfound : dispatched ms r = Some i)
        (Hnth : nth_error ms i = Some m)
        (Hroom : atCapacity m = false)
        (Hcall : invokeParse m r = Done true m' r1)
        (Hsame : ArgReader.tell r1 = ArgReader.tell r) :
  (ArgReader.hasLongFlag r = true ->
   groupLoop invokeParse (S fuel) a ms r
   = Done true (FlagGroup a (setMember ms i m')) r1)
  /\ (ArgReader.hasLongFlag r = false ->
      groupLoop invokeParse (S fuel) a ms r
      = groupLoop invokeParse fuel a (setMember ms i m') r1).
Proof.
  unfold dispatched in Hfound.
  split; intro Hkind; rewrite Hkind in Hfound; cbn [groupLoop];
    rewrite Hend, Hkind, Hfound, Hnth, Hroom, Hcall.
  - rewrite Hsame, Nat.eqb_refl. reflexivity.
  - reflexivity.
Qed.

Lemma group_loop_progress_check_witness :
  (exists g r2,
      groupLoop (parseArgsR 1) 3 anonymous (membersOf ClusterGroup)
                (firstToken ["prog"; "-pb"])
      = Done true g r2
      /\ presentAt g 0 = true /\ presentAt g 1 = true)
  /\ groupLoop idleParse 1 anonymous (membersOf ToggleGroup)
               (firstToken ["prog"; "--toggle"])
     = Done true ToggleGroup (firstToken ["prog"; "--toggle"]).
Proof.
  split.
  - set (r := firstToken ["prog"; "-pb"]).
    set (o := parseArgsR 1 (switch (flagc "p")) r).
    destruct (group_loop_progress_check
                (parseArgsR 1) 2 anonymous (membersOf ClusterGroup) r
                0 (switch (flagc "p")) (flagOf o ClusterGroup) (readerOf o)
                eq_refl eq_refl eq_refl eq_refl eq_refl eq_refl)
      as [_ Hshort].
    rewrite (Hshort eq_refl).
    do 2 eexists. split; [vm_compute; reflexivity|].
    split; reflexivity.
  - set (r := firstToken ["prog"; "--toggle"]).
    destruct (group_loop_progress_check
                idleParse 0 anonymous (membersOf ToggleGroup) r
                0 (switch (flag "toggle")) (switch (flag "toggle")) r
                eq_refl eq_refl eq_refl eq_refl eq_refl eq_refl)
      as [Hlong _].
    rewrite (Hlong eq_refl). reflexivity.
Defined.

(* ------------------------------------------------------------------ *)
(** ** Readers over shifted arrays read alike *)

Lemma skipn_next {A} :
  forall n (l : list A),
    nth_error l n = hd_error (skipn n l) /\ skipn (S n) l = tl (skipn n l).
Proof.
  induction n as [|n IH]; intros [|x l]; simpl; auto.
Qed.

Lemma skipn_agree {A} :
  forall n m (l l' : list A),
    skipn n l = skipn m l' ->
    nth_error l n = nth_error l' m /\ skipn (S n) l = skipn (S m) l'.
Proof.
  intros n m l l' H.
  destruct (skipn_next n l) as [H1 H2], (skipn_next m l') as [H3 H4].
  rewrite H1, H2, H3, H4, H. auto.
Qed.

Section Shifted.

Variable d : nat.
Variables rA rB : ArgReader.
Hypothesis Hs : shifted d rA rB.

Lemma shifted_hasValue : ArgReader.hasValue rB = ArgReader.hasValue rA.
Proof. unfold ArgReader.hasValue. apply Hs. Qed.

Lemma shifted_getValue : ArgReader.getValue rB = ArgReader.getValue rA.
Proof. unfold ArgReader.getValue. apply Hs. Qed.

Lemma shifted_hasAnyFlag : ArgReader.hasAnyFlag rB = ArgReader.hasAnyFlag rA.
Proof.
  unfold ArgReader.hasAnyFlag. destruct Hs as (_&_&_&_&_&_&->&_). reflexivity.
Qed.

Lemma shifted_hasLongFlag :
  ArgReader.hasLongFlag rB = ArgReader.hasLongFlag rA.
Proof.
  unfold ArgReader.hasLongFlag.
  destruct Hs as (_&_&_&_&_&_&->&->&_). reflexivity.
Qed.

Lemma shifted_hasShortFlag :
  ArgReader.hasShortFlag rB = ArgReader.hasShortFlag rA.
Proof.
  unfold ArgReader.hasShortFlag.
  destruct Hs as (_&_&_&_&_&_&->&->&_). reflexivity.
Qed.

Lemma shifted_getLongFlag :
  ArgReader.getLongFlag rB = ArgReader.getLongFlag rA.
Proof. unfold ArgReader.getLongFlag. apply Hs. Qed.

Lemma shifted_getShortFlag :
  ArgReader.getShortFlag rB = ArgReader.getShortFlag rA.
Proof. unfold ArgReader.getShortFlag. apply Hs. Qed.

Lemma shifted_atEnd : ArgReader.atEnd rB = ArgReader.atEnd rA.
Proof. unfold ArgReader.atEnd. apply Hs. Qed.

Lemma shifted_tell : ArgReader.tell rB = ArgReader.tell rA + d.
Proof. unfold ArgReader.tell. apply Hs. Qed.

Lemma shifted_hasMoreArguments :
  ArgReader.hasMoreArguments rB = ArgReader.hasMoreArguments rA.
Proof.
  unfold ArgReader.hasMoreArguments.
  destruct Hs as (-> & -> & _).
  destruct (ArgReader.position rA <? ArgReader.argc rA)%nat eqn:E.
  - apply Nat.ltb_lt in E. apply Nat.ltb_lt. lia.
  - apply Nat.ltb_ge in E. apply Nat.ltb_ge. lia.
Qed.

Lemma shifted_reinvokes :
  forall g re fl, reinvokes g re rB fl = reinvokes g re rA fl.
Proof.
  intros. unfold reinvokes, canReenter.
  rewrite shifted_hasAnyFlag, shifted_hasShortFlag, shifted_getShortFlag,
    shifted_getLongFlag. reflexivity.
Qed.

Lemma shifted_notOneFlag : notOneFlag rB = notOneFlag rA.
Proof.
  unfold notOneFlag. rewrite shifted_hasLongFlag, shifted_hasShortFlag.
  reflexivity.
Qed.

Lemma shifted_namesGroup : forall a, namesGroup a rB = namesGroup a rA.
Proof.
  intro a. unfold namesGroup.
  rewrite shifted_hasLongFlag, shifted_hasShortFlag, shifted_getShortFlag,
    shifted_getLongFlag. reflexivity.
Qed.

Lemma shifted_tell_eqb :
  forall rA' rB', shifted d rA' rB' ->
    (ArgReader.tell rB =? ArgReader.tell rB')%nat
    = (ArgReader.tell rA =? ArgReader.tell rA')%nat
    /\ (ArgReader.tell rB' =? ArgReader.tell rB)%nat
       = (ArgReader.tell rA' =? ArgReader.tell rA)%nat.
Proof.
  intros rA' rB' Hs'. unfold ArgReader.tell.
  destruct Hs as (_ & -> & _), Hs' as (_ & -> & _).
  split.
  - destruct (ArgReader.position rA =? ArgReader.position rA')%nat eqn:E.
    + apply Nat.eqb_eq in E. apply Nat.eqb_eq. lia.
    + apply Nat.eqb_neq in E. apply Nat.eqb_neq. lia.
  - destruct (ArgReader.position rA' =? ArgReader.position rA)%nat eqn:E.
    + apply Nat.eqb_eq in E. apply Nat.eqb_eq. lia.
    + apply Nat.eqb_neq in E. apply Nat.eqb_neq. lia.
Qed.

End Shifted.

(** [parseNextArg] reads the cursor only: two readers that agree on what
    is left to read, on the pending short flags and on the end mark, and
    on the key when short flags are pending, give shifted readers. *)
Lemma parseNextArg_cursor :
  forall d rA rB,
    ArgReader.argc rB = ArgReader.argc rA + d ->
    ArgReader.position rB = ArgReader.position rA + d ->
    skipn (S (ArgReader.position rA)) (ArgReader.argv rA)
    = skipn (S (ArgReader.position rB)) (ArgReader.argv rB) ->
    ArgReader.clearedOut rB = ArgReader.clearedOut rA ->
    ArgReader.charFlags rB = ArgReader.charFlags rA ->
    (ArgReader.charFlags rA <> [] -> ArgReader.key rB = ArgReader.key rA) ->
    match ArgReader.parseNextArg rA, ArgReader.parseNextArg rB with
    | Some rA', Some rB' => shifted d rA' rB'
    | None, None => True
    | _, _ => False
    end.
Proof.
  intros d [nA avA ckA kA vA faA fcA vsA coA pA cfA]
         [nB avB ckB kB vB faB fcB vsB coB pB cfB].
  reader_fields. intros -> -> Hargv -> -> Hkey.
  unfold ArgReader.parseNextArg. reader_fields.
  destruct cfA as [|c q].
  - replace (nA + d <=? pA + d)%nat with (nA <=? pA)%nat
      by (destruct (nA <=? pA)%nat eqn:E;
          [apply Nat.leb_le in E; symmetry; apply Nat.leb_le; lia
          |apply Nat.leb_gt in E; symmetry; apply Nat.leb_gt; lia]).
    destruct (nA <=? pA)%nat.
    { unfold shifted; reader_fields; repeat split; auto. }
    replace (nA + d <=? S (pA + d))%nat with (nA <=? S pA)%nat
      by (destruct (nA <=? S pA)%nat eqn:E;
          [apply Nat.leb_le in E; symmetry; apply Nat.leb_le; lia
          |apply Nat.leb_gt in E; symmetry; apply Nat.leb_gt; lia]).
    destruct (skipn_agree _ _ _ _ Hargv) as [Hnth Hrest].
    destruct (skipn_agree _ _ _ _ Hrest) as [_ Hrest'].
    destruct (nA <=? S pA)%nat.
    { unfold shifted; reader_fields; repeat split; auto. }
    rewrite <- Hnth.
    destruct (nth_error avA (S pA)) as [curArg|]; [|exact I].
    unfold ArgReader.readArgument. reader_fields.
    destruct curArg as [|c0 rest0];
      [unfold shifted; reader_fields; repeat split; auto|].
    destruct (negb (Ascii.eqb c0 dash));
      [unfold shifted; reader_fields; repeat split; auto|].
    destruct rest0 as [|c1 rest1]; [exact I|].
    destruct (Ascii.eqb c1 dash).
    + destruct (ArgReader.splitAtEquals rest1) as [[k v]|];
        unfold shifted; reader_fields; repeat split; auto.
    + unfold shifted; reader_fields; repeat split; auto.
  - unfold shifted; reader_fields. rewrite Hkey by discriminate.
    repeat split; auto.
Qed.

Lemma shifted_parseNextArg :
  forall d rA rB,
    shifted d rA rB ->
    match ArgReader.parseNextArg rA, ArgReader.parseNextArg rB with
    | Some rA', Some rB' => shifted d rA' rB'
    | None, None => True
    | _, _ => False
    end.
Proof.
  intros d rA rB (H1&H2&H3&H4&H5&H6&H7&H8&H9&H10&H11).
  apply parseNextArg_cursor; auto.
Qed.

Lemma shifted_nextRawArgument :
  forall d rA rB,
    shifted d rA rB ->
    match ArgReader.nextRawArgument rA, ArgReader.nextRawArgument rB with
    | Some (rawA, rA'), Some (rawB, rB') => rawA = rawB /\ shifted d rA' rB'
    | None, None => True
    | _, _ => False
    end.
Proof.
  intros d [nA avA ckA kA vA faA fcA vsA coA pA cfA]
         [nB avB ckB kB vB faB fcB vsB coB pB cfB].
  unfold shifted. reader_fields.
  intros (-> & -> & Hargv & -> & -> & -> & -> & -> & -> & -> & ->).
  unfold ArgReader.nextRawArgument. reader_fields.
  destruct (skipn_agree _ _ _ _ Hargv) as [Hnth Hrest].
  rewrite <- Hnth.
  destruct (nth_error avA (S pA)) as [raw|]; [|exact I].
  split; [reflexivity|]. reader_fields. repeat split; auto.
Qed.

Ltac split_outcomes H :=
  match type of H with
  | sameOutcome _ ?oA ?oB =>
      destruct oA as [? ? ?| |], oB as [? ? ?| |];
      cbn [sameOutcome] in H; try contradiction; try exact I
  end.

Lemma sameOutcome_done :
  forall d ok f rA rB,
    shifted d rA rB -> sameOutcome d (Done ok f rA) (Done ok f rB).
Proof. intros. simpl. auto. Qed.

(** The loop of a group runs alike on shifted readers when each call on a
    member does. *)
Lemma groupLoop_shifted (d : nat) (inv : Flag -> ArgReader -> Outcome) :
  (forall m rA rB, shifted d rA rB -> sameOutcome d (inv m rA) (inv m rB)) ->
  forall k a ms rA rB,
    shifted d rA rB ->
    sameOutcome d (groupLoop inv k a ms rA) (groupLoop inv k a ms rB).
Proof.
  intros Hinv k. induction k as [|k IH]; intros a ms rA rB Hs;
    cbn [groupLoop]; [exact I|].
  rewrite (shifted_atEnd _ _ _ Hs), (shifted_hasLongFlag _ _ _ Hs),
    (shifted_getLongFlag _ _ _ Hs), (shifted_getShortFlag _ _ _ Hs).
  destruct (ArgReader.atEnd rA); [apply sameOutcome_done; assumption|].
  destruct (ArgReader.hasLongFlag rA).
  - destruct (membersByLongName ms (ArgReader.getLongFlag rA)) as [i|];
      [|apply sameOutcome_done; assumption].
    destruct (nth_error ms i) as [m|];
      [|apply sameOutcome_done; assumption].
    destruct (atCapacity m); [apply sameOutcome_done; assumption|].
    pose proof (Hinv m rA rB Hs) as Hi. split_outcomes Hi.
    destruct Hi as (<- & <- & Hs').
    destruct ok; [|apply sameOutcome_done; assumption].
    rewrite (proj2 (shifted_tell_eqb _ _ _ Hs _ _ Hs')).
    destruct (ArgReader.tell r =? ArgReader.tell rA)%nat;
      [apply sameOutcome_done; assumption|apply IH; assumption].
  - destruct (membersByShortName ms (ArgReader.getShortFlag rA)) as [i|];
      [|apply sameOutcome_done; assumption].
    destruct (nth_error ms i) as [m|];
      [|apply sameOutcome_done; assumption].
    destruct (atCapacity m); [apply sameOutcome_done; assumption|].
    pose proof (Hinv m rA rB Hs) as Hi. split_outcomes Hi.
    destruct Hi as (<- & <- & Hs').
    destruct ok; [|apply sameOutcome_done; assumption].
    apply IH; assumption.
Qed.

(** [SingletonFlag::parseArgsR] and [Switch::parseArgsR] on shifted
    readers. *)
Lemma SingletonFlag_shifted :
  forall d self a P rA rB,
    shifted d rA rB ->
    sameOutcome d (SingletonFlag_parseArgsR self a P rA)
                  (SingletonFlag_parseArgsR self a P rB).
Proof.
  intros d self a P rA rB Hs. unfold SingletonFlag_parseArgsR.
  rewrite (shifted_hasValue _ _ _ Hs), (shifted_getValue _ _ _ Hs),
    (shifted_hasMoreArguments _ _ _ Hs).
  destruct (ArgReader.hasValue rA).
  - destruct (parse a P (ArgReader.getValue rA));
      [|apply sameOutcome_done; assumption].
    pose proof (shifted_parseNextArg _ _ _ Hs) as Hn.
    destruct (ArgReader.parseNextArg rA), (ArgReader.parseNextArg rB);
      try contradiction; [apply sameOutcome_done; assumption|exact I].
  - destruct (ArgReader.hasMoreArguments rA);
      [|apply sameOutcome_done; assumption].
    pose proof (shifted_nextRawArgument _ _ _ Hs) as Hr.
    destruct (ArgReader.nextRawArgument rA) as [[rawA r1A]|],
             (ArgReader.nextRawArgument rB) as [[rawB r1B]|];
      try contradiction; [|exact I].
    destruct Hr as [<- Hs1].
    destruct (parse a P rawA); [|apply sameOutcome_done; assumption].
    pose proof (shifted_parseNextArg _ _ _ Hs1) as Hn.
    destruct (ArgReader.parseNextArg r1A), (ArgReader.parseNextArg r1B);
      try contradiction; [apply sameOutcome_done; assumption|exact I].
Qed.

Lemma Switch_shifted :
  forall d a p rA rB,
    shifted d rA rB ->
    sameOutcome d (Switch_parseArgsR a p rA) (Switch_parseArgsR a p rB).
Proof.
  intros d a p rA rB Hs. unfold Switch_parseArgsR.
  rewrite (shifted_hasValue _ _ _ Hs).
  destruct (ArgReader.hasValue rA); [apply sameOutcome_done; assumption|].
  pose proof (shifted_parseNextArg _ _ _ Hs) as Hn.
  destruct (ArgReader.parseNextArg rA), (ArgReader.parseNextArg rB);
    try contradiction; [apply sameOutcome_done; assumption|exact I].
Qed.

(** Every flag parses alike on shifted readers. *)
Lemma parseArgsR_shifted :
  forall d n f rA rB,
    shifted d rA rB ->
    sameOutcome d (parseArgsR n f rA) (parseArgsR n f rB).
Proof.
  intros d n. induction n as [|n IH]; intros f rA rB Hs; [exact I|].
  destruct f as [a P p v|a p|v|a g re T e vs|a ms].
  - rewrite !parseArgsR_primitive. apply SingletonFlag_shifted. assumption.
  - rewrite !parseArgsR_switch. apply Switch_shifted. assumption.
  - rewrite !parseArgsR_flag.
    pose proof (IH v rA rB Hs) as Hi. split_outcomes Hi.
    destruct Hi as (<- & <- & Hs'). apply sameOutcome_done. assumption.
  - rewrite !parseArgsR_vector.
    pose proof (IH (newFlag a T) rA rB Hs) as Hi. split_outcomes Hi.
    destruct Hi as (<- & <- & Hs').
    destruct ok; [|apply sameOutcome_done; assumption].
    rewrite (proj1 (shifted_tell_eqb _ _ _ Hs _ _ Hs')).
    destruct (ArgReader.tell rA =? ArgReader.tell r)%nat;
      [apply sameOutcome_done; assumption|].
    rewrite (shifted_reinvokes _ _ _ Hs').
    destruct (reinvokes g re r f);
      [apply IH; assumption|apply sameOutcome_done; assumption].
  - rewrite !parseArgsR_group. unfold FlagGroup_parseArgsR.
    rewrite (shifted_notOneFlag _ _ _ Hs), (shifted_namesGroup _ _ _ Hs).
    destruct (notOneFlag rA); [apply sameOutcome_done; assumption|].
    destruct (namesGroup a rA).
    + pose proof (shifted_parseNextArg _ _ _ Hs) as Hn.
      destruct (ArgReader.parseNextArg rA), (ArgReader.parseNextArg rB);
        try contradiction; [|exact I].
      apply groupLoop_shifted; auto.
    + apply groupLoop_shifted; auto.
Qed.

(* ------------------------------------------------------------------ *)
(** ** The cursor never goes back *)

Lemma parseNextArg_tell :
  forall r r', ArgReader.parseNextArg r = Some r' ->
               ArgReader.tell r <= ArgReader.tell r'.
Proof.
  intros r r' H. unfold ArgReader.parseNextArg in H. unfold ArgReader.tell.
  destruct (ArgReader.charFlags r).
  - destruct (ArgReader.argc r <=? ArgReader.position r)%nat;
      [inversion H; subst; simpl; lia|].
    destruct (ArgReader.argc r <=? S (ArgReader.position r))%nat;
      [inversion H; subst; simpl; lia|].
    destruct (nth_error (ArgReader.argv r) (S (ArgReader.position r)))
      as [curArg|]; [|discriminate].
    unfold ArgReader.readArgument in H.
    destruct curArg as [|c0 rest0]; [inversion H; subst; simpl; lia|].
    destruct (negb (Ascii.eqb c0 dash)); [inversion H; subst; simpl; lia|].
    destruct rest0 as [|c1 rest1]; [discriminate|].
    destruct (Ascii.eqb c1 dash).
    + destruct (ArgReader.splitAtEquals rest1) as [[k v]|];
        inversion H; subst; simpl; lia.
    + inversion H; subst; simpl; lia.
  - inversion H; subst; simpl; lia.
Qed.

Lemma nextRawArgument_tell :
  forall r raw r', ArgReader.nextRawArgument r = Some (raw, r') ->
                   ArgReader.tell r' = S (ArgReader.tell r).
Proof.
  intros r raw r' H. unfold ArgReader.nextRawArgument in H.
  destruct (nth_error (ArgReader.argv r) (S (ArgReader.position r)));
    [|discriminate].
  inversion H; subst. reflexivity.
Qed.

Lemma groupLoop_tell (inv : Flag -> ArgReader -> Outcome) :
  (forall m r ok m' r', inv m r = Done ok m' r' ->
                        ArgReader.tell r <= ArgReader.tell r') ->
  forall k a ms r ok f' r',
    groupLoop inv k a ms r = Done ok f' r' ->
    ArgReader.tell r <= ArgReader.tell r'.
Proof.
  intros Hinv k. induction k as [|k IH]; intros a ms r ok f' r' H;
    cbn [groupLoop] in H; [discriminate|].
  assert (Hstay : forall o g, Done o g r = Done ok f' r' ->
                              ArgReader.tell r <= ArgReader.tell r').
  { intros o g E. inversion E; subst. lia. }
  destruct (ArgReader.atEnd r); [eauto|].
  destruct (ArgReader.hasLongFlag r).
  - destruct (membersByLongName ms (ArgReader.getLongFlag r)) as [i|];
      [|eauto].
    destruct (nth_error ms i) as [m|]; [|eauto].
    destruct (atCapacity m); [eauto|].
    destruct (inv m r) as [o m' r1| |] eqn:E; try discriminate.
    pose proof (Hinv _ _ _ _ _ E) as Hm.
    destruct o; [|inversion H; subst; assumption].
    destruct (ArgReader.tell r1 =? ArgReader.tell r)%nat;
      [inversion H; subst; assumption|].
    apply IH in H. lia.
  - destruct (membersByShortName ms (ArgReader.getShortFlag r)) as [i|];
      [|eauto].
    destruct (nth_error ms i) as [m|]; [|eauto].
    destruct (atCapacity m); [eauto|].
    destruct (inv m r) as [o m' r1| |] eqn:E; try discriminate.
    pose proof (Hinv _ _ _ _ _ E) as Hm.
    destruct o; [|inversion H; subst; assumption].
    apply IH in H. lia.
Qed.

Lemma parseArgsR_tell :
  forall n f r ok f' r',
    parseArgsR n f r = Done ok f' r' ->
    ArgReader.tell r <= ArgReader.tell r'.
Proof.
  induction n as [|n IH]; intros f r ok f' r' H; [discriminate|].
  destruct f as [a P p v|a p|v|a g re T e vs|a ms].
  - rewrite parseArgsR_primitive in H.
    unfold SingletonFlag_parseArgsR in H.
    destruct (ArgReader.hasValue r).
    + destruct (parse a P (ArgReader.getValue r));
        [|inversion H; subst; lia].
      destruct (ArgReader.parseNextArg r) eqn:E; [|discriminate].
      inversion H; subst. apply parseNextArg_tell. assumption.
    + destruct (ArgReader.hasMoreArguments r); [|inversion H; subst; lia].
      destruct (ArgReader.nextRawArgument r) as [[raw r1]|] eqn:E1;
        [|discriminate].
      apply nextRawArgument_tell in E1.
      destruct (parse a P raw); [|inversion H; subst; lia].
      destruct (ArgReader.parseNextArg r1) eqn:E; [|discriminate].
      inversion H; subst. apply parseNextArg_tell in E. lia.
  - rewrite parseArgsR_switch in H. unfold Switch_parseArgsR in H.
    destruct (ArgReader.hasValue r); [inversion H; subst; lia|].
    destruct (ArgReader.parseNextArg r) eqn:E; [|discriminate].
    inversion H; subst. apply parseNextArg_tell. assumption.
  - rewrite parseArgsR_flag in H.
    destruct (parseArgsR n v r) as [o v' r1| |] eqn:E; try discriminate.
    inversion H; subst. eauto.
  - rewrite parseArgsR_vector in H.
    destruct (parseArgsR n (newFlag a T) r) as [o fl r1| |] eqn:E;
      try discriminate.
    apply IH in E.
    destruct o; [|inversion H; subst; assumption].
    destruct (ArgReader.tell r =? ArgReader.tell r1)%nat;
      [inversion H; subst; assumption|].
    destruct (reinvokes g re r1 fl);
      [apply IH in H; lia|inversion H; subst; assumption].
  - rewrite parseArgsR_group in H. unfold FlagGroup_parseArgsR in H.
    destruct (notOneFlag r); [inversion H; subst; lia|].
    destruct (namesGroup a r).
    + destruct (ArgReader.parseNextArg r) eqn:E; [|discriminate].
      apply parseNextArg_tell in E.
      apply groupLoop_tell in H; [lia|eauto].
    + apply groupLoop_tell in H; [lia|eauto].
Qed.

(* ------------------------------------------------------------------ *)
(** ** A value attached to its flag, or given as the next argument *)

Lemma takesValue_construct :
  forall T a, takesValue (construct T a) = takesValue T.
Proof. destruct T; reflexivity. Qed.

Lemma parseNextArg_advances :
  forall r r',
    ArgReader.charFlags r = [] ->
    ArgReader.position r < ArgReader.argc r ->
    ArgReader.parseNextArg r = Some r' ->
    ArgReader.position r' = S (ArgReader.position r).
Proof.
  intros r r' Hq Hlt H. unfold ArgReader.parseNextArg in H. rewrite Hq in H.
  destruct (ArgReader.argc r <=? ArgReader.position r)%nat eqn:E;
    [apply Nat.leb_le in E; lia|].
  destruct (ArgReader.argc r <=? S (ArgReader.position r))%nat;
    [inversion H; reflexivity|].
  destruct (nth_error (ArgReader.argv r) (S (ArgReader.position r)))
    as [curArg|]; [|discriminate].
  unfold ArgReader.readArgument in H.
  destruct curArg as [|c0 rest0]; [inversion H; reflexivity|].
  destruct (negb (Ascii.eqb c0 dash)); [inversion H; reflexivity|].
  destruct rest0 as [|c1 rest1]; [discriminate|].
  destruct (Ascii.eqb c1 dash).
  - destruct (ArgReader.splitAtEquals rest1) as [[k v]|];
      inversion H; reflexivity.
  - inversion H; reflexivity.
Qed.

Lemma valueTaken_failed :
  forall pos f rA rB, valueTaken pos (Done false f rA) (Done false f rB).
Proof.
  intros. simpl. split; [reflexivity|]. split; [reflexivity|].
  intro H. discriminate H.
Qed.

Lemma valueTaken_done :
  forall pos f rA rB,
    shifted 1 rA rB -> pos < ArgReader.position rA ->
    valueTaken pos (Done true f rA) (Done true f rB).
Proof. intros. cbn [valueTaken]. auto. Qed.

(** The scalar parser takes the value from either place and leaves the
    two readers one argument apart. *)
Lemma SingletonFlag_value_pending :
  forall self a P v rA rB,
    valuePending v rA rB ->
    valueTaken (ArgReader.position rA)
               (SingletonFlag_parseArgsR self a P rA)
               (SingletonFlag_parseArgsR self a P rB).
Proof.
  intros self a P v rA rB
         (HvA & Hval & HvB & HqA & HqB & Hpos & Hargc & Hlt & Hnth & Hargv
          & Hend).
  unfold SingletonFlag_parseArgsR.
  unfold ArgReader.hasValue, ArgReader.getValue, ArgReader.hasMoreArguments.
  rewrite HvA, HvB, Hval.
  replace (ArgReader.position rB <? ArgReader.argc rB)%nat with true
    by (symmetry; apply Nat.ltb_lt; lia).
  unfold ArgReader.nextRawArgument. rewrite Hnth.
  destruct (parse a P v) as [self'|]; [|apply valueTaken_failed].
  match goal with
  | |- context [ArgReader.parseNextArg (ArgReader.mk ?n ?av ?ck ?k ?vl ?fa
                                          ?fc ?vs ?co ?p ?cf)] =>
      set (r1 := ArgReader.mk n av ck k vl fa fc vs co p cf)
  end.
  assert (Hcur : match ArgReader.parseNextArg rA, ArgReader.parseNextArg r1
                 with
                 | Some rA', Some rB' => shifted 1 rA' rB'
                 | None, None => True
                 | _, _ => False
                 end).
  { apply parseNextArg_cursor; subst r1; reader_fields.
    - lia.
    - lia.
    - assumption.
    - assumption.
    - congruence.
    - intro Hne. congruence. }
  destruct (ArgReader.parseNextArg rA) as [rA'|] eqn:EA,
           (ArgReader.parseNextArg r1) as [rB'|];
    try contradiction; [|exact I].
  apply valueTaken_done; [assumption|].
  rewrite (parseNextArg_advances _ _ HqA Hlt EA). lia.
Qed.

(** So does every flag that takes a value. *)
Lemma takesValue_value_pending :
  forall n f v rA rB,
    takesValue f = true ->
    valuePending v rA rB ->
    valueTaken (ArgReader.position rA)
               (parseArgsR n f rA) (parseArgsR n f rB).
Proof.
  induction n as [|n IH]; intros f v rA rB Htakes Hp; [exact I|].
  destruct f as [a P p v0|a p|v0|a g re T e vs|a ms]; try discriminate.
  - rewrite !parseArgsR_primitive.
    eapply SingletonFlag_value_pending; eassumption.
  - rewrite !parseArgsR_vector.
    assert (Hpos : ArgReader.tell rB = ArgReader.tell rA).
    { unfold ArgReader.tell. apply Hp. }
    pose proof (IH (newFlag a T) v rA rB) as Hi.
    unfold newFlag in Hi at 1. rewrite takesValue_construct in Hi.
    specialize (Hi Htakes Hp).
    destruct (parseArgsR n (newFlag a T) rA) as [okA flA rA'| |],
             (parseArgsR n (newFlag a T) rB) as [okB flB rB'| |];
      cbn [valueTaken] in Hi; try contradiction; try exact I.
    destruct Hi as (<- & <- & Hi).
    destruct okA; [|apply valueTaken_failed].
    destruct (Hi eq_refl) as [Hs Hlt].
    replace (ArgReader.tell rA =? ArgReader.tell rA')%nat with false
      by (symmetry; apply Nat.eqb_neq; unfold ArgReader.tell; lia).
    replace (ArgReader.tell rB =? ArgReader.tell rB')%nat with false
      by (symmetry; apply Nat.eqb_neq; rewrite Hpos;
          rewrite (shifted_tell _ _ _ Hs); unfold ArgReader.tell; lia).
    rewrite (shifted_reinvokes _ _ _ Hs).
    destruct (reinvokes g re rA' flA).
    + pose proof (parseArgsR_shifted 1 n
                    (VectorFlag a g re T true (vs ++ [flA])) rA' rB' Hs) as Hr.
      destruct (parseArgsR n (VectorFlag a g re T true (vs ++ [flA])) rA')
        as [ok2 f2 rA2| |] eqn:EA,
        (parseArgsR n (VectorFlag a g re T true (vs ++ [flA])) rB')
        as [ok2' f2' rB2| |];
        cbn [sameOutcome] in Hr; try contradiction; try exact I.
      destruct Hr as (<- & <- & Hs2).
      destruct ok2; [|apply valueTaken_failed].
      apply valueTaken_done; [assumption|].
      apply parseArgsR_tell in EA. unfold ArgReader.tell in EA. lia.
    + apply valueTaken_done; assumption.
Qed.

(** One turn of the loop of a group, by the member found for the token. *)
Lemma groupLoop_dispatch :
  forall inv k a ms r i m,
    ArgReader.atEnd r = false ->
    dispatched ms r = Some i ->
    nth_error ms i = Some m ->
    groupLoop inv (S k) a ms r
    = if atCapacity m then Done true (FlagGroup a ms) r
      else match inv m r with
           | Done false m' r' =>
               Done false (FlagGroup a (setMember ms i m')) r'
           | Done true m' r' =>
               if ArgReader.hasLongFlag r
                  && (ArgReader.tell r' =? ArgReader.tell r)%nat
               then Done true (FlagGroup a (setMember ms i m')) r'
               else groupLoop inv k a (setMember ms i m') r'
           | Undefined => Undefined
           | OutOfFuel => OutOfFuel
           end.
Proof.
  intros inv k a ms r i m Hend Hd Hnth. unfold dispatched in Hd.
  cbn [groupLoop]. rewrite Hend.
  destruct (ArgReader.hasLongFlag r); rewrite Hd, Hnth;
    destruct (atCapacity m); try reflexivity;
    destruct (inv m r) as [[|] m' r'| |]; reflexivity.
Qed.

Lemma sameOutcome_resultOf :
  forall d oA oB, sameOutcome d oA oB -> resultOf oA = resultOf oB.
Proof.
  intros d [okA fA rA| |] [okB fB rB| |] H; simpl in H;
    try contradiction; try reflexivity.
  destruct H as (<- & <- & Hs). simpl.
  rewrite (shifted_atEnd _ _ _ Hs). reflexivity.
Qed.

(** The root group, with the value pending for one of its members that
    takes a value: the two runs return the same. *)
Lemma FlagGroup_value_pending :
  forall fuel a ms v rA rB i m,
    valuePending v rA rB ->
    notOneFlag rA = false -> notOneFlag rB = false ->
    namesGroup a rA = false -> namesGroup a rB = false ->
    ArgReader.atEnd rA = false ->
    dispatched ms rA = Some i -> dispatched ms rB = Some i ->
    nth_error ms i = Some m ->
    takesValue m = true ->
    resultOf (parseArgsR fuel (FlagGroup a ms) rA)
    = resultOf (parseArgsR fuel (FlagGroup a ms) rB).
Proof.
  intros fuel a ms v rA rB i m Hp H1A H1B HnA HnB HendA HdA HdB Hnth Ht.
  assert (HendB : ArgReader.atEnd rB = false).
  { unfold ArgReader.atEnd in *.
    destruct Hp as (_&_&_&_&_&_&_&_&_&_&->). assumption. }
  assert (Hpos : ArgReader.tell rB = ArgReader.tell rA).
  { unfold ArgReader.tell. apply Hp. }
  destruct fuel as [|n]; [reflexivity|].
  rewrite !parseArgsR_group. unfold FlagGroup_parseArgsR.
  rewrite H1A, H1B, HnA, HnB.
  destruct n as [|k]; [reflexivity|].
  rewrite (groupLoop_dispatch _ _ _ _ _ _ _ HendA HdA Hnth).
  rewrite (groupLoop_dispatch _ _ _ _ _ _ _ HendB HdB Hnth).
  destruct (atCapacity m).
  { simpl. rewrite HendA, HendB. reflexivity. }
  pose proof (takesValue_value_pending (S k) m v rA rB Ht Hp) as Hi.
  destruct (parseArgsR (S k) m rA) as [okA mA rA'| |],
           (parseArgsR (S k) m rB) as [okB mB rB'| |];
    cbn [valueTaken] in Hi; try contradiction; try reflexivity.
  destruct Hi as (<- & <- & Hi).
  destruct okA; [|reflexivity].
  destruct (Hi eq_refl) as [Hs Hlt].
  replace (ArgReader.tell rA' =? ArgReader.tell rA)%nat with false
    by (symmetry; apply Nat.eqb_neq; unfold ArgReader.tell; lia).
  replace (ArgReader.tell rB' =? ArgReader.tell rB)%nat with false
    by (symmetry; apply Nat.eqb_neq; rewrite Hpos;
        rewrite (shifted_tell _ _ _ Hs); unfold ArgReader.tell; lia).
  rewrite !andb_false_r.
  eapply sameOutcome_resultOf.
  apply groupLoop_shifted; [|exact Hs].
  intros. apply parseArgsR_shifted. assumption.
Qed.

(* ------------------------------------------------------------------ *)
(** ** Termination *)

Lemma totalLength_skipn_S :
  forall n l, totalLength (skipn (S n) l) <= totalLength (skipn n l).
Proof.
  intros n l. destruct (skipn_next n l) as [_ ->].
  destruct (skipn n l); simpl; lia.
Qed.

Lemma totalLength_skipn_nth :
  forall n l x,
    nth_error l n = Some x ->
    totalLength (skipn n l) = String.length x + totalLength (skipn (S n) l).
Proof.
  intros n l x H. destruct (skipn_next n l) as [H1 ->].
  rewrite H1 in H. destruct (skipn n l); simpl in *; [discriminate|].
  inversion H. reflexivity.
Qed.

Lemma charsOf_length :
  forall s, List.length (ArgReader.charsOf s) = String.length s.
Proof.
  unfold ArgReader.charsOf.
  induction s as [|c s IH]; simpl; [reflexivity|]. rewrite IH. reflexivity.
Qed.

Ltac work_left :=
  unfold readsOn, workLeft, ArgReader.tell; reader_fields;
  cbn [List.length String.length] in *;
  repeat match goal with
         | |- context [if ?b then _ else _] => destruct b
         end;
  repeat split; intros; try discriminate; try lia.

(** [parseNextArg] leaves less to do, unless the end was already marked. *)
Lemma parseNextArg_work :
  forall r r',
    ArgReader.parseNextArg r = Some r' ->
    readsOn r r'
    /\ (ArgReader.clearedOut r = false -> workLeft r' < workLeft r).
Proof.
  intros [n av ck k v fa fc vs co p cf] r' H.
  unfold ArgReader.parseNextArg in H. reader_fields.
  pose proof (totalLength_skipn_S (S p) av) as Hle.
  destruct cf as [|c q].
  - destruct (n <=? p)%nat eqn:E1.
    { apply Nat.leb_le in E1. inversion H; subst; clear H. work_left. }
    apply Nat.leb_gt in E1.
    destruct (n <=? S p)%nat eqn:E2.
    { apply Nat.leb_le in E2. inversion H; subst; clear H. work_left. }
    apply Nat.leb_gt in E2.
    destruct (nth_error av (S p)) as [curArg|] eqn:En; [|discriminate].
    pose proof (totalLength_skipn_nth _ _ _ En) as Hcur.
    unfold ArgReader.readArgument in H. reader_fields.
    destruct curArg as [|c0 rest0]; [inversion H; subst; clear H; work_left|].
    destruct (negb (Ascii.eqb c0 dash));
      [inversion H; subst; clear H; work_left|].
    destruct rest0 as [|c1 rest1]; [discriminate|].
    destruct (Ascii.eqb c1 dash).
    + destruct (ArgReader.splitAtEquals rest1) as [[k' v']|];
        inversion H; subst; clear H; work_left.
    + inversion H; subst; clear H.
      pose proof (charsOf_length rest1) as Hq.
      unfold readsOn, workLeft, ArgReader.tell; reader_fields.
      cbn [String.length] in Hcur. rewrite Hq.
      destruct co; repeat split; intros; lia.
  - inversion H; subst; clear H. work_left.
Qed.

(** [nextRawArgument], called when arguments remain, leaves less to do. *)
Lemma nextRawArgument_work :
  forall r raw r',
    ArgReader.hasMoreArguments r = true ->
    ArgReader.nextRawArgument r = Some (raw, r') ->
    workLeft r' < workLeft r
    /\ ArgReader.clearedOut r' = ArgReader.clearedOut r.
Proof.
  intros [n av ck k v fa fc vs co p cf] raw r' Hm H.
  unfold ArgReader.hasMoreArguments in Hm. reader_fields.
  apply Nat.ltb_lt in Hm.
  unfold ArgReader.nextRawArgument in H. reader_fields.
  destruct (nth_error av (S p)) as [x|] eqn:En; [|discriminate].
  pose proof (totalLength_skipn_nth _ _ _ En) as Hcur.
  inversion H; subst; clear H. work_left.
Qed.

Lemma readsOn_refl : forall r, readsOn r r.
Proof. intro r. split; [lia|]. intro H. congruence. Qed.

Lemma readsOn_trans :
  forall r1 r2 r3, readsOn r1 r2 -> readsOn r2 r3 -> readsOn r1 r3.
Proof.
  intros r1 r2 r3 [H1 H1'] [H2 H2']. split; [lia|].
  intro Hne.
  destruct (Nat.eq_dec (ArgReader.tell r2) (ArgReader.tell r1)) as [E|E].
  - rewrite <- E in Hne. specialize (H2' Hne). lia.
  - specialize (H1' E). lia.
Qed.

Lemma readsOn_less :
  forall r1 r2, workLeft r2 < workLeft r1 -> readsOn r1 r2.
Proof. intros r1 r2 H. split; [lia|]. intros _. assumption. Qed.

(** A call of [parseArgsR] leaves no more to do than there was. *)
Lemma SingletonFlag_work :
  forall self a P r ok f' r',
    SingletonFlag_parseArgsR self a P r = Done ok f' r' ->
    readsOn r r'
    /\ (ok = true -> ArgReader.clearedOut r = false ->
        workLeft r' < workLeft r).
Proof.
  intros self a P r ok f' r' H. unfold SingletonFlag_parseArgsR in H.
  destruct (ArgReader.hasValue r).
  - destruct (parse a P (ArgReader.getValue r)).
    + destruct (ArgReader.parseNextArg r) as [r1|] eqn:E; [|discriminate].
      inversion H; subst. destruct (parseNextArg_work _ _ E). auto.
    + inversion H; subst. split; [apply readsOn_refl|discriminate].
  - destruct (ArgReader.hasMoreArguments r) eqn:Hm.
    + destruct (ArgReader.nextRawArgument r) as [[raw r1]|] eqn:E1;
        [|discriminate].
      destruct (nextRawArgument_work _ _ _ Hm E1) as [Hlt Hco].
      destruct (parse a P raw).
      * destruct (ArgReader.parseNextArg r1) as [r2|] eqn:E; [|discriminate].
        inversion H; subst. destruct (parseNextArg_work _ _ E) as [[Hle _] _].
        split; [apply readsOn_less; lia|intros; lia].
      * inversion H; subst. split; [apply readsOn_less; lia|discriminate].
    + inversion H; subst. split; [apply readsOn_refl|discriminate].
Qed.

Lemma Switch_work :
  forall a p r ok f' r',
    Switch_parseArgsR a p r = Done ok f' r' ->
    readsOn r r'
    /\ (ok = true -> ArgReader.clearedOut r = false ->
        workLeft r' < workLeft r).
Proof.
  intros a p r ok f' r' H. unfold Switch_parseArgsR in H.
  destruct (ArgReader.hasValue r).
  - inversion H; subst. split; [apply readsOn_refl|discriminate].
  - destruct (ArgReader.parseNextArg r) as [r1|] eqn:E; [|discriminate].
    inversion H; subst. destruct (parseNextArg_work _ _ E). auto.
Qed.

Lemma groupLoop_work (inv : Flag -> ArgReader -> Outcome) :
  (forall m r ok m' r', inv m r = Done ok m' r' -> readsOn r r') ->
  forall k a ms r ok f' r',
    groupLoop inv k a ms r = Done ok f' r' -> readsOn r r'.
Proof.
  intros Hinv k. induction k as [|k IH]; intros a ms r ok f' r' H;
    cbn [groupLoop] in H; [discriminate|].
  assert (Hstay : forall o g, Done o g r = Done ok f' r' -> readsOn r r').
  { intros o g E. inversion E; subst. apply readsOn_refl. }
  destruct (ArgReader.atEnd r); [eauto|].
  destruct (ArgReader.hasLongFlag r).
  - destruct (membersByLongName ms (ArgReader.getLongFlag r)) as [i|];
      [|eauto].
    destruct (nth_error ms i) as [m|]; [|eauto].
    destruct (atCapacity m); [eauto|].
    destruct (inv m r) as [o m' r1| |] eqn:E; try discriminate.
    pose proof (Hinv _ _ _ _ _ E) as Hm.
    destruct o; [|inversion H; subst; assumption].
    destruct (ArgReader.tell r1 =? ArgReader.tell r)%nat;
      [inversion H; subst; assumption|].
    apply IH in H. eapply readsOn_trans; eauto.
  - destruct (membersByShortName ms (ArgReader.getShortFlag r)) as [i|];
      [|eauto].
    destruct (nth_error ms i) as [m|]; [|eauto].
    destruct (atCapacity m); [eauto|].
    destruct (inv m r) as [o m' r1| |] eqn:E; try discriminate.
    pose proof (Hinv _ _ _ _ _ E) as Hm.
    destruct o; [|inversion H; subst; assumption].
    apply IH in H. eapply readsOn_trans; eauto.
Qed.

Lemma parseArgsR_work :
  forall n f r ok f' r',
    parseArgsR n f r = Done ok f' r' -> readsOn r r'.
Proof.
  induction n as [|n IH]; intros f r ok f' r' H; [discriminate|].
  destruct f as [a P p v|a p|v|a g re T e vs|a ms].
  - rewrite parseArgsR_primitive in H. apply SingletonFlag_work in H.
    apply H.
  - rewrite parseArgsR_switch in H. apply Switch_work in H. apply H.
  - rewrite parseArgsR_flag in H.
    destruct (parseArgsR n v r) as [o v' r1| |] eqn:E; try discriminate.
    inversion H; subst. eauto.
  - rewrite parseArgsR_vector in H.
    destruct (parseArgsR n (newFlag a T) r) as [o fl r1| |] eqn:E;
      try discriminate.
    apply IH in E.
    destruct o; [|inversion H; subst; assumption].
    destruct (ArgReader.tell r =? ArgReader.tell r1)%nat;
      [inversion H; subst; assumption|].
    destruct (reinvokes g re r1 fl);
      [apply IH in H; eapply readsOn_trans; eauto
      |inversion H; subst; assumption].
  - rewrite parseArgsR_group in H. unfold FlagGroup_parseArgsR in H.
    destruct (notOneFlag r); [inversion H; subst; apply readsOn_refl|].
    destruct (namesGroup a r).
    + destruct (ArgReader.parseNextArg r) as [r1|] eqn:E; [|discriminate].
      destruct (parseNextArg_work _ _ E) as [Hr _].
      apply groupLoop_work in H; [|eauto].
      eapply readsOn_trans; eauto.
    + apply groupLoop_work in H; eauto.
Qed.

Lemma ctorArgs_construct :
  forall T a, ctorArgs (construct T a) = a.
Proof. induction T using Flag_tree_ind; intro a0; simpl; auto. Qed.

Lemma height_construct :
  forall T a, height (construct T a) = height T.
Proof.
  induction T using Flag_tree_ind; intro a0; simpl; auto.
Qed.

(** A flag that is handed a token with its own short name, and returns
    true, has read something. *)
Lemma parseArgsR_named_short :
  forall n m r m' r',
    ArgReader.clearedOut r = false ->
    namedShort m r ->
    parseArgsR n m r = Done true m' r' ->
    workLeft r' < workLeft r.
Proof.
  induction n as [|n IH]; intros m r m' r' Hco Hnamed H; [discriminate|].
  destruct m as [a P p v|a p|v|a g re T e vs|a ms].
  - rewrite parseArgsR_primitive in H. apply SingletonFlag_work in H.
    destruct H as [_ H]. auto.
  - rewrite parseArgsR_switch in H. apply Switch_work in H.
    destruct H as [_ H]. auto.
  - rewrite parseArgsR_flag in H.
    destruct (parseArgsR n v r) as [o v' r1| |] eqn:E; try discriminate.
    inversion H; subst. apply (IH v r v' r' Hco Hnamed E).
  - rewrite parseArgsR_vector in H.
    destruct (parseArgsR n (newFlag a T) r) as [o fl r1| |] eqn:E;
      try discriminate.
    destruct o; [|discriminate].
    assert (Hlt : workLeft r1 < workLeft r).
    { eapply IH; [exact Hco| |exact E].
      destruct Hnamed as (H1 & H2 & H3).
      unfold namedShort, hasShortName, getShortName, newFlag in *.
      rewrite ctorArgs_construct. simpl in H2, H3. auto. }
    destruct (ArgReader.tell r =? ArgReader.tell r1)%nat;
      [inversion H; subst; assumption|].
    destruct (reinvokes g re r1 fl);
      [|inversion H; subst; assumption].
    apply parseArgsR_work in H. destruct H as [H _]. lia.
  - rewrite parseArgsR_group in H. unfold FlagGroup_parseArgsR in H.
    destruct (notOneFlag r) eqn:Hone; [discriminate|].
    destruct Hnamed as (H1 & H2 & H3).
    assert (Hown : namesGroup a r = true).
    { unfold notOneFlag in Hone. rewrite H1 in Hone.
      unfold namesGroup. unfold hasShortName, getShortName in H2, H3.
      simpl in H2, H3. rewrite H2, H3.
      destruct (ArgReader.hasShortFlag r); [|discriminate].
      rewrite orb_true_r. reflexivity. }
    rewrite Hown in H.
    destruct (ArgReader.parseNextArg r) as [r1|] eqn:E; [|discriminate].
    destruct (parseNextArg_work _ _ E) as [_ Hlt]. specialize (Hlt Hco).
    apply groupLoop_work in H; [|intros; eapply parseArgsR_work; eauto].
    destruct H as [H _]. lia.
Qed.

Lemma later_height : forall f f', later f f' -> height f' = height f.
Proof.
  induction f using Flag_tree_ind; intros f' Hl;
    inversion Hl; subst; simpl; auto.
  f_equal.
  match goal with HF : Forall2 later _ _ |- _ => rename HF into H2 end.
  clear Hl. revert ms' H2.
  induction H as [|x ms Hx Hms IH]; intros ms' H2; inversion H2; subst;
    simpl; [reflexivity|].
  match goal with HF : later x _ |- _ => rewrite (Hx _ HF) end.
  f_equal. auto.
Qed.

Lemma later_maxHeight :
  forall ms ms', Forall2 later ms ms' -> maxHeight ms' = maxHeight ms.
Proof.
  induction 1 as [|m m' ms ms' Hm Hms IH]; simpl; [reflexivity|].
  rewrite IH, (later_height _ _ Hm). reflexivity.
Qed.

Lemma maxHeight_member :
  forall ms i m, nth_error ms i = Some m -> height m <= maxHeight ms.
Proof.
  induction ms as [|x ms IH]; intros [|i] m H; simpl in *;
    try discriminate.
  - inversion H; subst. lia.
  - apply IH in H. lia.
Qed.

Lemma membersByShortName_named :
  forall ms c i m,
    membersByShortName ms c = Some i ->
    nth_error ms i = Some m ->
    hasShortName m = true /\ Ascii.eqb (getShortName m) c = true.
Proof.
  induction ms as [|x ms IH]; intros c i m Hf Hnth; simpl in Hf;
    [discriminate|].
  destruct (membersByShortName ms c) as [j|] eqn:E.
  - inversion Hf; subst. simpl in Hnth. eauto.
  - destruct (hasShortName x && Ascii.eqb (getShortName x) c) eqn:Hx;
      [|discriminate].
    inversion Hf; subst. simpl in Hnth. inversion Hnth; subst.
    apply andb_true_iff in Hx. assumption.
Qed.

Lemma SingletonFlag_defined :
  forall self a P r, SingletonFlag_parseArgsR self a P r <> OutOfFuel.
Proof.
  intros self a P r. unfold SingletonFlag_parseArgsR.
  destruct (ArgReader.hasValue r).
  - destruct (parse a P (ArgReader.getValue r)); [|discriminate].
    destruct (ArgReader.parseNextArg r); discriminate.
  - destruct (ArgReader.hasMoreArguments r); [|discriminate].
    destruct (ArgReader.nextRawArgument r) as [[raw r1]|]; [|discriminate].
    destruct (parse a P raw); [|discriminate].
    destruct (ArgReader.parseNextArg r1); discriminate.
Qed.

Lemma Switch_defined :
  forall a p r, Switch_parseArgsR a p r <> OutOfFuel.
Proof.
  intros a p r. unfold Switch_parseArgsR.
  destruct (ArgReader.hasValue r); [discriminate|].
  destruct (ArgReader.parseNextArg r); discriminate.
Qed.

(** The loop of a group ends: each turn that goes on has read something. *)
Lemma groupLoop_terminates :
  forall n,
    (forall f r, height f + workLeft r < n -> parseArgsR n f r <> OutOfFuel) ->
    forall k a ms r,
      maxHeight ms + workLeft r < n ->
      workLeft r < k ->
      groupLoop (parseArgsR n) k a ms r <> OutOfFuel.
Proof.
  intros n Hn k. induction k as [|k IH]; intros a ms r Hh Hk; [lia|].
  cbn [groupLoop].
  destruct (ArgReader.atEnd r) eqn:Hend; [discriminate|].
  destruct (ArgReader.hasLongFlag r) eqn:Hlong.
  - destruct (membersByLongName ms (ArgReader.getLongFlag r)) as [i|];
      [|discriminate].
    destruct (nth_error ms i) as [m|] eqn:Hnth; [|discriminate].
    destruct (atCapacity m); [discriminate|].
    pose proof (maxHeight_member _ _ _ Hnth) as Hm.
    destruct (parseArgsR n m r) as [o m' r1| |] eqn:E;
      [|discriminate|exfalso; apply (Hn m r); [lia|assumption]].
    destruct o; [|discriminate].
    destruct (ArgReader.tell r1 =? ArgReader.tell r)%nat eqn:Et;
      [discriminate|].
    apply Nat.eqb_neq in Et.
    destruct (parseArgsR_work _ _ _ _ _ _ E) as [_ Hlt].
    specialize (Hlt Et).
    apply IH; [|lia].
    rewrite (later_maxHeight ms); [lia|].
    eapply Forall2_later_setMember; eauto using parseArgsR_later.
  - destruct (membersByShortName ms (ArgReader.getShortFlag r)) as [i|] eqn:Hf;
      [|discriminate].
    destruct (nth_error ms i) as [m|] eqn:Hnth; [|discriminate].
    destruct (atCapacity m); [discriminate|].
    pose proof (maxHeight_member _ _ _ Hnth) as Hm.
    destruct (parseArgsR n m r) as [o m' r1| |] eqn:E;
      [|discriminate|exfalso; apply (Hn m r); [lia|assumption]].
    destruct o; [|discriminate].
    assert (Hlt : workLeft r1 < workLeft r).
    { eapply parseArgsR_named_short; [exact Hend| |exact E].
      destruct (membersByShortName_named _ _ _ _ Hf Hnth).
      repeat split; assumption. }
    apply IH; [|lia].
    rewrite (later_maxHeight ms); [lia|].
    eapply Forall2_later_setMember; eauto using parseArgsR_later.
Qed.

(** [parseArgsR] returns, or its behaviour is undefined, once the fuel
    exceeds the height of the flag plus what the reader has left to do. *)
Theorem parseArgsR_terminates :
  forall n f r,
    height f + workLeft r < n -> parseArgsR n f r <> OutOfFuel.
Proof.
  induction n as [|n IH]; intros f r Hn; [lia|].
  destruct f as [a P p v|a p|v|a g re T e vs|a ms].
  - rewrite parseArgsR_primitive. apply SingletonFlag_defined.
  - rewrite parseArgsR_switch. apply Switch_defined.
  - rewrite parseArgsR_flag. simpl in Hn.
    destruct (parseArgsR n v r) as [o v' r1| |] eqn:E; try discriminate.
    exfalso. apply (IH v r); [lia|assumption].
  - rewrite parseArgsR_vector. simpl in Hn.
    destruct (parseArgsR n (newFlag a T) r) as [o fl r1| |] eqn:E;
      [|discriminate
       |exfalso; apply (IH (newFlag a T) r);
        [unfold newFlag; rewrite height_construct; lia|assumption]].
    destruct o; [|discriminate].
    destruct (ArgReader.tell r =? ArgReader.tell r1)%nat eqn:Et;
      [discriminate|].
    apply Nat.eqb_neq in Et.
    destruct (reinvokes g re r1 fl); [|discriminate].
    destruct (parseArgsR_work _ _ _ _ _ _ E) as [_ Hlt].
    apply IH. simpl. assert (ArgReader.tell r1 <> ArgReader.tell r) by congruence.
    specialize (Hlt H). lia.
  - rewrite parseArgsR_group. unfold FlagGroup_parseArgsR.
    change (height (FlagGroup a ms)) with (S (maxHeight ms)) in Hn.
    destruct (notOneFlag r); [discriminate|].
    destruct (namesGroup a r).
    + destruct (ArgReader.parseNextArg r) as [r1|] eqn:E; [|discriminate].
      destruct (parseNextArg_work _ _ E) as [[Hle _] _].
      apply groupLoop_terminates; [assumption|lia|lia].
    + apply groupLoop_terminates; [assumption|lia|lia].
Qed.

(** So does [parseArgs]. *)
Theorem parseArgv_terminates :
  forall fuel f argv,
    height f + workLeft (firstToken argv) < fuel ->
    parseArgv fuel f argv <> NoFuel.
Proof.
  intros fuel f argv Hn. unfold parseArgv, parseArgs.
  destruct (Z.of_nat (List.length argv) <? 2)%Z; [discriminate|].
  unfold firstToken in Hn.
  destruct (ArgReader.parseNextArg
              (ArgReader.make (Z.of_nat (List.length argv)) argv))
    as [r|]; [|discriminate].
  pose proof (parseArgsR_terminates fuel f r Hn) as Ht.
  destruct (parseArgsR fuel f r) as [[|] f' r'| |]; try discriminate.
  contradiction.
Qed.

(* ------------------------------------------------------------------ *)
(** ** The flag as the first argument *)

Lemma splitAtEquals_attached :
  forall name v,
    ArgReader.splitAtEquals name = None ->
    ArgReader.splitAtEquals (name ++ String equalsSign v) = Some (name, v).
Proof.
  induction name as [|c name IH]; intros v H; simpl in *.
  - reflexivity.
  - destruct (Ascii.eqb c equalsSign); [discriminate|].
    destruct (ArgReader.splitAtEquals name) as [[k w]|]; [discriminate|].
    rewrite IH by reflexivity. reflexivity.
Qed.

(** [parseArgs] on an array of at least two arguments: the root flag is
    called on the reader of the first argument. *)
Lemma parseArgv_first :
  forall fuel f prog tok rest r,
    ArgReader.readArgument
      (ArgReader.mk (S (S (List.length rest))) (prog :: tok :: rest)
                    NUL "" "" true false false false 0 [])
      1 tok = Some r ->
    parseArgv fuel f (prog :: tok :: rest) = resultOf (parseArgsR fuel f r).
Proof.
  intros fuel f prog tok rest r H. unfold parseArgv, parseArgs.
  set (n := List.length (prog :: tok :: rest)).
  assert (Hn : n = S (S (List.length rest))) by reflexivity.
  replace (Z.of_nat n <? 2)%Z with false by (symmetry; apply Z.ltb_ge; lia).
  unfold ArgReader.make.
  replace (Z.of_nat n <? 0)%Z with false by (symmetry; apply Z.ltb_ge; lia).
  rewrite Nat2Z.id, Hn. unfold ArgReader.parseNextArg. reader_fields.
  cbn [Nat.leb nth_error]. rewrite H.
  destruct (parseArgsR fuel f r) as [[|] f' r'| |]; reflexivity.
Qed.


(* ------------------------------------------------------------------ *)
(** ** The two runs before, on and after the flag *)

(** How [readArgument] classifies an argument does not depend on the
    reader. *)
Lemma readArgument_classifies :
  forall r pos arg,
    ArgReader.readArgument r pos arg
    = match ArgReader.readArgument (ArgReader.make 0 []) 0 arg with
      | Some t =>
          Some (ArgReader.mk (ArgReader.argc r) (ArgReader.argv r)
                  (ArgReader.charKey t) (ArgReader.key t) (ArgReader.value t)
                  (ArgReader.flagAbsent t) (ArgReader.flagIsCharacter t)
                  (ArgReader.valueSpecified t) (ArgReader.clearedOut r) pos
                  (ArgReader.charFlags t))
      | None => None
      end.
Proof.
  intros r pos arg. unfold ArgReader.readArgument.
  destruct arg as [|c0 rest0]; [reflexivity|].
  destruct (negb (Ascii.eqb c0 dash)); [reflexivity|].
  destruct rest0 as [|c1 rest1]; [reflexivity|].
  destruct (Ascii.eqb c1 dash); [|reflexivity].
  destruct (ArgReader.splitAtEquals rest1) as [[k w]|]; reflexivity.
Qed.

(** A token without a value is a flag. *)
Lemma readArgument_flag :
  forall r pos arg t,
    ArgReader.readArgument r pos arg = Some t ->
    ArgReader.valueSpecified t = false ->
    ArgReader.flagAbsent t = false.
Proof.
  intros r pos arg t H. unfold ArgReader.readArgument in H.
  destruct arg as [|c0 rest0]; [inversion H; subst; simpl; congruence|].
  destruct (negb (Ascii.eqb c0 dash));
    [inversion H; subst; simpl; congruence|].
  destruct rest0 as [|c1 rest1]; [discriminate|].
  destruct (Ascii.eqb c1 dash); [|inversion H; subst; reflexivity].
  destruct (ArgReader.splitAtEquals rest1) as [[k w]|];
    inversion H; subst; reflexivity.
Qed.

Section TwoRuns.

Variables name v : string.
Variables pre post : list string.
Hypothesis Hname : ArgReader.splitAtEquals name = None.
Hypothesis Hpre : prefixOK pre = true.

Lemma prefix_length : 1 <= List.length pre.
Proof.
  pose proof Hpre as H. unfold prefixOK in H.
  destruct pre; [discriminate|simpl; lia].
Qed.

Lemma prefix_args :
  forall j arg,
    1 <= j -> nth_error pre j = Some arg -> clusterFree arg = true.
Proof.
  pose proof Hpre as H. unfold prefixOK in H.
  destruct pre as [|prog args]; [discriminate|].
  intros [|j] arg Hj Hnth; [lia|]. simpl in Hnth.
  rewrite forallb_forall in H. apply H.
  eapply nth_error_In; eassumption.
Qed.

Lemma argvA_in_pre :
  forall j, j < List.length pre ->
    nth_error (pre ++ attachedForm name v ++ post) j = nth_error pre j
    /\ nth_error (pre ++ separateForm name v ++ post) j = nth_error pre j.
Proof. intros j Hj. split; apply nth_error_app1; assumption. Qed.

Lemma argv_at_token :
  nth_error (pre ++ attachedForm name v ++ post) (List.length pre)
  = Some (String dash (String dash (name ++ String equalsSign v)))
  /\ nth_error (pre ++ separateForm name v ++ post) (List.length pre)
     = Some (String dash (String dash name))
  /\ nth_error (pre ++ separateForm name v ++ post) (S (List.length pre))
     = Some v
  /\ skipn (S (List.length pre)) (pre ++ attachedForm name v ++ post) = post
  /\ skipn (S (S (List.length pre))) (pre ++ separateForm name v ++ post)
     = post.
Proof.
  repeat split.
  - rewrite nth_error_app2 by lia. rewrite Nat.sub_diag. reflexivity.
  - rewrite nth_error_app2 by lia. rewrite Nat.sub_diag. reflexivity.
  - rewrite nth_error_app2 by lia.
    replace (S (List.length pre) - List.length pre) with 1 by lia.
    reflexivity.
  - rewrite skipn_app.
    replace (S (List.length pre) - List.length pre) with 1 by lia.
    rewrite skipn_all2 by lia. reflexivity.
  - rewrite skipn_app.
    replace (S (S (List.length pre)) - List.length pre) with 2 by lia.
    rewrite skipn_all2 by lia. reflexivity.
Qed.

Lemma argv_lengths :
  List.length (pre ++ attachedForm name v ++ post)
  = S (List.length pre + List.length post)
  /\ List.length (pre ++ separateForm name v ++ post)
     = S (S (List.length pre + List.length post)).
Proof.
  split; rewrite !length_app; simpl; lia.
Qed.

(** On the flag, the value is pending in the sense of [valuePending]. *)
Lemma atToken_valuePending :
  forall rA rB, atToken name v pre post rA rB -> valuePending v rA rB.
Proof.
  intros rA rB
         (HavA & HavB & HacA & HacB & HpA & HpB & HqA & HqB & HkA & HkB & Hck
          & HfaA & HfaB & HfcA & HfcB & HvsA & HvA & HvsB & Hco).
  destruct argv_lengths as [HlA HlB].
  destruct argv_at_token as (_ & _ & Hnth & HsA & HsB).
  unfold valuePending.
  rewrite HacA, HacB, HavA, HavB, HpA, HpB, HlA, HlB, Hnth, HsA, HsB.
  repeat split; auto. lia.
Qed.

(** What the callers look at is the same for the two readers, at any
    time of the two runs. *)
Lemma related_observers :
  forall rA rB,
    related name v pre post rA rB ->
    ArgReader.hasAnyFlag rB = ArgReader.hasAnyFlag rA
    /\ ArgReader.hasLongFlag rB = ArgReader.hasLongFlag rA
    /\ ArgReader.hasShortFlag rB = ArgReader.hasShortFlag rA
    /\ ArgReader.getLongFlag rB = ArgReader.getLongFlag rA
    /\ ArgReader.getShortFlag rB = ArgReader.getShortFlag rA
    /\ ArgReader.atEnd rB = ArgReader.atEnd rA.
Proof.
  intros rA rB [Hb|[Ha|[Hs _]]].
  - destruct Hb as (_&_&_&_&_&_&_&_&_& Hck & Hk & _ & Hfa & Hfc & _ & Hco).
    unfold ArgReader.hasAnyFlag, ArgReader.hasLongFlag,
      ArgReader.hasShortFlag, ArgReader.getLongFlag, ArgReader.getShortFlag,
      ArgReader.atEnd.
    rewrite Hck, Hk, Hfa, Hfc, Hco. repeat split.
  - destruct Ha as (_&_&_&_&_&_&_&_& HkA & HkB & Hck & HfaA & HfaB & HfcA
                    & HfcB & _ & _ & _ & Hco).
    unfold ArgReader.hasAnyFlag, ArgReader.hasLongFlag,
      ArgReader.hasShortFlag, ArgReader.getLongFlag, ArgReader.getShortFlag,
      ArgReader.atEnd.
    rewrite Hck, HkA, HkB, HfaA, HfaB, HfcA, HfcB, Hco. repeat split.
  - repeat split;
      eauto using shifted_hasAnyFlag, shifted_hasLongFlag,
        shifted_hasShortFlag, shifted_getLongFlag, shifted_getShortFlag,
        shifted_atEnd.
Qed.

Lemma related_reinvokes :
  forall rA rB g re fl,
    related name v pre post rA rB ->
    reinvokes g re rB fl = reinvokes g re rA fl.
Proof.
  intros rA rB g re fl H.
  destruct (related_observers _ _ H) as (H1 & H2 & H3 & H4 & H5 & H6).
  unfold reinvokes, canReenter. rewrite H1, H3, H4, H5. reflexivity.
Qed.

Lemma related_notOneFlag :
  forall rA rB, related name v pre post rA rB ->
                notOneFlag rB = notOneFlag rA.
Proof.
  intros rA rB H.
  destruct (related_observers _ _ H) as (H1 & H2 & H3 & H4 & H5 & H6).
  unfold notOneFlag. rewrite H2, H3. reflexivity.
Qed.

Lemma related_namesGroup :
  forall rA rB a, related name v pre post rA rB ->
                  namesGroup a rB = namesGroup a rA.
Proof.
  intros rA rB a H.
  destruct (related_observers _ _ H) as (H1 & H2 & H3 & H4 & H5 & H6).
  unfold namesGroup. rewrite H2, H3, H4, H5. reflexivity.
Qed.

(** The cursor of the two readers, at any time: at the same place up to
    the flag, one argument apart after it. *)
Lemma related_tell :
  forall rA rB,
    related name v pre post rA rB ->
    (ArgReader.tell rA <= List.length pre
     /\ ArgReader.tell rB = ArgReader.tell rA)
    \/ (List.length pre < ArgReader.tell rA
        /\ ArgReader.tell rB = S (ArgReader.tell rA)).
Proof.
  intros rA rB [Hb|[Ha|[Hs Hlt]]]; unfold ArgReader.tell.
  - destruct Hb as (_&_&_&_& Hp & Hlt &_). left. lia.
  - destruct Ha as (_&_&_&_& HpA & HpB &_). left. lia.
  - right. split; [assumption|]. destruct Hs as (_ & -> & _). lia.
Qed.

(** A comparison of [tell()] with a position saved earlier comes out the
    same in the two runs. *)
Lemma related_tell_eqb :
  forall rA rB rA' rB',
    related name v pre post rA rB ->
    related name v pre post rA' rB' ->
    ArgReader.tell rA <= ArgReader.tell rA' ->
    (ArgReader.tell rB =? ArgReader.tell rB')%nat
    = (ArgReader.tell rA =? ArgReader.tell rA')%nat
    /\ (ArgReader.tell rB' =? ArgReader.tell rB)%nat
       = (ArgReader.tell rA' =? ArgReader.tell rA)%nat.
Proof.
  intros rA rB rA' rB' H H' Hle.
  destruct (related_tell _ _ H) as [[H1 H2]|[H1 H2]],
           (related_tell _ _ H') as [[H3 H4]|[H3 H4]];
    rewrite H2, H4; split;
    try reflexivity;
    try (destruct (ArgReader.tell rA =? ArgReader.tell rA')%nat eqn:E;
         [apply Nat.eqb_eq in E; apply Nat.eqb_eq; lia
         |apply Nat.eqb_neq in E; apply Nat.eqb_neq; lia]);
    try (destruct (ArgReader.tell rA' =? ArgReader.tell rA)%nat eqn:E;
         [apply Nat.eqb_eq in E; apply Nat.eqb_eq; lia
         |apply Nat.eqb_neq in E; apply Nat.eqb_neq; lia]).
Qed.

(** [parseNextArg] from within the arguments before the flag: the two
    readers move on together, onto an argument before the flag or onto the
    flag. *)
Lemma parseNextArg_in_prefix :
  forall rA rB,
    ArgReader.argv rA = pre ++ attachedForm name v ++ post ->
    ArgReader.argv rB = pre ++ separateForm name v ++ post ->
    ArgReader.argc rA = List.length (ArgReader.argv rA) ->
    ArgReader.argc rB = List.length (ArgReader.argv rB) ->
    ArgReader.position rB = ArgReader.position rA ->
    ArgReader.position rA < List.length pre ->
    ArgReader.charFlags rA = [] ->
    ArgReader.charFlags rB = [] ->
    ArgReader.clearedOut rB = ArgReader.clearedOut rA ->
    match ArgReader.parseNextArg rA, ArgReader.parseNextArg rB with
    | Some rA', Some rB' => related name v pre post rA' rB'
    | None, None => True
    | _, _ => False
    end.
Proof.
  intros [nA avA ckA kA vA faA fcA vsA coA pA cfA]
         [nB avB ckB kB vB faB fcB vsB coB pB cfB].
  reader_fields. intros HavA HavB -> -> -> Hlt -> -> ->.
  destruct argv_lengths as [HlA HlB].
  destruct argv_at_token as (HtA & HtB & _).
  unfold ArgReader.parseNextArg. reader_fields.
  rewrite HavA, HavB, HlA, HlB.
  replace (S (List.length pre + List.length post) <=? pA)%nat with false
    by (symmetry; apply Nat.leb_gt; lia).
  replace (S (List.length pre + List.length post) <=? S pA)%nat with false
    by (symmetry; apply Nat.leb_gt; lia).
  replace (S (S (List.length pre + List.length post)) <=? pA)%nat with false
    by (symmetry; apply Nat.leb_gt; lia).
  replace (S (S (List.length pre + List.length post)) <=? S pA)%nat
    with false by (symmetry; apply Nat.leb_gt; lia).
  destruct (Nat.eq_dec (S pA) (List.length pre)) as [E|E].
  - rewrite E, HtA, HtB. unfold ArgReader.readArgument.
    rewrite !Ascii.eqb_refl. cbn [negb].
    rewrite (splitAtEquals_attached _ v Hname), Hname.
    right; left. unfold atToken. reader_fields.
    rewrite ?HlA, ?HlB. repeat split; reflexivity.
  - destruct (argvA_in_pre (S pA)) as [-> ->]; [lia|].
    destruct (nth_error pre (S pA)) as [arg|] eqn:En;
      [|apply nth_error_None in En; lia].
    rewrite (readArgument_classifies
               (ArgReader.mk _ _ ckA kA vA faA fcA vsA coA pA []) _ arg),
      (readArgument_classifies
         (ArgReader.mk _ _ ckB kB vB faB fcB vsB coA pA []) _ arg).
    reader_fields.
    pose proof (prefix_args (S pA) arg ltac:(lia) En) as Hcf.
    unfold clusterFree in Hcf.
    destruct (ArgReader.readArgument (ArgReader.make 0 []) 0 arg) as [t|]
      eqn:Et; [|exact I].
    destruct (ArgReader.charFlags t) eqn:Eq; [|discriminate].
    left. unfold beforeToken. reader_fields.
    rewrite ?HlA, ?HlB.
    assert (Hinv : S (S pA) = List.length pre ->
                   ArgReader.valueSpecified t = true
                   \/ (ArgReader.flagAbsent t = false
                       /\ forall a,
                           bearsToken
                             (ArgReader.mk
                                (S (List.length pre + List.length post))
                                (pre ++ attachedForm name v ++ post)
                                (ArgReader.charKey t) (ArgReader.key t)
                                (ArgReader.value t) (ArgReader.flagAbsent t)
                                (ArgReader.flagIsCharacter t)
                                (ArgReader.valueSpecified t) coA (S pA) [])
                             a
                           = lastBears pre a)).
    { intro Hlast.
      destruct (ArgReader.valueSpecified t) eqn:Ev; [left; reflexivity|right].
      split; [eapply readArgument_flag; eassumption|].
      intro a. unfold lastBears, pendingFlag. rewrite <- Hlast, En, Et, Ev.
      reflexivity. }
    repeat split; auto; lia.
Qed.

Lemma before_parseNextArg :
  forall rA rB,
    beforeToken name v pre post rA rB ->
    match ArgReader.parseNextArg rA, ArgReader.parseNextArg rB with
    | Some rA', Some rB' => related name v pre post rA' rB'
    | None, None => True
    | _, _ => False
    end.
Proof.
  intros rA rB (H1&H2&H3&H4&H5&H6&H7&H8&H9&H10&H11&H12&H13&H14&H15&H16).
  apply parseNextArg_in_prefix; assumption.
Qed.

(** [nextRawArgument] before the last of the arguments that precede the
    flag: the next argument is still one of them. *)
Lemma before_nextRawArgument :
  forall rA rB,
    beforeToken name v pre post rA rB ->
    S (ArgReader.position rA) < List.length pre ->
    match ArgReader.nextRawArgument rA, ArgReader.nextRawArgument rB with
    | Some (rawA, rA'), Some (rawB, rB') =>
        rawA = rawB /\ beforeToken name v pre post rA' rB'
    | _, _ => False
    end.
Proof.
  intros [nA avA ckA kA vA faA fcA vsA coA pA cfA]
         [nB avB ckB kB vB faB fcB vsB coB pB cfB].
  unfold beforeToken. reader_fields.
  intros (HavA & HavB & HnA & HnB & -> & Hlt & -> & -> & Hlast & -> & -> & ->
          & -> & -> & -> & ->) Hin.
  unfold ArgReader.nextRawArgument. reader_fields.
  rewrite HavA, HavB.
  destruct (argvA_in_pre (S pA) Hin) as [-> ->].
  destruct (nth_error pre (S pA)) as [arg|] eqn:En;
    [|apply nth_error_None in En; lia].
  split; [reflexivity|]. reader_fields.
  rewrite <- HavA, <- HavB. repeat split; auto.
Qed.

(** Before the flag the two readers hold the same token. *)
Lemma before_token :
  forall rA rB,
    beforeToken name v pre post rA rB ->
    ArgReader.hasValue rB = ArgReader.hasValue rA
    /\ ArgReader.getValue rB = ArgReader.getValue rA
    /\ ArgReader.hasMoreArguments rA = true
    /\ ArgReader.hasMoreArguments rB = true.
Proof.
  intros rA rB (HavA & HavB & HnA & HnB & Hp & Hlt & _ & _ & _ & _ & _ & Hv
               & _ & _ & Hvs & _).
  destruct argv_lengths as [HlA HlB].
  unfold ArgReader.hasValue, ArgReader.getValue, ArgReader.hasMoreArguments.
  rewrite Hvs, Hv, HnA, HnB, HavA, HavB, HlA, HlB, Hp.
  repeat split; apply Nat.ltb_lt; lia.
Qed.

(** On the flag the reader holds the long flag [name]. *)
Lemma atToken_long_flag :
  forall rA rB,
    atToken name v pre post rA rB ->
    ArgReader.hasLongFlag rA = true
    /\ ArgReader.hasShortFlag rA = false
    /\ ArgReader.hasAnyFlag rA = true
    /\ ArgReader.getLongFlag rA = name.
Proof.
  intros rA rB (_&_&_&_&_&_&_&_& HkA & _ & _ & HfaA & _ & HfcA & _).
  unfold ArgReader.hasLongFlag, ArgReader.hasShortFlag, ArgReader.hasAnyFlag,
    ArgReader.getLongFlag.
  rewrite HkA, HfaA, HfcA. repeat split.
Qed.

Lemma alike_done :
  forall (R : ArgReader -> ArgReader -> Prop) ok f rA rB,
    R rA rB -> alike R (Done ok f rA) (Done ok f rB).
Proof. intros. cbn [alike]. auto. Qed.

Lemma alike_failed :
  forall (R : ArgReader -> ArgReader -> Prop) f rA rB,
    alike R (Done false f rA) (Done false f rB).
Proof.
  intros. cbn [alike]. split; [reflexivity|]. split; [reflexivity|].
  discriminate.
Qed.

(** After the flag the two runs go on alike, whatever the flag called. *)
Lemma after_alike :
  forall n f rA rB,
    afterToken pre rA rB ->
    alike (related name v pre post) (parseArgsR n f rA) (parseArgsR n f rB).
Proof.
  intros n f rA rB [Hs Hlt].
  pose proof (parseArgsR_shifted 1 n f rA rB Hs) as H.
  destruct (parseArgsR n f rA) as [ok f' rA'| |] eqn:EA;
    destruct (parseArgsR n f rB) as [okB fB rB'| |];
    cbn [sameOutcome] in H; try contradiction; try exact I.
  destruct H as (<- & <- & Hs'). apply alike_done.
  right; right. split; [assumption|].
  apply parseArgsR_tell in EA. unfold ArgReader.tell in EA. lia.
Qed.

(** When the value is pending, a call that takes it leaves the readers
    after the flag. *)
Lemma valueTaken_alike :
  forall oA oB,
    valueTaken (List.length pre) oA oB ->
    alike (related name v pre post) oA oB.
Proof.
  intros [okA fA rA| |] [okB fB rB| |] H; cbn [valueTaken] in H;
    try contradiction; try exact I.
  destruct H as (<- & <- & H). cbn [alike].
  split; [reflexivity|]. split; [reflexivity|].
  intro Hok. right; right. exact (H Hok).
Qed.

(** Flags that bear the name, and the parsers a vector stacks. *)
Lemma valueNamed_construct :
  forall T a, valueNamed name (construct T a) = valueNamedOf name T a.
Proof. induction T; intros a0; simpl; auto. Qed.

Lemma later_valueNamed :
  forall f f', later f f' -> valueNamed name f' = valueNamed name f.
Proof.
  induction f using Flag_tree_ind; intros f' Hl;
    inversion Hl; subst; simpl; auto.
  match goal with HF : Forall2 later _ _ |- _ => rename HF into H2 end.
  f_equal. clear Hl. revert ms' H2.
  induction H as [|x ms Hx Hms IH]; intros ms' H2; inversion H2; subst;
    simpl; [reflexivity|].
  match goal with HF : later x _ |- _ => rewrite (Hx _ HF) end.
  f_equal. auto.
Qed.

Lemma named_addressed :
  forall m,
    String.eqb (getLongName m) name = true -> addressed name m = true.
Proof.
  unfold addressed, getLongName.
  induction m; simpl; intro Hm; auto using orb_true_r.
  - rewrite Hm. reflexivity.
  - rewrite Hm. reflexivity.
  - rewrite Hm. reflexivity.
Qed.

Lemma addressed_element :
  forall T a,
    String.eqb (_longName a) name || hasFlagOf T a name = true ->
    addressed name (construct T a) = true.
Proof.
  unfold addressed.
  induction T; intros a0 Hn; simpl in *; auto using orb_true_r.
  - destruct (String.eqb (_longName a0) name); auto.
  - destruct (String.eqb (_longName a0) name); auto.
  - destruct (String.eqb (_longName a0) name); simpl in *; auto.
    rewrite Hn. reflexivity.
Qed.

Lemma wantsValue_construct :
  forall T a, wantsValue (construct T a) = wantsValue T.
Proof. induction T; intros a0; simpl; auto. Qed.

Lemma quiet_construct :
  forall bears T a, quiet bears (construct T a) = quietOf bears T a.
Proof. induction T; intros a0; simpl; auto. Qed.

Lemma later_quiet :
  forall bears f f', later f f' -> quiet bears f' = quiet bears f.
Proof.
  intros bears.
  induction f using Flag_tree_ind; intros f' Hl;
    inversion Hl; subst; simpl; auto.
  match goal with HF : Forall2 later _ _ |- _ => rename HF into H2 end.
  clear Hl. revert ms' H2.
  induction H as [|x ms Hx Hms IH]; intros ms' H2; inversion H2; subst;
    simpl; [reflexivity|].
  match goal with HF : later x _ |- _ => rewrite (Hx _ HF) end.
  f_equal. auto.
Qed.

Lemma groupLike_wantsValue :
  forall f, groupLike f = true -> wantsValue f = false.
Proof. induction f; simpl; intro Hg; auto; discriminate. Qed.

(** A flag that bears one of the names and is quiet for them wants no
    value. *)
Lemma quietOf_bears :
  forall bears T a,
    bears a = true -> quietOf bears T a = true -> wantsValue T = false.
Proof.
  induction T; intros a0 Hb Hq; simpl in *; eauto.
  rewrite Hb in Hq. discriminate.
Qed.

Lemma quiet_bears :
  forall bears m,
    bears (ctorArgs m) = true -> quiet bears m = true ->
    wantsValue m = false.
Proof.
  induction m; simpl; intros Hb Hq; auto.
  - rewrite Hb in Hq. discriminate.
  - exact (quietOf_bears bears _ _ Hb Hq).
Qed.

(** A vector that can be re-entered on the token the reader holds, and is
    quiet for it, stacks parsers that want no value. *)
Lemma quiet_reentry :
  forall r bears,
    (forall a, bearsToken r a = bears a) ->
    forall T a,
      (if ArgReader.hasShortFlag r
       then hasFlagOfChar T a (ArgReader.getShortFlag r)
       else hasFlagOf T a (ArgReader.getLongFlag r)) = true ->
      quietOf bears T a = true -> wantsValue T = false.
Proof.
  intros r bears Hb. induction T; intros a0 Hh Hq; simpl in *; eauto.
  - exfalso. rewrite <- Hb in Hq. unfold bearsToken in Hq.
    destruct (ArgReader.hasShortFlag r); rewrite Hh in Hq; discriminate.
  - destruct (bears a0) eqn:E; [exact (quietOf_bears bears _ _ E Hq)|].
    rewrite <- Hb in E. unfold bearsToken in E.
    destruct (ArgReader.hasShortFlag r); rewrite E in Hh; eauto.
Qed.

Lemma bearsToken_long :
  forall r a,
    ArgReader.hasLongFlag r = true ->
    bearsToken r a = String.eqb (_longName a) (ArgReader.getLongFlag r).
Proof.
  intros r a H. unfold bearsToken.
  unfold ArgReader.hasLongFlag, ArgReader.hasShortFlag in *.
  destruct (ArgReader.flagAbsent r), (ArgReader.flagIsCharacter r);
    try discriminate; reflexivity.
Qed.

Lemma bearsToken_short :
  forall r a,
    ArgReader.hasLongFlag r = false ->
    ArgReader.flagAbsent r = false ->
    bearsToken r a = Ascii.eqb (_shortName a) (ArgReader.getShortFlag r).
Proof.
  intros r a H Hfa. unfold bearsToken.
  unfold ArgReader.hasLongFlag, ArgReader.hasShortFlag in *.
  rewrite Hfa in *.
  destruct (ArgReader.flagIsCharacter r); try discriminate; reflexivity.
Qed.

(** A reader that awaits a value is before the flag, on the flag token
    [pendingFlag pre]. *)
Lemma awaiting_before :
  forall rA rB,
    related name v pre post rA rB -> awaiting pre rA ->
    ArgReader.flagAbsent rA = false
    /\ forall a, bearsToken rA a = lastBears pre a.
Proof.
  intros rA rB Hr [Hp Hv].
  destruct Hr as [Hb|[Ha|[_ Hlt]]].
  - destruct Hb as (_&_&_&_&_&_&_&_& Hlast & _).
    destruct (Hlast Hp) as [E|E]; [congruence|exact E].
  - destruct Ha as (_&_&_&_& HpA & _). lia.
  - lia.
Qed.

Lemma related_cases :
  forall rA rB,
    related name v pre post rA rB ->
    (beforeToken name v pre post rA rB \/ atToken name v pre post rA rB)
    \/ afterToken pre rA rB.
Proof. intros rA rB [H|[H|H]]; auto. Qed.

(** The scalar parser, before the flag and on it. *)
Lemma SingletonFlag_related :
  forall self a P rA rB,
    beforeToken name v pre post rA rB \/ atToken name v pre post rA rB ->
    ~ awaiting pre rA ->
    alike (related name v pre post)
          (SingletonFlag_parseArgsR self a P rA)
          (SingletonFlag_parseArgsR self a P rB).
Proof.
  intros self a P rA rB [Hb|Ha] Hnw.
  - destruct (before_token _ _ Hb) as (Hv & Hval & HmA & HmB).
    unfold SingletonFlag_parseArgsR. rewrite Hv, Hval, HmA, HmB.
    destruct (ArgReader.hasValue rA) eqn:E.
    + destruct (parse a P (ArgReader.getValue rA)); [|apply alike_failed].
      pose proof (before_parseNextArg _ _ Hb) as Hn.
      destruct (ArgReader.parseNextArg rA), (ArgReader.parseNextArg rB);
        try contradiction; [apply alike_done; assumption|exact I].
    + assert (Hin : S (ArgReader.position rA) < List.length pre).
      { destruct Hb as (_&_&_&_&_& Hlt & _).
        destruct (Nat.eq_dec (S (ArgReader.position rA)) (List.length pre))
          as [Hl|Hl]; [|lia].
        exfalso. apply Hnw. split; assumption. }
      pose proof (before_nextRawArgument _ _ Hb Hin) as Hr.
      destruct (ArgReader.nextRawArgument rA) as [[rawA r1A]|],
               (ArgReader.nextRawArgument rB) as [[rawB r1B]|];
        try contradiction.
      destruct Hr as [<- Hb1].
      destruct (parse a P rawA); [|apply alike_failed].
      pose proof (before_parseNextArg _ _ Hb1) as Hn.
      destruct (ArgReader.parseNextArg r1A), (ArgReader.parseNextArg r1B);
        try contradiction; [apply alike_done; assumption|exact I].
  - apply valueTaken_alike.
    pose proof (SingletonFlag_value_pending self a P v rA rB
                  (atToken_valuePending _ _ Ha)) as H.
    destruct Ha as (_&_&_&_& HpA & _). rewrite HpA in H. exact H.
Qed.

(** The switch, before the flag. *)
Lemma Switch_before :
  forall a p rA rB,
    beforeToken name v pre post rA rB ->
    alike (related name v pre post)
          (Switch_parseArgsR a p rA) (Switch_parseArgsR a p rB).
Proof.
  intros a p rA rB Hb.
  destruct (before_token _ _ Hb) as (Hv & _).
  unfold Switch_parseArgsR. rewrite Hv.
  destruct (ArgReader.hasValue rA); [apply alike_failed|].
  pose proof (before_parseNextArg _ _ Hb) as Hn.
  destruct (ArgReader.parseNextArg rA), (ArgReader.parseNextArg rB);
    try contradiction; [apply alike_done; assumption|exact I].
Qed.

(** The loop of a group, at any time of the two runs, when each call on a
    member goes alike. *)
Lemma groupLoop_related (inv : Flag -> ArgReader -> Outcome) :
  (forall m rA rB,
      related name v pre post rA rB ->
      valueNamed name m = true ->
      quiet (lastBears pre) m = true ->
      (atToken name v pre post rA rB -> addressed name m = true) ->
      (awaiting pre rA -> wantsValue m = false) ->
      alike (related name v pre post) (inv m rA) (inv m rB)) ->
  (forall m r ok m' r', inv m r = Done ok m' r' ->
                        ArgReader.tell r <= ArgReader.tell r') ->
  (forall m r ok m' r', inv m r = Done ok m' r' -> later m m') ->
  forall k a ms rA rB,
    related name v pre post rA rB ->
    valueNamed name (FlagGroup a ms) = true ->
    quiet (lastBears pre) (FlagGroup a ms) = true ->
    alike (related name v pre post)
          (groupLoop inv k a ms rA) (groupLoop inv k a ms rB).
Proof.
  intros Hinv Htell Hlater k.
  induction k as [|k IH]; intros a ms rA rB Hr Hvn Hq; cbn [groupLoop];
    [exact I|].
  destruct (related_observers _ _ Hr) as (_ & HL & _ & HG & HS & HE).
  rewrite HE, HL, HG, HS.
  destruct (ArgReader.atEnd rA); [apply alike_done; assumption|].
  assert (Hms : forall i m, nth_error ms i = Some m ->
                            valueNamed name m = true).
  { intros i m Hnth. simpl in Hvn. apply andb_true_iff in Hvn.
    destruct Hvn as [_ Hall]. rewrite forallb_forall in Hall.
    apply Hall. eapply nth_error_In; eassumption. }
  assert (Hqs : forall i m, nth_error ms i = Some m ->
                            quiet (lastBears pre) m = true).
  { intros i m Hnth. simpl in Hq. rewrite forallb_forall in Hq.
    apply Hq. eapply nth_error_In; eassumption. }
  assert (Hnext : forall i m m',
             nth_error ms i = Some m -> later m m' ->
             valueNamed name (FlagGroup a (setMember ms i m')) = true
             /\ quiet (lastBears pre) (FlagGroup a (setMember ms i m'))
                = true).
  { intros i m m' Hnth Hl.
    assert (Hg : later (FlagGroup a ms) (FlagGroup a (setMember ms i m'))).
    { constructor. eapply Forall2_later_setMember; eassumption. }
    rewrite (later_valueNamed _ _ Hg), (later_quiet _ _ _ Hg). auto. }
  destruct (ArgReader.hasLongFlag rA) eqn:EL.
  - destruct (membersByLongName ms (ArgReader.getLongFlag rA)) as [i|] eqn:Ei;
      [|apply alike_done; assumption].
    destruct (membersByLongName_found _ _ _ Ei) as (m & Hnth & _ & Hnm).
    rewrite Hnth.
    destruct (atCapacity m); [apply alike_done; assumption|].
    assert (Hadd : atToken name v pre post rA rB -> addressed name m = true).
    { intro Ha. destruct (atToken_long_flag _ _ Ha) as (_ & _ & _ & Hk).
      rewrite Hk in Hnm. apply named_addressed. assumption. }
    assert (Hw : awaiting pre rA -> wantsValue m = false).
    { intro Haw. destruct (awaiting_before _ _ Hr Haw) as (_ & Hbt).
      apply (quiet_bears (lastBears pre)); [|eapply Hqs; eassumption].
      rewrite <- Hbt, (bearsToken_long _ _ EL). exact Hnm. }
    pose proof (Hinv m rA rB Hr (Hms _ _ Hnth) (Hqs _ _ Hnth) Hadd Hw)
      as Hi.
    destruct (inv m rA) as [ok m' rA'| |] eqn:EA;
      destruct (inv m rB) as [okB mB rB'| |];
      cbn [alike] in Hi; try contradiction; try exact I.
    destruct Hi as (<- & <- & Hr').
    destruct ok; [|apply alike_failed].
    specialize (Hr' eq_refl).
    rewrite (proj2 (related_tell_eqb _ _ _ _ Hr Hr'
                      (Htell _ _ _ _ _ EA))).
    destruct (ArgReader.tell rA' =? ArgReader.tell rA)%nat;
      [apply alike_done; assumption|].
    destruct (Hnext i m m' Hnth (Hlater _ _ _ _ _ EA)) as [Hv' Hq'].
    apply IH; assumption.
  - destruct (membersByShortName ms (ArgReader.getShortFlag rA)) as [i|] eqn:Ei;
      [|apply alike_done; assumption].
    destruct (membersByShortName_found _ _ _ Ei) as (m & Hnth & _ & Hnm).
    rewrite Hnth.
    destruct (atCapacity m); [apply alike_done; assumption|].
    assert (Hadd : atToken name v pre post rA rB -> addressed name m = true).
    { intro Ha. destruct (atToken_long_flag _ _ Ha) as (Hl & _).
      rewrite Hl in EL. discriminate. }
    assert (Hw : awaiting pre rA -> wantsValue m = false).
    { intro Haw. destruct (awaiting_before _ _ Hr Haw) as (Hfa & Hbt).
      apply (quiet_bears (lastBears pre)); [|eapply Hqs; eassumption].
      rewrite <- Hbt, (bearsToken_short _ _ EL Hfa). exact Hnm. }
    pose proof (Hinv m rA rB Hr (Hms _ _ Hnth) (Hqs _ _ Hnth) Hadd Hw)
      as Hi.
    destruct (inv m rA) as [ok m' rA'| |] eqn:EA;
      destruct (inv m rB) as [okB mB rB'| |];
      cbn [alike] in Hi; try contradiction; try exact I.
    destruct Hi as (<- & <- & Hr').
    destruct ok; [|apply alike_failed].
    specialize (Hr' eq_refl).
    destruct (Hnext i m m' Hnth (Hlater _ _ _ _ _ EA)) as [Hv' Hq'].
    apply IH; assumption.
Qed.

(** Every flag of a tree in which the name belongs to flags that take a
    value parses alike in the two runs, at any time. *)
Lemma parseArgsR_related :
  forall n f rA rB,
    related name v pre post rA rB ->
    valueNamed name f = true ->
    quiet (lastBears pre) f = true ->
    (atToken name v pre post rA rB -> addressed name f = true) ->
    (awaiting pre rA -> wantsValue f = false) ->
    alike (related name v pre post) (parseArgsR n f rA) (parseArgsR n f rB).
Proof.
  induction n as [|n IH]; intros f rA rB Hr Hvn Hq Hadd Hw; [exact I|].
  destruct (related_cases _ _ Hr) as [Hba|Haf];
    [|apply after_alike; assumption].
  destruct f as [a P p v0|a p|v0|a g re T e vs|a ms].
  - rewrite !parseArgsR_primitive.
    apply SingletonFlag_related; [assumption|].
    intro Haw. specialize (Hw Haw). discriminate.
  - rewrite !parseArgsR_switch.
    destruct Hba as [Hb|Ha]; [apply Switch_before; assumption|].
    exfalso. specialize (Hadd Ha). unfold addressed in Hadd.
    simpl in Hadd, Hvn. rewrite orb_false_r in Hadd. rewrite Hadd in Hvn.
    discriminate.
  - rewrite !parseArgsR_flag.
    pose proof (IH v0 rA rB Hr Hvn Hq Hadd Hw) as Hi.
    destruct (parseArgsR n v0 rA) as [ok v' rA'| |];
      destruct (parseArgsR n v0 rB) as [okB vB rB'| |];
      cbn [alike] in Hi |- *; try contradiction; try exact I.
    destruct Hi as (<- & <- & Hr'). auto.
  - rewrite !parseArgsR_vector.
    assert (Hel : valueNamed name (newFlag a T) = true).
    { unfold newFlag. rewrite valueNamed_construct. exact Hvn. }
    assert (Hadd_el : atToken name v pre post rA rB ->
                      addressed name (newFlag a T) = true).
    { intro Ha. apply addressed_element. specialize (Hadd Ha).
      unfold addressed in Hadd. simpl in Hadd.
      rewrite orb_false_r in Hadd. exact Hadd. }
    assert (Hq_el : quiet (lastBears pre) (newFlag a T) = true).
    { unfold newFlag. rewrite quiet_construct. exact Hq. }
    assert (Hw_el : awaiting pre rA -> wantsValue (newFlag a T) = false).
    { intro Haw. unfold newFlag. rewrite wantsValue_construct.
      exact (Hw Haw). }
    pose proof (IH (newFlag a T) rA rB Hr Hel Hq_el Hadd_el Hw_el) as Hi.
    destruct (parseArgsR n (newFlag a T) rA) as [ok fl rA'| |] eqn:EA;
      destruct (parseArgsR n (newFlag a T) rB) as [okB flB rB'| |];
      cbn [alike] in Hi; try contradiction; try exact I.
    destruct Hi as (<- & <- & Hr').
    destruct ok; [|apply alike_failed].
    specialize (Hr' eq_refl).
    rewrite (proj1 (related_tell_eqb _ _ _ _ Hr Hr'
                      (parseArgsR_tell _ _ _ _ _ _ EA))).
    destruct (ArgReader.tell rA =? ArgReader.tell rA')%nat;
      [apply alike_done; assumption|].
    rewrite (related_reinvokes _ _ g re fl Hr').
    destruct (reinvokes g re rA' fl) eqn:Ere;
      [|apply alike_done; assumption].
    pose proof (parseArgsR_later _ _ _ _ _ _ EA) as Hfl.
    apply IH; [assumption|exact Hvn|exact Hq| |].
    + intro Ha'.
      destruct (atToken_long_flag _ _ Ha') as (_ & Hsh & Hany & Hk).
      unfold reinvokes, canReenter in Ere. rewrite Hany, Hsh, Hk in Ere.
      apply andb_true_iff in Ere. destruct Ere as [_ Ere].
      destruct (negb re); [discriminate|]. simpl in Ere.
      unfold addressed. simpl.
      rewrite (proj1 (hasFlagOf_newFlag T a name)),
        <- (later_hasFlag _ _ Hfl), Ere.
      rewrite orb_true_r. reflexivity.
    + intro Haw. destruct (awaiting_before _ _ Hr' Haw) as (Hfa & Hbt).
      unfold reinvokes, canReenter, ArgReader.hasAnyFlag in Ere.
      rewrite Hfa in Ere.
      apply andb_true_iff in Ere. destruct Ere as [_ Ere].
      destruct (negb re); [discriminate|]. simpl in Ere.
      rewrite (later_hasFlag _ _ Hfl), (later_hasFlagChar _ _ Hfl),
        <- (proj1 (hasFlagOf_newFlag T a _)),
        <- (proj2 (hasFlagOf_newFlag T a EmptyString)) in Ere.
      simpl. exact (quiet_reentry rA' _ Hbt T a Ere Hq).
  - rewrite !parseArgsR_group. unfold FlagGroup_parseArgsR.
    rewrite (related_notOneFlag _ _ Hr), (related_namesGroup _ _ a Hr).
    destruct (notOneFlag rA); [apply alike_failed|].
    destruct (namesGroup a rA) eqn:Eng.
    + destruct Hba as [Hb|Ha].
      * pose proof (before_parseNextArg _ _ Hb) as Hn.
        destruct (ArgReader.parseNextArg rA), (ArgReader.parseNextArg rB);
          try contradiction; [|exact I].
        apply groupLoop_related;
          eauto using parseArgsR_tell, parseArgsR_later.
      * exfalso.
        destruct (atToken_long_flag _ _ Ha) as (_ & Hsh & _ & Hk).
        unfold namesGroup in Eng. rewrite Hsh, Hk in Eng.
        simpl in Hvn. apply andb_true_iff in Hvn. destruct Hvn as [Hne _].
        apply negb_true_iff in Hne. rewrite Hne in Eng.
        rewrite !andb_false_r in Eng. discriminate.
    + apply groupLoop_related;
        eauto using parseArgsR_tell, parseArgsR_later.
Qed.

(** The two runs from [main]: the flag with its value attached gives what
    the flag followed by its value gives, wherever it stands. *)
Lemma parseArgv_anywhere :
  forall fuel f,
    groupLike f = true ->
    valueNamed name f = true ->
    quiet (lastBears pre) f = true ->
    parseArgv fuel f (pre ++ attachedForm name v ++ post)
    = parseArgv fuel f (pre ++ separateForm name v ++ post).
Proof.
  intros fuel f Hg Hvn Hq. unfold parseArgv, parseArgs.
  destruct argv_lengths as [HlA HlB]. rewrite HlA, HlB.
  pose proof prefix_length as Hlen.
  replace (Z.of_nat (S (List.length pre + List.length post)) <? 2)%Z
    with false by (symmetry; apply Z.ltb_ge; lia).
  replace (Z.of_nat (S (S (List.length pre + List.length post))) <? 2)%Z
    with false by (symmetry; apply Z.ltb_ge; lia).
  unfold ArgReader.make.
  replace (Z.of_nat (S (List.length pre + List.length post)) <? 0)%Z
    with false by (symmetry; apply Z.ltb_ge; lia).
  replace (Z.of_nat (S (S (List.length pre + List.length post))) <? 0)%Z
    with false by (symmetry; apply Z.ltb_ge; lia).
  rewrite !Nat2Z.id.
  match goal with
  | |- context [ArgReader.parseNextArg ?rA] =>
      match goal with
      | |- _ = match ArgReader.parseNextArg ?rB with _ => _ end =>
          pose proof (parseNextArg_in_prefix rA rB) as Hn
      end
  end.
  reader_fields.
  specialize (Hn eq_refl eq_refl (eq_sym HlA) (eq_sym HlB) eq_refl Hlen
                 eq_refl eq_refl eq_refl).
  match type of Hn with
  | match ArgReader.parseNextArg ?rA with _ => _ end =>
      destruct (ArgReader.parseNextArg rA) as [rA'|] eqn:EA
  end;
  match type of Hn with
  | match ArgReader.parseNextArg ?rB with _ => _ end =>
      destruct (ArgReader.parseNextArg rB) as [rB'|] eqn:EB
  end; try contradiction; [|reflexivity].
  assert (Ha : atToken name v pre post rA' rB' -> addressed name f = true).
  { intros _. unfold addressed. rewrite Hg. apply orb_true_r. }
  pose proof (parseArgsR_related fuel f rA' rB' Hn Hvn Hq Ha
                (fun _ => groupLike_wantsValue f Hg)) as H.
  destruct (parseArgsR fuel f rA') as [ok f' rA1| |];
    destruct (parseArgsR fuel f rB') as [okB fB rB1| |];
    cbn [alike] in H; try contradiction; try reflexivity.
  destruct H as (<- & <- & Hr). destruct ok; [|reflexivity].
  destruct (related_observers _ _ (Hr eq_refl)) as (_&_&_&_&_& HE).
  rewrite HE. reflexivity.
Qed.

End TwoRuns.


(* ------------------------------------------------------------------ *)
(** ** The three ways of giving a value *)




(* ================================================================== *)
(** * Further properties of the code *)

(* ------------------------------------------------------------------ *)
(** ** The members of a group and its two maps *)

Section StdMapFacts.

Variables K V : Type.
Variable eqb : K -> K -> bool.
Hypothesis eqb_eq : forall x y, eqb x y = true <-> x = y.

(** [find] after an assignment. *)
Lemma mapFind_mapAssign :
  forall (m : list (K * V)) k v k',
    mapFind eqb (mapAssign eqb m k v) k'
    = if eqb k k' then Some v else mapFind eqb m k'.
Proof.
  induction m as [|[k0 v0] m IH]; intros k v k'; simpl; [reflexivity|].
  destruct (eqb k0 k) eqn:E; simpl.
  - apply eqb_eq in E. subst k0.
    destruct (eqb k k'); reflexivity.
  - rewrite IH. destruct (eqb k0 k') eqn:E0; [|reflexivity].
    destruct (eqb k k') eqn:E1; [|reflexivity].
    apply eqb_eq in E0, E1. subst.
    assert (eqb k' k' = true) by (apply eqb_eq; reflexivity). congruence.
Qed.

End StdMapFacts.

(** The containers of a group after more members have been added. *)
Lemma addFlag_fold :
  forall ms g,
    fieldMembers (fold_left addFlag ms g) = fieldMembers g ++ ms
    /\ (forall name,
           mapFind String.eqb
                   (fieldMembersByLongName (fold_left addFlag ms g)) name
           = match membersByLongName ms name with
             | Some j => Some (List.length (fieldMembers g) + j)
             | None => mapFind String.eqb (fieldMembersByLongName g) name
             end)
    /\ (forall c,
           mapFind Ascii.eqb
                   (fieldMembersByShortName (fold_left addFlag ms g)) c
           = match membersByShortName ms c with
             | Some j => Some (List.length (fieldMembers g) + j)
             | None => mapFind Ascii.eqb (fieldMembersByShortName g) c
             end).
Proof.
  induction ms as [|m ms IH]; intro g; simpl.
  - rewrite app_nil_r. auto.
  - destruct (IH (addFlag g m)) as (Hm & Hl & Hs).
    rewrite Hm. cbn [addFlag fieldMembers]. rewrite <- app_assoc.
    split; [reflexivity|]. split.
    + intro name. rewrite Hl. cbn [addFlag fieldMembers fieldMembersByLongName].
      rewrite length_app. simpl.
      destruct (membersByLongName ms name) as [j|];
        [f_equal; lia|].
      destruct (hasLongName m); simpl.
      * rewrite (mapFind_mapAssign _ _ String.eqb String.eqb_eq).
        destruct (String.eqb (getLongName m) name);
          [f_equal; lia|reflexivity].
      * reflexivity.
    + intro c. rewrite Hs.
      cbn [addFlag fieldMembers fieldMembersByShortName].
      rewrite length_app. simpl.
      destruct (membersByShortName ms c) as [j|];
        [f_equal; lia|].
      destruct (hasShortName m); simpl.
      * rewrite (mapFind_mapAssign _ _ Ascii.eqb Ascii.eqb_eq).
        destruct (Ascii.eqb (getShortName m) c);
          [f_equal; lia|reflexivity].
      * reflexivity.
Qed.

(** X1. [addFlag], called for each member in the order of the
    declarations, leaves the members in that order and builds the two maps
    that the parser consults: [find] on [membersByLongName] and on
    [membersByShortName] gives the position that the functions
    [membersByLongName] and [membersByShortName] of this development
    compute from the list of members. *)
Theorem addFlag_builds_the_indices :
  forall ms,
    fieldMembers (declare ms) = ms
    /\ (forall name,
           mapFind String.eqb (fieldMembersByLongName (declare ms)) name
           = membersByLongName ms name)
    /\ (forall c,
           mapFind Ascii.eqb (fieldMembersByShortName (declare ms)) c
           = membersByShortName ms c).
Proof.
  intro ms. unfold declare.
  destruct (addFlag_fold ms noMembers) as (Hm & Hl & Hs).
  split; [exact Hm|]. split.
  - intro name. rewrite Hl.
    destruct (membersByLongName ms name); reflexivity.
  - intro c. rewrite Hs.
    destruct (membersByShortName ms c); reflexivity.
Qed.

(** What the index of long names finds. *)
Lemma membersByLongName_none :
  forall ms name,
    membersByLongName ms name = None ->
    forall j m,
      nth_error ms j = Some m ->
      hasLongName m && String.eqb (getLongName m) name = false.
Proof.
  induction ms as [|x ms IH]; intros name H [|j] m Hnth; simpl in *;
    try discriminate.
  - inversion Hnth; subst.
    destruct (membersByLongName ms name); [discriminate|].
    destruct (hasLongName m && String.eqb (getLongName m) name);
      [discriminate|reflexivity].
  - destruct (membersByLongName ms name) eqn:E; [discriminate|].
    eapply IH; eauto.
Qed.

Lemma membersByLongName_last :
  forall ms name i,
    membersByLongName ms name = Some i ->
    forall j m,
      i < j -> nth_error ms j = Some m ->
      hasLongName m && String.eqb (getLongName m) name = false.
Proof.
  induction ms as [|x ms IH]; intros name i H j m Hlt Hnth;
    simpl in H; [discriminate|].
  destruct j as [|j]; [lia|]. simpl in Hnth.
  destruct (membersByLongName ms name) as [k|] eqn:E.
  - inversion H; subst. apply (IH name k E j m); [lia|assumption].
  - apply (membersByLongName_none ms name E j m Hnth).
Qed.

(** X2. A long name finds the member declared last among those that bear
    it: a member declared earlier under the same name is never reached by
    the parser.  A long name that finds nothing is borne by no member.
    And the empty name finds nothing, so a member without a long name is
    reached by its short name only. *)
Theorem long_name_finds_last_declared :
  forall ms name,
    match membersByLongName ms name with
    | Some i =>
        exists m,
          nth_error ms i = Some m
          /\ getLongName m = name
          /\ name <> ""
          /\ forall j m',
              i < j -> nth_error ms j = Some m' ->
              getLongName m' <> name
    | None =>
        name = ""
        \/ forall j m', nth_error ms j = Some m' -> getLongName m' <> name
    end.
Proof.
  intros ms name.
  destruct (membersByLongName ms name) as [i|] eqn:E.
  - destruct (membersByLongName_found _ _ _ E) as (m & Hnth & Hhas & Hnm).
    apply String.eqb_eq in Hnm.
    assert (Hne : name <> "").
    { intro Hn. subst name. unfold hasLongName in Hhas. rewrite Hn in Hhas.
      discriminate. }
    exists m. repeat split; auto.
    intros j m' Hlt Hnth' Heq.
    pose proof (membersByLongName_last _ _ _ E j m' Hlt Hnth') as Hl.
    unfold hasLongName in Hl. rewrite Heq, String.eqb_refl in Hl.
    destruct name; [congruence|discriminate].
  - destruct name as [|c name]; [left; reflexivity|right].
    intros j m' Hnth' Heq.
    pose proof (membersByLongName_none _ _ E j m' Hnth') as Hl.
    unfold hasLongName in Hl. rewrite Heq, String.eqb_refl in Hl.
    discriminate.
Qed.

(* ------------------------------------------------------------------ *)
(** ** What the reader makes of an argument *)

Lemma parseNextArg_next :
  forall r arg,
    ArgReader.charFlags r = [] ->
    S (ArgReader.position r) < ArgReader.argc r ->
    nth_error (ArgReader.argv r) (S (ArgReader.position r)) = Some arg ->
    ArgReader.parseNextArg r
    = ArgReader.readArgument r (S (ArgReader.position r)) arg.
Proof.
  intros r arg Hq Hlt Hnth. unfold ArgReader.parseNextArg.
  rewrite Hq, Hnth.
  replace (ArgReader.argc r <=? ArgReader.position r)%nat with false
    by (symmetry; apply Nat.leb_gt; lia).
  replace (ArgReader.argc r <=? S (ArgReader.position r))%nat with false
    by (symmetry; apply Nat.leb_gt; lia).
  reflexivity.
Qed.

Lemma parseNextArg_last :
  forall r,
    ArgReader.charFlags r = [] ->
    S (ArgReader.position r) = ArgReader.argc r ->
    ArgReader.parseNextArg r
    = Some (ArgReader.mk (ArgReader.argc r) (ArgReader.argv r) NUL "" ""
                         false false false true (ArgReader.argc r) []).
Proof.
  intros r Hq Hp. unfold ArgReader.parseNextArg. rewrite Hq, <- Hp.
  replace (S (ArgReader.position r) <=? ArgReader.position r)%nat
    with false by (symmetry; apply Nat.leb_gt; lia).
  rewrite Nat.leb_refl. reflexivity.
Qed.

Lemma readArgument_bare :
  forall r pos arg,
    isBare arg = true ->
    ArgReader.readArgument r pos arg
    = Some (ArgReader.mk (ArgReader.argc r) (ArgReader.argv r) NUL "" arg
                         true false true (ArgReader.clearedOut r) pos []).
Proof.
  intros r pos [|c0 rest0] H; simpl in *; [reflexivity|].
  rewrite H. reflexivity.
Qed.

Lemma readArgument_long :
  forall r pos name,
    ArgReader.splitAtEquals name = None ->
    ArgReader.readArgument r pos (String dash (String dash name))
    = Some (ArgReader.mk (ArgReader.argc r) (ArgReader.argv r) NUL name ""
                         false false false (ArgReader.clearedOut r) pos []).
Proof.
  intros r pos name H. unfold ArgReader.readArgument.
  rewrite Ascii.eqb_refl. cbn [negb]. rewrite H. reflexivity.
Qed.

Lemma readArgument_long_value :
  forall r pos name v,
    ArgReader.splitAtEquals name = None ->
    ArgReader.readArgument r pos
      (String dash (String dash (name ++ String equalsSign v)))
    = Some (ArgReader.mk (ArgReader.argc r) (ArgReader.argv r) NUL name v
                         false false true (ArgReader.clearedOut r) pos []).
Proof.
  intros r pos name v H. unfold ArgReader.readArgument.
  rewrite Ascii.eqb_refl. cbn [negb].
  rewrite (splitAtEquals_attached _ v H). reflexivity.
Qed.

Lemma readArgument_short :
  forall r pos c cs,
    Ascii.eqb c dash = false ->
    ArgReader.readArgument r pos (String dash (String c cs))
    = Some (ArgReader.mk (ArgReader.argc r) (ArgReader.argv r) c "" ""
                         false true false (ArgReader.clearedOut r) pos
                         (ArgReader.charsOf cs)).
Proof.
  intros r pos c cs H. unfold ArgReader.readArgument.
  rewrite Ascii.eqb_refl. cbn [negb]. rewrite H. reflexivity.
Qed.

(** The text of a long flag is cut at its first [=]. *)
Lemma splitAtEquals_cut :
  forall s k v,
    ArgReader.splitAtEquals s = Some (k, v) ->
    s = (k ++ String equalsSign v)%string
    /\ ArgReader.splitAtEquals k = None.
Proof.
  induction s as [|c s IH]; intros k v H; simpl in H; [discriminate|].
  destruct (Ascii.eqb c equalsSign) eqn:E.
  - inversion H; subst. apply Ascii.eqb_eq in E. subst c.
    split; reflexivity.
  - destruct (ArgReader.splitAtEquals s) as [[k0 v0]|] eqn:Es;
      [|discriminate].
    inversion H; subst. destruct (IH k0 v eq_refl) as [-> Hk].
    split; [reflexivity|]. simpl. rewrite E, Hk. reflexivity.
Qed.

(** The short flags pending in a cluster come out one call at a time. *)
Lemma pending_flags_in_order :
  forall k r,
    k <= List.length (ArgReader.charFlags r) ->
    ArgReader.hasShortFlag r = true ->
    ArgReader.hasValue r = false ->
    exists rk,
      parseNextArgs k r = Some rk
      /\ ArgReader.hasShortFlag rk = true
      /\ ArgReader.getShortFlag rk
         = nth k (ArgReader.getShortFlag r :: ArgReader.charFlags r) NUL
      /\ ArgReader.hasValue rk = false
      /\ ArgReader.tell rk = ArgReader.tell r
      /\ ArgReader.charFlags rk = skipn k (ArgReader.charFlags r)
      /\ ArgReader.atEnd rk = ArgReader.atEnd r.
Proof.
  induction k as [|k IH]; intros r Hk Hs Hv.
  - exists r. simpl. repeat split; auto.
  - destruct (ArgReader.charFlags r) as [|c q] eqn:Eq; [simpl in Hk; lia|].
    cbn [parseNextArgs]. unfold ArgReader.parseNextArg. rewrite Eq.
    match goal with
    | |- context [parseNextArgs k ?r1] =>
        destruct (IH r1) as (rk & H1 & H2 & H3 & H4 & H5 & H6 & H7);
          [simpl in *; lia|reflexivity|reflexivity|]
    end.
    exists rk. split; [exact H1|]. cbn in H3, H5, H6, H7.
    repeat split; auto.
Qed.

(** X3. A cluster [-c1c2...cn] is read as the short flags [c1], ..., [cn]
    in this order, one for each call of [parseNextArg]: the first call
    moves the cursor to the argument, the following calls leave it there,
    and none of the flags carries a value. *)
Theorem cluster_read_one_flag_at_a_time :
  forall r c cs k,
    ArgReader.charFlags r = [] ->
    S (ArgReader.position r) < ArgReader.argc r ->
    nth_error (ArgReader.argv r) (S (ArgReader.position r))
    = Some (String dash (String c cs)) ->
    Ascii.eqb c dash = false ->
    k <= String.length cs ->
    exists rk,
      parseNextArgs (S k) r = Some rk
      /\ ArgReader.hasShortFlag rk = true
      /\ ArgReader.getShortFlag rk = nth k (c :: ArgReader.charsOf cs) NUL
      /\ ArgReader.hasValue rk = false
      /\ ArgReader.tell rk = S (ArgReader.position r)
      /\ ArgReader.charFlags rk = skipn k (ArgReader.charsOf cs).
Proof.
  intros r c cs k Hq Hlt Hnth Hc Hk.
  cbn [parseNextArgs].
  rewrite (parseNextArg_next r _ Hq Hlt Hnth), (readArgument_short _ _ _ _ Hc).
  match goal with
  | |- context [parseNextArgs k ?r1] =>
      destruct (pending_flags_in_order k r1)
        as (rk & H1 & H2 & H3 & H4 & H5 & H6 & _);
        [cbn; rewrite charsOf_length; exact Hk|reflexivity|reflexivity|]
  end.
  exists rk. cbn in H3, H5, H6. repeat split; auto.
Qed.

Lemma cluster_read_one_flag_at_a_time_witness :
  exists rk,
    parseNextArgs 3 (ArgReader.make 2 ["prog"; "-l=x"]) = Some rk
    /\ ArgReader.hasShortFlag rk = true
    /\ ArgReader.getShortFlag rk = "x"%char
    /\ ArgReader.hasValue rk = false
    /\ ArgReader.tell rk = 1
    /\ ArgReader.charFlags rk = [].
Proof.
  apply (cluster_read_one_flag_at_a_time
           (ArgReader.make 2 ["prog"; "-l=x"]) "l"%char "=x" 2);
    solve [reflexivity | simpl; lia].
Defined.

(** X4. After [parseNextArg] the reader holds one of: a bare value and no
    flag; a long flag, with a value when the argument has an [=]; a short
    flag, never with a value.  When it holds a value and no flag, the
    value is the whole argument, which does not start with a dash. *)
Theorem token_kinds :
  forall r r',
    ArgReader.parseNextArg r = Some r' ->
    (ArgReader.hasShortFlag r' = true -> ArgReader.hasValue r' = false)
    /\ (ArgReader.hasAnyFlag r' = false ->
        ArgReader.hasValue r' = true
        /\ isBare (ArgReader.getValue r') = true
        /\ nth_error (ArgReader.argv r') (ArgReader.tell r')
           = Some (ArgReader.getValue r'))
    /\ (ArgReader.hasAnyFlag r' = true ->
        ArgReader.hasLongFlag r' = negb (ArgReader.hasShortFlag r')).
Proof.
  intros r r' H. unfold ArgReader.parseNextArg in H.
  unfold ArgReader.hasShortFlag, ArgReader.hasLongFlag, ArgReader.hasAnyFlag,
    ArgReader.hasValue, ArgReader.getValue, ArgReader.tell.
  destruct (ArgReader.charFlags r) as [|c q].
  - destruct (ArgReader.argc r <=? ArgReader.position r)%nat;
      [inversion H; subst; cbn; repeat split; auto; discriminate|].
    destruct (ArgReader.argc r <=? S (ArgReader.position r))%nat;
      [inversion H; subst; cbn; repeat split; auto; discriminate|].
    destruct (nth_error (ArgReader.argv r) (S (ArgReader.position r)))
      as [arg|] eqn:En; [|discriminate].
    unfold ArgReader.readArgument in H.
    destruct arg as [|c0 rest0].
    + inversion H; subst; cbn. repeat split; auto; discriminate.
    + destruct (negb (Ascii.eqb c0 dash)) eqn:E0.
      * inversion H; subst; cbn. rewrite E0.
        repeat split; auto; discriminate.
      * destruct rest0 as [|c1 rest1]; [discriminate|].
        destruct (Ascii.eqb c1 dash).
        -- destruct (ArgReader.splitAtEquals rest1) as [[k w]|];
             inversion H; subst; cbn; repeat split; auto; discriminate.
        -- inversion H; subst; cbn. repeat split; auto; discriminate.
  - inversion H; subst; cbn. repeat split; auto; discriminate.
Qed.

Lemma token_kinds_witness :
  ArgReader.hasValue (firstToken ["prog"; "-l=x"]) = false.
Proof.
  apply (proj1 (token_kinds (ArgReader.make 2 ["prog"; "-l=x"])
                            (firstToken ["prog"; "-l=x"]) eq_refl)).
  reflexivity.
Defined.

(** X5. A long flag [--text] is cut at the first [=] of [text]: the reader
    holds the part before it as the flag, which has no [=], and the part
    after it as the value; without any [=] the flag is the whole text and
    there is no value.  Flag, [=] and value put together give the text
    back. *)
Theorem long_flag_cut_at_first_equals :
  forall r text,
    ArgReader.charFlags r = [] ->
    S (ArgReader.position r) < ArgReader.argc r ->
    nth_error (ArgReader.argv r) (S (ArgReader.position r))
    = Some (String dash (String dash text)) ->
    exists r',
      ArgReader.parseNextArg r = Some r'
      /\ ArgReader.hasLongFlag r' = true
      /\ ArgReader.splitAtEquals (ArgReader.getLongFlag r') = None
      /\ text
         = (if ArgReader.hasValue r'
            then (ArgReader.getLongFlag r'
                  ++ String equalsSign (ArgReader.getValue r'))%string
            else ArgReader.getLongFlag r')
      /\ ArgReader.tell r' = S (ArgReader.position r).
Proof.
  intros r text Hq Hlt Hnth.
  rewrite (parseNextArg_next r _ Hq Hlt Hnth).
  unfold ArgReader.readArgument. rewrite Ascii.eqb_refl. cbn [negb].
  destruct (ArgReader.splitAtEquals text) as [[k w]|] eqn:E.
  - destruct (splitAtEquals_cut _ _ _ E) as [Ht Hk].
    eexists. split; [reflexivity|]. cbn. repeat split; auto.
  - eexists. split; [reflexivity|]. cbn. repeat split; auto.
Qed.

Lemma long_flag_cut_at_first_equals_witness :
  exists r',
    ArgReader.parseNextArg (ArgReader.make 2 ["prog"; "--a=b=c"]) = Some r'
    /\ ArgReader.hasLongFlag r' = true
    /\ ArgReader.splitAtEquals (ArgReader.getLongFlag r') = None
    /\ "a=b=c"
       = (if ArgReader.hasValue r'
          then (ArgReader.getLongFlag r'
                ++ String equalsSign (ArgReader.getValue r'))%string
          else ArgReader.getLongFlag r')
    /\ ArgReader.tell r' = 1.
Proof.
  apply (long_flag_cut_at_first_equals
           (ArgReader.make 2 ["prog"; "--a=b=c"]) "a=b=c");
    solve [reflexivity | simpl; lia].
Defined.

(* ------------------------------------------------------------------ *)
(** ** The cursor stays within the arguments *)

Lemma staysWithin_refl : forall r, staysWithin r r.
Proof. intro r. repeat split; auto. Qed.

Lemma staysWithin_trans :
  forall r1 r2 r3, staysWithin r1 r2 -> staysWithin r2 r3 -> staysWithin r1 r3.
Proof.
  intros r1 r2 r3 [[H1 H2] H3] [[H4 H5] H6].
  repeat split; try congruence. auto.
Qed.

Lemma parseNextArg_within :
  forall r r', ArgReader.parseNextArg r = Some r' -> staysWithin r r'.
Proof.
  intros r r' H. unfold ArgReader.parseNextArg in H.
  unfold staysWithin, sameArguments, withinArgs.
  destruct (ArgReader.charFlags r) as [|c q];
    [|inversion H; subst; cbn; auto].
  destruct (ArgReader.argc r <=? ArgReader.position r)%nat eqn:E1;
    [inversion H; subst; cbn; auto|].
  apply Nat.leb_gt in E1.
  destruct (ArgReader.argc r <=? S (ArgReader.position r))%nat eqn:E2;
    [inversion H; subst; cbn; repeat split; auto; lia|].
  apply Nat.leb_gt in E2.
  destruct (nth_error (ArgReader.argv r) (S (ArgReader.position r)))
    as [arg|]; [|discriminate].
  rewrite readArgument_classifies in H.
  destruct (ArgReader.readArgument (ArgReader.make 0 []) 0 arg);
    [|discriminate].
  inversion H; subst; cbn. repeat split; auto; lia.
Qed.

Lemma nextRawArgument_within :
  forall r raw r',
    ArgReader.hasMoreArguments r = true ->
    ArgReader.nextRawArgument r = Some (raw, r') ->
    staysWithin r r'.
Proof.
  intros r raw r' Hm H. unfold ArgReader.nextRawArgument in H.
  unfold ArgReader.hasMoreArguments in Hm. apply Nat.ltb_lt in Hm.
  destruct (nth_error (ArgReader.argv r) (S (ArgReader.position r)));
    [|discriminate].
  inversion H; subst.
  unfold staysWithin, sameArguments, withinArgs; cbn.
  repeat split; auto; lia.
Qed.

Lemma groupLoop_within (inv : Flag -> ArgReader -> Outcome) :
  (forall m r ok m' r', inv m r = Done ok m' r' -> staysWithin r r') ->
  forall k a ms r ok f' r',
    groupLoop inv k a ms r = Done ok f' r' -> staysWithin r r'.
Proof.
  intros Hinv k. induction k as [|k IH]; intros a ms r ok f' r' H;
    cbn [groupLoop] in H; [discriminate|].
  assert (Hstay : forall o g, Done o g r = Done ok f' r' ->
                              staysWithin r r').
  { intros o g E. inversion E; subst. apply staysWithin_refl. }
  destruct (ArgReader.atEnd r); [eauto|].
  destruct (ArgReader.hasLongFlag r).
  - destruct (membersByLongName ms (ArgReader.getLongFlag r)) as [i|];
      [|eauto].
    destruct (nth_error ms i) as [m|]; [|eauto].
    destruct (atCapacity m); [eauto|].
    destruct (inv m r) as [o m' r1| |] eqn:E; try discriminate.
    pose proof (Hinv _ _ _ _ _ E) as Hm.
    destruct o; [|inversion H; subst; assumption].
    destruct (ArgReader.tell r1 =? ArgReader.tell r)%nat;
      [inversion H; subst; assumption|].
    apply IH in H. eapply staysWithin_trans; eassumption.
  - destruct (membersByShortName ms (ArgReader.getShortFlag r)) as [i|];
      [|eauto].
    destruct (nth_error ms i) as [m|]; [|eauto].
    destruct (atCapacity m); [eauto|].
    destruct (inv m r) as [o m' r1| |] eqn:E; try discriminate.
    pose proof (Hinv _ _ _ _ _ E) as Hm.
    destruct o; [|inversion H; subst; assumption].
    apply IH in H. eapply staysWithin_trans; eassumption.
Qed.

Lemma parseArgsR_within :
  forall n f r ok f' r',
    parseArgsR n f r = Done ok f' r' -> staysWithin r r'.
Proof.
  induction n as [|n IH]; intros f r ok f' r' H; [discriminate|].
  destruct f as [a P p v|a p|v|a g re T e vs|a ms].
  - rewrite parseArgsR_primitive in H.
    unfold SingletonFlag_parseArgsR in H.
    destruct (ArgReader.hasValue r).
    + destruct (parse a P (ArgReader.getValue r));
        [|inversion H; subst; apply staysWithin_refl].
      destruct (ArgReader.parseNextArg r) eqn:E; [|discriminate].
      inversion H; subst. apply parseNextArg_within. assumption.
    + destruct (ArgReader.hasMoreArguments r) eqn:Em;
        [|inversion H; subst; apply staysWithin_refl].
      destruct (ArgReader.nextRawArgument r) as [[raw r1]|] eqn:E1;
        [|discriminate].
      apply (nextRawArgument_within _ _ _ Em) in E1.
      destruct (parse a P raw); [|inversion H; subst; assumption].
      destruct (ArgReader.parseNextArg r1) eqn:E; [|discriminate].
      inversion H; subst. apply parseNextArg_within in E.
      eapply staysWithin_trans; eassumption.
  - rewrite parseArgsR_switch in H. unfold Switch_parseArgsR in H.
    destruct (ArgReader.hasValue r);
      [inversion H; subst; apply staysWithin_refl|].
    destruct (ArgReader.parseNextArg r) eqn:E; [|discriminate].
    inversion H; subst. apply parseNextArg_within. assumption.
  - rewrite parseArgsR_flag in H.
    destruct (parseArgsR n v r) as [o v' r1| |] eqn:E; try discriminate.
    inversion H; subst. eauto.
  - rewrite parseArgsR_vector in H.
    destruct (parseArgsR n (newFlag a T) r) as [o fl r1| |] eqn:E;
      try discriminate.
    apply IH in E.
    destruct o; [|inversion H; subst; assumption].
    destruct (ArgReader.tell r =? ArgReader.tell r1)%nat;
      [inversion H; subst; assumption|].
    destruct (reinvokes g re r1 fl);
      [apply IH in H; eapply staysWithin_trans; eassumption
      |inversion H; subst; assumption].
  - rewrite parseArgsR_group in H. unfold FlagGroup_parseArgsR in H.
    destruct (notOneFlag r); [inversion H; subst; apply staysWithin_refl|].
    destruct (namesGroup a r).
    + destruct (ArgReader.parseNextArg r) eqn:E; [|discriminate].
      apply parseNextArg_within in E.
      apply groupLoop_within in H; [|eauto].
      eapply staysWithin_trans; eassumption.
    + apply groupLoop_within in H; eauto.
Qed.

(** X6. Whatever flag is called, a call of [parseArgsR] that returns leaves
    the reader over the same array, with its cursor where it was or
    further on, and never beyond [argc] if it was not before. *)
Theorem cursor_moves_forward_within_argc :
  forall n f r ok f' r',
    parseArgsR n f r = Done ok f' r' ->
    ArgReader.position r <= ArgReader.argc r ->
    ArgReader.argc r' = ArgReader.argc r
    /\ ArgReader.argv r' = ArgReader.argv r
    /\ ArgReader.tell r <= ArgReader.tell r'
    /\ ArgReader.tell r' <= ArgReader.argc r'.
Proof.
  intros n f r ok f' r' H Hin.
  destruct (parseArgsR_within _ _ _ _ _ _ H) as [[Hc Hv] Hw].
  split; [exact Hc|]. split; [exact Hv|]. split.
  - eapply parseArgsR_tell; eassumption.
  - apply Hw. exact Hin.
Qed.

Lemma cursor_moves_forward_within_argc_witness :
  ArgReader.tell (firstToken ["prog"; "--param"; "20"; "--ind"; "1"; "2"])
  <= ArgReader.tell
       (readerOf (parseArgsR 5 BasicFlagGroup
                    (firstToken ["prog"; "--param"; "20"; "--ind"; "1"; "2"])))
  /\ ArgReader.tell
       (readerOf (parseArgsR 5 BasicFlagGroup
                    (firstToken ["prog"; "--param"; "20"; "--ind"; "1"; "2"])))
     <= 6.
Proof.
  pose proof (cursor_moves_forward_within_argc
                5 BasicFlagGroup
                (firstToken ["prog"; "--param"; "20"; "--ind"; "1"; "2"])
                true
                (flagOf (parseArgsR 5 BasicFlagGroup
                           (firstToken
                              ["prog"; "--param"; "20"; "--ind"; "1"; "2"]))
                        BasicFlagGroup)
                (readerOf (parseArgsR 5 BasicFlagGroup
                             (firstToken
                                ["prog"; "--param"; "20"; "--ind"; "1"; "2"])))
                eq_refl ltac:(simpl; lia)) as (_ & _ & H1 & H2).
  split; [exact H1|exact H2].
Defined.

(* ------------------------------------------------------------------ *)
(** ** Every parse ends *)

(** What a plain argument is read as. *)
Lemma plainArg_read :
  forall arg,
    plainArg arg = true ->
    exists t,
      ArgReader.readArgument (ArgReader.make 0 []) 0 arg = Some t
      /\ ArgReader.charFlags t = []
      /\ (ArgReader.valueSpecified t = false -> isBare arg = false).
Proof.
  intros arg H. unfold plainArg in H.
  destruct (ArgReader.readArgument (ArgReader.make 0 []) 0 arg)
    as [t|] eqn:E; [|discriminate].
  exists t. split; [reflexivity|].
  split; [destruct (ArgReader.charFlags t); [reflexivity|discriminate]|].
  intros Hv. unfold ArgReader.readArgument in E.
  destruct arg as [|c0 rest0];
    [inversion E; subst; discriminate|].
  cbn [isBare].
  destruct (negb (Ascii.eqb c0 dash));
    [inversion E; subst; discriminate | reflexivity].
Qed.

Lemma nth_error_last :
  forall (l : list string) p x d,
    nth_error l p = Some x -> S p = List.length l -> last l d = x.
Proof.
  induction l as [|y l IH]; intros p x d Hn Hl; [discriminate|].
  destruct p as [|p].
  - destruct l; [inversion Hn; reflexivity | discriminate].
  - simpl in Hn, Hl. destruct l as [|z l]; [destruct p; discriminate|].
    change (last (z :: l) d = x). apply (IH p); [assumption | lia].
Qed.

Lemma nth_error_tl :
  forall (l : list string) p, nth_error l (S p) = nth_error (tl l) p.
Proof. intros [|y l] p; [destruct p|]; reflexivity. Qed.

(** Over arguments that give every flag its value, [parseNextArg] reads
    within [argv] and within the argument. *)
Lemma parseNextArg_supplied :
  forall r,
    ArgReader.charFlags r = [] ->
    ArgReader.argc r = List.length (ArgReader.argv r) ->
    valuesGiven (tl (ArgReader.argv r)) = true ->
    exists r', ArgReader.parseNextArg r = Some r' /\ suppliedReader r'.
Proof.
  intros r Hq Hc Hg. unfold ArgReader.parseNextArg. rewrite Hq.
  destruct (ArgReader.argc r <=? ArgReader.position r)%nat eqn:E1.
  { apply Nat.leb_le in E1. eexists. split; [reflexivity|].
    unfold suppliedReader; cbn. repeat split; auto. intros _. lia. }
  apply Nat.leb_gt in E1.
  destruct (ArgReader.argc r <=? S (ArgReader.position r))%nat eqn:E2.
  { apply Nat.leb_le in E2. eexists. split; [reflexivity|].
    unfold suppliedReader; cbn. repeat split; auto. intros _. lia. }
  apply Nat.leb_gt in E2.
  destruct (nth_error (ArgReader.argv r) (S (ArgReader.position r)))
    as [arg|] eqn:En; [|apply nth_error_None in En; lia].
  rewrite nth_error_tl in En.
  pose proof Hg as Hg'. unfold valuesGiven in Hg'.
  apply andb_true_iff in Hg' as [Hall Hlast].
  assert (Hplain : plainArg arg = true).
  { rewrite forallb_forall in Hall. apply Hall.
    eapply nth_error_In; eassumption. }
  destruct (plainArg_read arg Hplain) as (t & Ht & Hq' & Hb).
  rewrite readArgument_classifies, Ht. eexists. split; [reflexivity|].
  unfold suppliedReader, ArgReader.hasValue; cbn.
  repeat split; auto.
  intros Hv Hp. apply Hb in Hv.
  assert (Hl : last (tl (ArgReader.argv r)) "" = arg).
  { apply (nth_error_last _ (ArgReader.position r)); [assumption|].
    destruct (ArgReader.argv r); simpl in *; lia. }
  congruence.
Qed.

(** So does [nextRawArgument], when the reader holds no value. *)
Lemma nextRawArgument_supplied :
  forall r,
    suppliedReader r ->
    ArgReader.hasValue r = false ->
    ArgReader.hasMoreArguments r = true ->
    exists raw r1,
      ArgReader.nextRawArgument r = Some (raw, r1)
      /\ ArgReader.charFlags r1 = []
      /\ ArgReader.argc r1 = List.length (ArgReader.argv r1)
      /\ valuesGiven (tl (ArgReader.argv r1)) = true
      /\ ArgReader.hasValue r1 = true.
Proof.
  intros r (Hq & Hc & Hg & Hp) Hv Hm.
  unfold ArgReader.hasMoreArguments in Hm. apply Nat.ltb_lt in Hm.
  specialize (Hp Hv). unfold ArgReader.nextRawArgument.
  destruct (nth_error (ArgReader.argv r) (S (ArgReader.position r)))
    as [raw|] eqn:En; [|apply nth_error_None in En; lia].
  exists raw. eexists. split; [reflexivity|]. cbn. auto.
Qed.

Lemma SingletonFlag_supplied :
  forall self a P r,
    suppliedReader r ->
    returnsSupplied (SingletonFlag_parseArgsR self a P r).
Proof.
  intros self a P r Hr. unfold SingletonFlag_parseArgsR.
  pose proof Hr as (Hq & Hc & Hg & Hp).
  destruct (ArgReader.hasValue r) eqn:Hv.
  - destruct (parse a P (ArgReader.getValue r)); [|exact Hr].
    destruct (parseNextArg_supplied r Hq Hc Hg) as (r' & -> & Hr').
    exact Hr'.
  - destruct (ArgReader.hasMoreArguments r) eqn:Hm; [|exact Hr].
    destruct (nextRawArgument_supplied r Hr Hv Hm)
      as (raw & r1 & -> & Hq1 & Hc1 & Hg1 & Hv1).
    destruct (parse a P raw).
    + destruct (parseNextArg_supplied r1 Hq1 Hc1 Hg1) as (r' & -> & Hr').
      exact Hr'.
    + cbn. unfold suppliedReader. repeat split; auto. congruence.
Qed.

Lemma groupLoop_supplied (inv : Flag -> ArgReader -> Outcome) :
  (forall m r, suppliedReader r -> returnsSupplied (inv m r)) ->
  forall k a ms r,
    suppliedReader r -> returnsSupplied (groupLoop inv k a ms r).
Proof.
  intros Hinv k. induction k as [|k IH]; intros a ms r Hr;
    cbn [groupLoop]; [exact I|].
  destruct (ArgReader.atEnd r); [exact Hr|].
  destruct (ArgReader.hasLongFlag r).
  - destruct (membersByLongName ms (ArgReader.getLongFlag r)) as [i|];
      [|exact Hr].
    destruct (nth_error ms i) as [m|]; [|exact Hr].
    destruct (atCapacity m); [exact Hr|].
    pose proof (Hinv m r Hr) as Hm.
    destruct (inv m r) as [o m' r1| |]; cbn in Hm; try contradiction;
      [|exact I].
    destruct o; [|exact Hm].
    destruct (ArgReader.tell r1 =? ArgReader.tell r)%nat; [exact Hm|].
    apply IH, Hm.
  - destruct (membersByShortName ms (ArgReader.getShortFlag r)) as [i|];
      [|exact Hr].
    destruct (nth_error ms i) as [m|]; [|exact Hr].
    destruct (atCapacity m); [exact Hr|].
    pose proof (Hinv m r Hr) as Hm.
    destruct (inv m r) as [o m' r1| |]; cbn in Hm; try contradiction;
      [|exact I].
    destruct o; [|exact Hm].
    apply IH, Hm.
Qed.

(** Over arguments that give every flag its value, no call of
    [parseArgsR] reads outside [argv] or outside an argument. *)
Lemma parseArgsR_supplied :
  forall n f r,
    suppliedReader r -> returnsSupplied (parseArgsR n f r).
Proof.
  induction n as [|n IH]; intros f r Hr; [exact I|].
  pose proof Hr as (Hq & Hc & Hg & Hp).
  destruct f as [a P p v|a p|v|a g re T e vs|a ms].
  - rewrite parseArgsR_primitive. apply SingletonFlag_supplied, Hr.
  - rewrite parseArgsR_switch. unfold Switch_parseArgsR.
    destruct (ArgReader.hasValue r); [exact Hr|].
    destruct (parseNextArg_supplied r Hq Hc Hg) as (r' & -> & Hr').
    exact Hr'.
  - rewrite parseArgsR_flag.
    pose proof (IH v r Hr) as Hv.
    destruct (parseArgsR n v r) as [o v' r1| |]; exact Hv.
  - rewrite parseArgsR_vector.
    pose proof (IH (newFlag a T) r Hr) as Hv.
    destruct (parseArgsR n (newFlag a T) r) as [o fl r1| |];
      cbn in Hv; try contradiction; [|exact I].
    destruct o; [|exact Hv].
    destruct (ArgReader.tell r =? ArgReader.tell r1)%nat; [exact Hv|].
    destruct (reinvokes g re r1 fl); [apply IH, Hv | exact Hv].
  - rewrite parseArgsR_group. unfold FlagGroup_parseArgsR.
    destruct (notOneFlag r); [exact Hr|].
    destruct (namesGroup a r).
    + destruct (parseNextArg_supplied r Hq Hc Hg) as (r' & -> & Hr').
      apply groupLoop_supplied; [apply IH | exact Hr'].
    + apply groupLoop_supplied; [apply IH | exact Hr].
Qed.

(** X7. [parseArgs] never loops for ever: on every flag tree and every
    array of arguments the run ends, by returning or at a read outside
    [argv] or past the end of an argument, once the fuel exceeds the height
    of the tree plus what the reader has left to read; and more fuel gives
    the same result.  The run does return when the arguments give every
    flag its value: when no argument is a lone dash or a cluster of short
    flags and the last argument is no flag. *)
Theorem parseArgs_always_ends :
  forall f argv fuel fuel',
    height f + workLeft (firstToken argv) < fuel ->
    fuel <= fuel' ->
    (parseArgv fuel f argv = UndefinedBehaviour
     \/ exists ok f', parseArgv fuel f argv = Returned ok f')
    /\ parseArgv fuel' f argv = parseArgv fuel f argv
    /\ (valuesGiven (tl argv) = true ->
        exists ok f', parseArgv fuel f argv = Returned ok f').
Proof.
  intros f argv fuel fuel' Hn Hle.
  pose proof (parseArgv_terminates fuel f argv Hn) as Ht.
  split; [|split].
  - destruct (parseArgv fuel f argv) as [ok f'| |];
      [right; eauto | left; reflexivity | contradiction].
  - unfold parseArgv in *. apply parseArgs_fuel; assumption.
  - intros Hg. unfold parseArgv, parseArgs in *.
    destruct (Z.of_nat (List.length argv) <? 2)%Z eqn:E2; [eauto|].
    destruct (parseNextArg_supplied
                (ArgReader.make (Z.of_nat (List.length argv)) argv))
      as (r & Hr1 & Hr).
    + reflexivity.
    + unfold ArgReader.make.
      replace (Z.of_nat (List.length argv) <? 0)%Z with false
        by (symmetry; apply Z.ltb_ge; lia).
      cbn. apply Nat2Z.id.
    + unfold ArgReader.make. cbn. exact Hg.
    + rewrite Hr1 in *.
      pose proof (parseArgsR_supplied fuel f r Hr) as Hs.
      destruct (parseArgsR fuel f r) as [[|] f' r'| |]; cbn in Hs;
        try contradiction; eauto.
Qed.

Lemma parseArgs_always_ends_witness :
  (parseArgv 80 Test2.MyFlagGroup scenario_C_argv = UndefinedBehaviour
   \/ exists ok f',
        parseArgv 80 Test2.MyFlagGroup scenario_C_argv = Returned ok f')
  /\ parseArgv 100 Test2.MyFlagGroup scenario_C_argv
     = parseArgv 80 Test2.MyFlagGroup scenario_C_argv
  /\ exists ok f',
       parseArgv 80 Test2.MyFlagGroup scenario_C_argv = Returned ok f'.
Proof.
  destruct (parseArgs_always_ends
              Test2.MyFlagGroup scenario_C_argv 80 100)
    as (H1 & H2 & H3).
  - vm_compute. lia.
  - lia.
  - split; [exact H1|]. split; [exact H2|]. apply H3. reflexivity.
Defined.

(* ------------------------------------------------------------------ *)
(** ** What a parse leaves alone *)

(** X8. A parse sets marks and values and nothing else: whatever
    [parseArgs] returns, every flag of the tree keeps its names, its type
    and its members, a flag that was present stays present, a vector that
    was entered stays entered; so the tree answers [hasFlag] as before,
    and a flag that was at capacity still is. *)
Theorem parseArgs_keeps_the_declarations :
  forall fuel f argc argv ok f',
    parseArgs fuel f argc argv = Returned ok f' ->
    later f f'
    /\ (forall name, hasFlag f' name = hasFlag f name)
    /\ (forall c, hasFlagChar f' c = hasFlagChar f c)
    /\ (atCapacity f = true -> atCapacity f' = true).
Proof.
  intros fuel f argc argv ok f' H.
  assert (Hl : later f f').
  { unfold parseArgs in H.
    destruct (argc <? 2)%Z; [inversion H; subst; apply later_refl|].
    destruct (ArgReader.parseNextArg (ArgReader.make argc argv)) as [r|];
      [|discriminate].
    destruct (parseArgsR fuel f r) as [[|] g r'| |] eqn:E;
      try discriminate; inversion H; subst;
      eapply parseArgsR_later; eassumption. }
  split; [exact Hl|]. split; [|split].
  - intro name. apply later_hasFlag. assumption.
  - intro c. apply later_hasFlagChar. assumption.
  - apply later_atCapacity. assumption.
Qed.

Lemma parseArgs_keeps_the_declarations_witness :
  later BasicFlagGroup
        (FlagGroup anonymous
           [ Flag_bool (flag "alive");
             PrimitiveFlag (flag "param") (TInt ParseType.I64) true (VInt 20);
             vectorOf (Flag_int anonymous) (flag "ind") ]).
Proof.
  apply (parseArgs_keeps_the_declarations
           5 BasicFlagGroup 3 ["prog"; "--param"; "20"] true).
  reflexivity.
Defined.

Lemma nth_error_setMember_same :
  forall ms i m m',
    nth_error ms i = Some m -> nth_error (setMember ms i m') i = Some m'.
Proof.
  induction ms as [|x ms IH]; intros [|i] m m' H; simpl in *;
    try discriminate; eauto.
Qed.

Lemma nth_error_setMember_other :
  forall ms i j m',
    i <> j -> nth_error (setMember ms i m') j = nth_error ms j.
Proof.
  induction ms as [|x ms IH]; intros [|i] [|j] m' H; simpl;
    try reflexivity; try congruence.
  apply IH. congruence.
Qed.

(** The loop of a group leaves alone what is at capacity below its
    members, when each call on a member does. *)
Lemma groupLoop_keeps (inv : Flag -> ArgReader -> Outcome) :
  (forall m r ok m' r',
      inv m r = Done ok m' r' ->
      forall path x,
        path <> [] -> descend m path = Some x -> atCapacity x = true ->
        descend m' path = Some x) ->
  forall k a ms r ok f' r',
    groupLoop inv k a ms r = Done ok f' r' ->
    forall i mi path x,
      nth_error ms i = Some mi ->
      descend mi path = Some x -> atCapacity x = true ->
      exists mi',
        nth_error (membersOf f') i = Some mi' /\ descend mi' path = Some x.
Proof.
  intros Hinv k. induction k as [|k IH]; intros a ms r ok f' r' H;
    cbn [groupLoop] in H; [discriminate|].
  intros i mi path x Hi Hd Hx.
  assert (Hstay : forall o r0,
             Done o (FlagGroup a ms) r0 = Done ok f' r' ->
             exists mi',
               nth_error (membersOf f') i = Some mi'
               /\ descend mi' path = Some x).
  { intros o r0 E. inversion E; subst. simpl. eauto. }
  assert (Hstep : forall j m o m' r1,
             nth_error ms j = Some m -> atCapacity m = false ->
             inv m r = Done o m' r1 ->
             exists mi',
               nth_error (setMember ms j m') i = Some mi'
               /\ descend mi' path = Some x).
  { intros j m o m' r1 Hj Hc E.
    destruct (Nat.eq_dec j i) as [->|Hne].
    - rewrite Hi in Hj. inversion Hj; subst m.
      rewrite (nth_error_setMember_same _ _ _ m' Hi).
      exists m'. split; [reflexivity|].
      destruct path as [|p path].
      + simpl in Hd. inversion Hd; subst. congruence.
      + eapply Hinv; eauto. discriminate.
    - rewrite (nth_error_setMember_other _ _ _ m' Hne). eauto. }
  destruct (ArgReader.atEnd r); [eauto|].
  destruct (ArgReader.hasLongFlag r).
  - destruct (membersByLongName ms (ArgReader.getLongFlag r)) as [j|];
      [|eauto].
    destruct (nth_error ms j) as [m|] eqn:Ej; [|eauto].
    destruct (atCapacity m) eqn:Ec; [eauto|].
    destruct (inv m r) as [o m' r1| |] eqn:E; try discriminate.
    destruct (Hstep j m o m' r1 Ej Ec E) as (mi1 & Hi1 & Hd1).
    destruct o; [|inversion H; subst; simpl; eauto].
    destruct (ArgReader.tell r1 =? ArgReader.tell r)%nat;
      [inversion H; subst; simpl; eauto|].
    eapply IH; eauto.
  - destruct (membersByShortName ms (ArgReader.getShortFlag r)) as [j|];
      [|eauto].
    destruct (nth_error ms j) as [m|] eqn:Ej; [|eauto].
    destruct (atCapacity m) eqn:Ec; [eauto|].
    destruct (inv m r) as [o m' r1| |] eqn:E; try discriminate.
    destruct (Hstep j m o m' r1 Ej Ec E) as (mi1 & Hi1 & Hd1).
    destruct o; [|inversion H; subst; simpl; eauto].
    eapply IH; eauto.
Qed.

Lemma parseArgsR_keeps :
  forall n f r ok f' r',
    parseArgsR n f r = Done ok f' r' ->
    forall path x,
      path <> [] -> descend f path = Some x -> atCapacity x = true ->
      descend f' path = Some x.
Proof.
  induction n as [|n IH]; intros f r ok f' r' H path x Hp Hd Hx;
    [discriminate|].
  destruct path as [|i path]; [congruence|].
  destruct f as [a P p v|a p|v|a g re T e vs|a ms];
    try (simpl in Hd; destruct i; discriminate).
  - rewrite parseArgsR_flag in H.
    destruct (parseArgsR n v r) as [o v' r1| |] eqn:E; try discriminate.
    inversion H; subst.
    apply (IH _ _ _ _ _ E (i :: path) x); [discriminate|exact Hd|exact Hx].
  - simpl in Hd.
    destruct (nth_error ms i) as [mi|] eqn:Ei; [|discriminate].
    assert (Hloop : forall k r0,
               groupLoop (parseArgsR n) k a ms r0 = Done ok f' r' ->
               descend f' (i :: path) = Some x).
    { intros k r0 E.
      destruct (groupLoop_keeps (parseArgsR n) (IH) k a ms r0 ok f' r' E
                                i mi path x Ei Hd Hx) as (mi' & Hi' & Hd').
      simpl. rewrite Hi'. exact Hd'. }
    rewrite parseArgsR_group in H. unfold FlagGroup_parseArgsR in H.
    destruct (notOneFlag r).
    + inversion H; subst. simpl. rewrite Ei. exact Hd.
    + destruct (namesGroup a r); [|eauto].
      destruct (ArgReader.parseNextArg r); [eauto|discriminate].
Qed.

(** X9. A parse never touches a flag that is at capacity below the flag
    it is called on: a scalar or a switch that is already present, a
    sequential vector that has been entered, a group all of whose members
    are at capacity is found after [parseArgs] exactly as it was, with the
    values it had. *)
Theorem flags_at_capacity_are_left_alone :
  forall fuel f argc argv ok f' path x,
    parseArgs fuel f argc argv = Returned ok f' ->
    path <> [] ->
    descend f path = Some x ->
    atCapacity x = true ->
    descend f' path = Some x.
Proof.
  intros fuel f argc argv ok f' path x H Hp Hd Hx.
  unfold parseArgs in H.
  destruct (argc <? 2)%Z; [inversion H; subst; assumption|].
  destruct (ArgReader.parseNextArg (ArgReader.make argc argv)) as [r|];
    [|discriminate].
  destruct (parseArgsR fuel f r) as [[|] g r'| |] eqn:E;
    try discriminate; inversion H; subst;
    eapply parseArgsR_keeps; eassumption.
Qed.

Lemma flags_at_capacity_are_left_alone_witness :
  descend
    (FlagGroup anonymous
       [ PrimitiveFlag (flag "alive") TBool true (VBool true);
         PrimitiveFlag (flag "param") (TInt ParseType.I64) true (VInt 20);
         vectorOf (Flag_int anonymous) (flag "ind") ]) [0]
  = Some (PrimitiveFlag (flag "alive") TBool true (VBool true)).
Proof.
  apply (flags_at_capacity_are_left_alone
           5
           (FlagGroup anonymous
              [ PrimitiveFlag (flag "alive") TBool true (VBool true);
                Flag_int64_t (flag "param");
                vectorOf (Flag_int anonymous) (flag "ind") ])
           5 ["prog"; "--param"; "20"; "--alive"; "false"] false);
    solve [reflexivity | discriminate].
Defined.

(* ------------------------------------------------------------------ *)
(** ** Runs, one argument at a time *)

(** [parseNextArg] from a reader that [parseArgs] made, with no short flag
    pending and the end not reached. *)
Lemma parseNextArg_tokenAt :
  forall argv ck k v fa fc vs p,
    p < List.length argv ->
    ArgReader.parseNextArg
      (ArgReader.mk (List.length argv) argv ck k v fa fc vs false p [])
    = tokenAt argv (S p).
Proof.
  intros argv ck k v fa fc vs p Hp.
  unfold ArgReader.parseNextArg, tokenAt. reader_fields.
  replace (List.length argv <=? p)%nat with false
    by (symmetry; apply Nat.leb_gt; lia).
  destruct (List.length argv <=? S p)%nat eqn:E.
  - apply Nat.leb_le in E.
    replace (nth_error argv (S p)) with (@None string)
      by (symmetry; apply nth_error_None; lia).
    unfold endReader. repeat f_equal. lia.
  - apply Nat.leb_gt in E.
    destruct (nth_error argv (S p)) as [arg|] eqn:En;
      [|apply nth_error_None in En; lia].
    rewrite (readArgument_classifies
               (ArgReader.mk _ _ ck k v fa fc vs false p []) _ arg),
      (readArgument_classifies
         (ArgReader.mk _ _ NUL "" "" true false false false 0 []) _ arg).
    reflexivity.
Qed.

(** [parseArgs] on an array of at least two arguments. *)
Lemma parseArgv_tokenAt :
  forall fuel f argv,
    2 <= List.length argv ->
    parseArgv fuel f argv
    = match tokenAt argv 1 with
      | Some r => resultOf (parseArgsR fuel f r)
      | None => UndefinedBehaviour
      end.
Proof.
  intros fuel f argv Hlen. unfold parseArgv, parseArgs.
  replace (Z.of_nat (List.length argv) <? 2)%Z with false
    by (symmetry; apply Z.ltb_ge; lia).
  unfold ArgReader.make.
  replace (Z.of_nat (List.length argv) <? 0)%Z with false
    by (symmetry; apply Z.ltb_ge; lia).
  rewrite Nat2Z.id, parseNextArg_tokenAt by lia.
  destruct (tokenAt argv 1) as [r|]; [|reflexivity].
  destruct (parseArgsR fuel f r) as [[|] f' r'| |]; reflexivity.
Qed.

(** A group that is not named by the token goes to its loop. *)
Lemma FlagGroup_loop :
  forall n a ms r,
    notOneFlag r = false -> namesGroup a r = false ->
    parseArgsR (S n) (FlagGroup a ms) r = groupLoop (parseArgsR n) n a ms r.
Proof.
  intros n a ms r H1 H2. rewrite parseArgsR_group.
  unfold FlagGroup_parseArgsR. rewrite H1, H2. reflexivity.
Qed.

Lemma namesGroup_other_long :
  forall a r,
    ArgReader.hasShortFlag r = false ->
    String.eqb (_longName a) (ArgReader.getLongFlag r) = false ->
    namesGroup a r = false.
Proof.
  intros a r Hs Hn. unfold namesGroup. rewrite Hs, Hn.
  rewrite !andb_false_r. reflexivity.
Qed.

Lemma namesGroup_other_short :
  forall a r,
    ArgReader.hasLongFlag r = false ->
    Ascii.eqb (_shortName a) (ArgReader.getShortFlag r) = false ->
    namesGroup a r = false.
Proof.
  intros a r Hl Hn. unfold namesGroup. rewrite Hl, Hn.
  rewrite !andb_false_r. reflexivity.
Qed.

(** One turn of the loop in which the member found parses and the cursor
    moves. *)
Lemma groupLoop_member_parsed :
  forall inv k a ms r i m m' r',
    ArgReader.atEnd r = false ->
    dispatched ms r = Some i ->
    nth_error ms i = Some m ->
    atCapacity m = false ->
    inv m r = Done true m' r' ->
    ArgReader.tell r' <> ArgReader.tell r ->
    groupLoop inv (S k) a ms r = groupLoop inv k a (setMember ms i m') r'.
Proof.
  intros inv k a ms r i m m' r' He Hd Hi Hc Hp Ht.
  rewrite (groupLoop_dispatch inv k a ms r i m He Hd Hi), Hc, Hp.
  apply Nat.eqb_neq in Ht. rewrite Ht, andb_false_r. reflexivity.
Qed.

Ltac dispatch_to i m Hfound Hnth :=
  match goal with
  | |- context [groupLoop ?inv (S ?k) ?a ?ms ?r] =>
      rewrite (groupLoop_dispatch inv k a ms r i m eq_refl Hfound Hnth)
  end.

(** The loop at the end of the arguments. *)
Lemma groupLoop_at_end :
  forall inv k a ms r,
    ArgReader.atEnd r = true ->
    groupLoop inv (S k) a ms r = Done true (FlagGroup a ms) r.
Proof. intros inv k a ms r H. cbn [groupLoop]. rewrite H. reflexivity. Qed.

(** The scalar parser on a flag without a value: the next argument is its
    value, whatever it looks like. *)
Lemma SingletonFlag_no_value :
  forall self a P argv ck k fa fc p raw,
    nth_error argv (S p) = Some raw ->
    SingletonFlag_parseArgsR
      self a P
      (ArgReader.mk (List.length argv) argv ck k "" fa fc false false p [])
    = match parse a P raw with
      | None =>
          Done false self
               (ArgReader.mk (List.length argv) argv ck "" raw true false
                             true false (S p) [])
      | Some self' =>
          match tokenAt argv (S (S p)) with
          | Some r' => Done true self' r'
          | None => Undefined
          end
      end.
Proof.
  intros self a P argv ck k fa fc p raw Hnth.
  assert (Hlt : S p < List.length argv)
    by (apply nth_error_Some; congruence).
  unfold SingletonFlag_parseArgsR, ArgReader.hasValue,
    ArgReader.hasMoreArguments, ArgReader.nextRawArgument.
  reader_fields.
  replace (p <? List.length argv)%nat with true
    by (symmetry; apply Nat.ltb_lt; lia).
  rewrite Hnth. reader_fields.
  destruct (parse a P raw); [|reflexivity].
  rewrite parseNextArg_tokenAt by lia. reflexivity.
Qed.

Lemma SingletonFlag_next_argument :
  forall self a P argv p name raw,
    nth_error argv (S p) = Some raw ->
    SingletonFlag_parseArgsR self a P (flagReader argv p name)
    = match parse a P raw with
      | None => Done false self (bareReader argv (S p) raw)
      | Some self' =>
          match tokenAt argv (S (S p)) with
          | Some r' => Done true self' r'
          | None => Undefined
          end
      end.
Proof.
  intros self a P argv p name raw Hnth. unfold flagReader.
  rewrite (SingletonFlag_no_value _ _ _ _ _ _ _ _ _ raw Hnth). reflexivity.
Qed.

(** The scalar parser on a flag with its value attached. *)
Lemma SingletonFlag_attached :
  forall self a P argv p name v,
    p < List.length argv ->
    SingletonFlag_parseArgsR self a P (valueReader argv p name v)
    = match parse a P v with
      | None => Done false self (valueReader argv p name v)
      | Some self' =>
          match tokenAt argv (S p) with
          | Some r' => Done true self' r'
          | None => Undefined
          end
      end.
Proof.
  intros self a P argv p name v Hlt.
  unfold SingletonFlag_parseArgsR, valueReader, ArgReader.hasValue,
    ArgReader.getValue.
  reader_fields.
  destruct (parse a P v); [|reflexivity].
  rewrite parseNextArg_tokenAt by lia. reflexivity.
Qed.

(** Where [tokenAt] leaves the cursor. *)
Lemma tokenAt_tell :
  forall argv p r,
    p <= List.length argv -> tokenAt argv p = Some r ->
    ArgReader.tell r = p
    /\ ArgReader.argc r = List.length argv
    /\ ArgReader.argv r = argv
    /\ (ArgReader.atEnd r = true <-> p = List.length argv).
Proof.
  intros argv p r Hp H. unfold tokenAt in H.
  destruct (nth_error argv p) as [arg|] eqn:En.
  - assert (p < List.length argv) by (apply nth_error_Some; congruence).
    rewrite readArgument_classifies in H.
    destruct (ArgReader.readArgument (ArgReader.make 0 []) 0 arg);
      [|discriminate].
    inversion H; subst; cbn. repeat split; auto; try lia; discriminate.
  - apply nth_error_None in En. inversion H; subst; cbn.
    repeat split; auto; lia.
Qed.

(* ------------------------------------------------------------------ *)
(** ** Arguments that a group cannot place *)

(** X10. A flag that no member of the root group is registered under, as
    the first argument, makes [parseArgs] return false and leaves every
    flag as it was: a long flag, with or without a value attached, and a
    short flag, alone or at the head of a cluster. *)
Theorem unknown_flag_is_rejected :
  forall fuel a ms prog rest,
    (forall name,
        ArgReader.splitAtEquals name = None ->
        String.eqb (_longName a) name = false ->
        membersByLongName ms name = None ->
        parseArgv (S (S fuel)) (FlagGroup a ms)
                  (prog :: String dash (String dash name) :: rest)
        = Returned false (FlagGroup a ms)
        /\ forall v,
            parseArgv (S (S fuel)) (FlagGroup a ms)
                      (prog :: attachedForm name v ++ rest)
            = Returned false (FlagGroup a ms))
    /\ (forall c cs,
           Ascii.eqb c dash = false ->
           Ascii.eqb (_shortName a) c = false ->
           membersByShortName ms c = None ->
           parseArgv (S (S fuel)) (FlagGroup a ms)
                     (prog :: String dash (String c cs) :: rest)
           = Returned false (FlagGroup a ms)).
Proof.
  intros fuel a ms prog rest. split.
  - intros name Hname Hown Hnone. split; [|intro v].
    + rewrite parseArgv_tokenAt by (simpl; lia).
      unfold tokenAt. cbn [nth_error].
      rewrite (readArgument_long _ _ _ Hname). reader_fields.
      rewrite FlagGroup_loop;
        [|reflexivity|apply namesGroup_other_long; [reflexivity|exact Hown]].
      cbn [groupLoop]. unfold ArgReader.atEnd, ArgReader.hasLongFlag,
        ArgReader.getLongFlag. reader_fields. cbn [negb andb].
      rewrite Hnone. reflexivity.
    + unfold attachedForm. cbn [app].
      rewrite parseArgv_tokenAt by (simpl; lia).
      unfold tokenAt. cbn [nth_error].
      rewrite (readArgument_long_value _ _ _ v Hname). reader_fields.
      rewrite FlagGroup_loop;
        [|reflexivity|apply namesGroup_other_long; [reflexivity|exact Hown]].
      cbn [groupLoop]. unfold ArgReader.atEnd, ArgReader.hasLongFlag,
        ArgReader.getLongFlag. reader_fields. cbn [negb andb].
      rewrite Hnone. reflexivity.
  - intros c cs Hc Hown Hnone.
    rewrite parseArgv_tokenAt by (simpl; lia).
    unfold tokenAt. cbn [nth_error].
    rewrite (readArgument_short _ _ _ cs Hc). reader_fields.
    rewrite FlagGroup_loop;
      [|reflexivity|apply namesGroup_other_short; [reflexivity|exact Hown]].
    cbn [groupLoop]. unfold ArgReader.atEnd, ArgReader.hasLongFlag,
      ArgReader.getShortFlag. reader_fields. cbn [negb andb].
    rewrite Hnone. reflexivity.
Qed.

Lemma unknown_flag_is_rejected_witness :
  parseArgv 2 BasicFlagGroup ["prog"; "--nope"; "--param"; "20"]
  = Returned false BasicFlagGroup
  /\ parseArgv 2 DisplayFileRoot ["prog"; "-xp"]
     = Returned false DisplayFileRoot.
Proof.
  split.
  - apply (proj1 (unknown_flag_is_rejected
                    0 anonymous (membersOf BasicFlagGroup) "prog"
                    ["--param"; "20"]) "nope"); reflexivity.
  - apply (proj2 (unknown_flag_is_rejected
                    0 anonymous (membersOf DisplayFileRoot) "prog" [])
                 "x"%char "p"); reflexivity.
Defined.

(** X11. An argument that is no flag, as the first argument, makes
    [parseArgs] of a group return false and leaves every flag as it was:
    a group takes no positional argument. *)
Theorem positional_argument_is_rejected :
  forall fuel a ms prog arg rest,
    isBare arg = true ->
    parseArgv (S fuel) (FlagGroup a ms) (prog :: arg :: rest)
    = Returned false (FlagGroup a ms).
Proof.
  intros fuel a ms prog arg rest Hb.
  rewrite parseArgv_tokenAt by (simpl; lia).
  unfold tokenAt. cbn [nth_error].
  rewrite (readArgument_bare _ _ _ Hb). reader_fields.
  rewrite parseArgsR_group. reflexivity.
Qed.

Lemma positional_argument_is_rejected_witness :
  parseArgv 1 BasicFlagGroup ["prog"; "input.txt"; "--param"; "20"]
  = Returned false BasicFlagGroup.
Proof.
  apply (positional_argument_is_rejected
           0 anonymous (membersOf BasicFlagGroup) "prog" "input.txt"
           ["--param"; "20"]).
  reflexivity.
Defined.

(* ------------------------------------------------------------------ *)
(** ** Values that do not parse, values that are missing *)

(** The first token of a run is not the end of the arguments. *)
Lemma first_token_not_at_end :
  forall argc argv r,
    (2 <= argc)%Z ->
    ArgReader.parseNextArg (ArgReader.make argc argv) = Some r ->
    ArgReader.atEnd r = false.
Proof.
  intros argc argv r Hargc H.
  unfold ArgReader.parseNextArg, ArgReader.make in H.
  replace (argc <? 0)%Z with false in H by (symmetry; apply Z.ltb_ge; lia).
  reader_fields.
  replace (Z.to_nat argc <=? 0)%nat with false in H
    by (symmetry; apply Nat.leb_gt; lia).
  replace (Z.to_nat argc <=? 1)%nat with false in H
    by (symmetry; apply Nat.leb_gt; lia).
  destruct (nth_error argv 1) as [arg|]; [|discriminate].
  rewrite readArgument_classifies in H.
  destruct (ArgReader.readArgument (ArgReader.make 0 []) 0 arg);
    [|discriminate].
  inversion H; subst. reflexivity.
Qed.

(** A scalar flag returns false on a text that its type does not accept,
    and stays as it was. *)
Lemma SingletonFlag_bad_value :
  forall n a' P p d v r,
    parseType P v = None ->
    valueOffered r = Some v ->
    exists r',
      parseArgsR (S n) (PrimitiveFlag a' P p d) r
      = Done false (PrimitiveFlag a' P p d) r'.
Proof.
  intros n a' P p d v r Hbad Hv.
  assert (Hparse : parse a' P v = None) by (unfold parse; rewrite Hbad; auto).
  rewrite parseArgsR_primitive.
  unfold SingletonFlag_parseArgsR, valueOffered in *.
  destruct (ArgReader.hasValue r).
  - inversion Hv as [Hg]. rewrite Hg, Hparse. eauto.
  - destruct (ArgReader.hasMoreArguments r); [|discriminate].
    unfold ArgReader.nextRawArgument. rewrite Hv, Hparse. eauto.
Qed.

(** X12. A scalar flag called with a text that its type does not
    accept, be it the value attached to the flag or, when there is none,
    the argument after the flag, returns false and stays as it was,
    whatever the reader and wherever the flag is in the tree.  The loop
    of the group that the flag is an unset member of returns false in
    turn, with no member changed.  When that group is the root and the
    flag is the first argument, [parseArgs] returns false and leaves every
    flag as it was, whatever arguments follow: so for the long flag of
    the member with the value after it, and with the value attached. *)
Theorem bad_value_is_rejected :
  forall n a' P d v,
    parseType P v = None ->
    (forall p r,
        valueOffered r = Some v ->
        (exists r',
            parseArgsR (S n) (PrimitiveFlag a' P p d) r
            = Done false (PrimitiveFlag a' P p d) r')
        /\ (forall k ga ms i,
               ArgReader.atEnd r = false ->
               dispatched ms r = Some i ->
               nth_error ms i = Some (PrimitiveFlag a' P p d) ->
               p = false ->
               exists r',
                 groupLoop (parseArgsR (S n)) (S k) ga ms r
                 = Done false (FlagGroup ga ms) r')
        /\ (forall ga ms i argc argv,
               (2 <= argc)%Z ->
               ArgReader.parseNextArg (ArgReader.make argc argv) = Some r ->
               notOneFlag r = false ->
               namesGroup ga r = false ->
               dispatched ms r = Some i ->
               nth_error ms i = Some (PrimitiveFlag a' P p d) ->
               p = false ->
               parseArgs (S (S n)) (FlagGroup ga ms) argc argv
               = Returned false (FlagGroup ga ms)))
    /\ (forall a ms prog name rest i,
           ArgReader.splitAtEquals name = None ->
           String.eqb (_longName a) name = false ->
           membersByLongName ms name = Some i ->
           nth_error ms i = Some (PrimitiveFlag a' P false d) ->
           parseArgv (S (S n)) (FlagGroup a ms)
                     (prog :: separateForm name v ++ rest)
           = Returned false (FlagGroup a ms)
           /\ parseArgv (S (S n)) (FlagGroup a ms)
                        (prog :: attachedForm name v ++ rest)
              = Returned false (FlagGroup a ms)).
Proof.
  intros n a' P d v Hbad.
  assert (Hparse : parse a' P v = None) by (unfold parse; rewrite Hbad; auto).
  assert (Hloop : forall p r,
             valueOffered r = Some v ->
             forall k ga ms i,
               ArgReader.atEnd r = false ->
               dispatched ms r = Some i ->
               nth_error ms i = Some (PrimitiveFlag a' P p d) ->
               p = false ->
               exists r',
                 groupLoop (parseArgsR (S n)) (S k) ga ms r
                 = Done false (FlagGroup ga ms) r').
  { intros p r Hv k ga ms i Hend Hd Hnth Hp.
    destruct (SingletonFlag_bad_value n a' P p d v r Hbad Hv) as (r' & Hr').
    exists r'.
    rewrite (groupLoop_dispatch _ k ga ms r i _ Hend Hd Hnth).
    cbn [atCapacity]. rewrite Hp in *. rewrite Hr'.
    rewrite (setMember_same _ _ _ Hnth). reflexivity. }
  split.
  - intros p r Hv. split; [|split].
    + apply (SingletonFlag_bad_value n a' P p d v r Hbad Hv).
    + apply (Hloop p r Hv).
    + intros ga ms i argc argv Hargc Hfirst Hone Hown Hd Hnth Hp.
      pose proof (first_token_not_at_end _ _ _ Hargc Hfirst) as Hend.
      destruct (Hloop p r Hv n ga ms i Hend Hd Hnth Hp) as (r' & Hr').
      unfold parseArgs.
      replace (argc <? 2)%Z with false by (symmetry; apply Z.ltb_ge; lia).
      rewrite Hfirst, parseArgsR_group. unfold FlagGroup_parseArgsR.
      rewrite Hone, Hown, Hr'. reflexivity.
  - intros a ms prog name rest i Hname Hown Hfound Hnth.
    split.
    + unfold separateForm. cbn [app].
      rewrite parseArgv_tokenAt by (simpl; lia).
      unfold tokenAt. cbn [nth_error].
      rewrite (readArgument_long _ _ _ Hname). reader_fields.
      rewrite FlagGroup_loop;
        [|reflexivity|apply namesGroup_other_long; [reflexivity|exact Hown]].
      dispatch_to i (PrimitiveFlag a' P false d) Hfound Hnth.
      cbn [atCapacity]. rewrite parseArgsR_primitive.
      match goal with
      | |- context [SingletonFlag_parseArgsR ?s ?b ?Q ?r] =>
          change r with
            (flagReader (prog :: String dash (String dash name) :: v :: rest)
                        1 name)
      end.
      rewrite (SingletonFlag_next_argument
                 _ _ _ (prog :: String dash (String dash name) :: v :: rest)
                 1 name v eq_refl), Hparse.
      rewrite (setMember_same _ _ _ Hnth). reflexivity.
    + unfold attachedForm. cbn [app].
      rewrite parseArgv_tokenAt by (simpl; lia).
      unfold tokenAt. cbn [nth_error].
      rewrite (readArgument_long_value _ _ _ v Hname). reader_fields.
      rewrite FlagGroup_loop;
        [|reflexivity|apply namesGroup_other_long; [reflexivity|exact Hown]].
      dispatch_to i (PrimitiveFlag a' P false d) Hfound Hnth.
      cbn [atCapacity]. rewrite parseArgsR_primitive.
      match goal with
      | |- context [SingletonFlag_parseArgsR ?s ?b ?Q ?r] =>
          change r with
            (valueReader
               (prog :: String dash (String dash (name ++ String equalsSign v))
                     :: rest) 1 name v)
      end.
      rewrite SingletonFlag_attached by (simpl; lia). rewrite Hparse.
      rewrite (setMember_same _ _ _ Hnth). reflexivity.
Qed.

Lemma bad_value_is_rejected_witness :
  (exists r',
      parseArgsR 1 (Flag_int64_t (flag "param"))
                 (firstToken ["prog"; "--param"; "abc"])
      = Done false (Flag_int64_t (flag "param")) r')
  /\ parseArgv 2 BasicFlagGroup ["prog"; "--param"; "abc"; "--alive=yes"]
     = Returned false BasicFlagGroup
  /\ parseArgv 2 BasicFlagGroup ["prog"; "--param=abc"; "--alive=yes"]
     = Returned false BasicFlagGroup.
Proof.
  destruct (bad_value_is_rejected
              0 (flag "param") (TInt ParseType.I64) (VInt 0) "abc" eq_refl)
    as [Hlocal Hroot].
  split.
  - apply (Hlocal false (firstToken ["prog"; "--param"; "abc"])).
    reflexivity.
  - apply (Hroot anonymous (membersOf BasicFlagGroup) "prog" "param"
                 ["--alive=yes"] 1);
      reflexivity.
Defined.

(** A flag that wants a value, called with none in hand when no argument
    follows, reads [argv] past its last argument. *)
Lemma wants_value_nothing_follows :
  forall n f r,
    height f < n ->
    wantsValue f = true ->
    ArgReader.hasValue r = false ->
    ArgReader.position r < ArgReader.argc r ->
    nth_error (ArgReader.argv r) (S (ArgReader.position r)) = None ->
    parseArgsR n f r = Undefined.
Proof.
  induction n as [|n IH]; intros f r Hh Hw Hv Hm Hnth; [lia|].
  destruct f as [a P p v|a p|v|a g re T e vs|a ms]; try discriminate.
  - rewrite parseArgsR_primitive.
    unfold SingletonFlag_parseArgsR, ArgReader.hasMoreArguments,
      ArgReader.nextRawArgument.
    rewrite Hv, Hnth.
    replace (ArgReader.position r <? ArgReader.argc r)%nat with true
      by (symmetry; apply Nat.ltb_lt; lia).
    reflexivity.
  - rewrite parseArgsR_flag.
    simpl in Hh, Hw. rewrite (IH v r) by (auto; lia). reflexivity.
  - rewrite parseArgsR_vector. simpl in Hh, Hw.
    rewrite (IH (newFlag a T) r); auto.
    + unfold newFlag. rewrite height_construct. lia.
    + unfold newFlag. rewrite wantsValue_construct. assumption.
Qed.

(** X13. A flag that takes a value and is given none, as the last
    argument, reads [argv[argc]]: [hasMoreArguments] holds as long as the
    cursor is on an argument, so [nextRawArgument] is called with nothing
    to return.  It is so wherever the flag is called with no value in hand
    and no argument after the cursor, and so for a run that ends with the
    long flag of a member of the root group, or with a cluster of short
    flags that starts with its short flag. *)
Theorem value_flag_without_value_reads_past_the_arguments :
  forall fuel a ms prog i m,
    nth_error ms i = Some m ->
    wantsValue m = true ->
    atCapacity m = false ->
    height (FlagGroup a ms) < fuel ->
    (forall n f r,
        height f < n ->
        wantsValue f = true ->
        ArgReader.hasValue r = false ->
        ArgReader.position r < ArgReader.argc r ->
        nth_error (ArgReader.argv r) (S (ArgReader.position r)) = None ->
        parseArgsR n f r = Undefined)
    /\ (forall name,
           ArgReader.splitAtEquals name = None ->
           String.eqb (_longName a) name = false ->
           membersByLongName ms name = Some i ->
           parseArgv fuel (FlagGroup a ms)
                     [prog; String dash (String dash name)]
           = UndefinedBehaviour)
    /\ (forall c cs,
           Ascii.eqb c dash = false ->
           Ascii.eqb (_shortName a) c = false ->
           membersByShortName ms c = Some i ->
           parseArgv fuel (FlagGroup a ms) [prog; String dash (String c cs)]
           = UndefinedBehaviour).
Proof.
  intros fuel a ms prog i m Hnth Hw Hc Hfuel.
  split; [exact wants_value_nothing_follows|].
  destruct fuel as [|n]; [lia|].
  assert (Hm : height m < n).
  { pose proof (maxHeight_member _ _ _ Hnth) as Hle.
    unfold maxHeight in Hle. simpl in Hfuel. lia. }
  destruct n as [|k]; [lia|].
  split.
  - intros name Hname Hown Hfound.
    rewrite parseArgv_tokenAt by (simpl; lia).
    unfold tokenAt. cbn [nth_error].
    rewrite (readArgument_long _ _ _ Hname). reader_fields.
    rewrite FlagGroup_loop;
      [|reflexivity|apply namesGroup_other_long; [reflexivity|exact Hown]].
    dispatch_to i m Hfound Hnth. rewrite Hc.
    rewrite wants_value_nothing_follows; auto.
  - intros c cs Hd Hown Hfound.
    rewrite parseArgv_tokenAt by (simpl; lia).
    unfold tokenAt. cbn [nth_error].
    rewrite (readArgument_short _ _ _ cs Hd). reader_fields.
    rewrite FlagGroup_loop;
      [|reflexivity|apply namesGroup_other_short; [reflexivity|exact Hown]].
    dispatch_to i m Hfound Hnth. rewrite Hc.
    rewrite wants_value_nothing_follows; auto.
Qed.

Lemma value_flag_without_value_reads_past_the_arguments_witness :
  parseArgv 3 BasicFlagGroup ["prog"; "--param"] = UndefinedBehaviour
  /\ parseArgv 3 DisplayFileRoot ["prog"; "-bp"] = UndefinedBehaviour.
Proof.
  split.
  - apply (proj1 (proj2 (value_flag_without_value_reads_past_the_arguments
                           3 anonymous (membersOf BasicFlagGroup) "prog" 1
                           (Flag_int64_t (flag "param"))
                           eq_refl eq_refl eq_refl ltac:(simpl; lia)))
                 "param"); reflexivity.
  - apply (proj2 (proj2 (value_flag_without_value_reads_past_the_arguments
                           3 anonymous (membersOf DisplayFileRoot) "prog" 2
                           (vectorOf (Flag_int anonymous)
                                     (flag2 "bookmark" "b"))
                           eq_refl eq_refl eq_refl ltac:(simpl; lia)))
                 "b"%char "p"); reflexivity.
Defined.

(* ------------------------------------------------------------------ *)
(** ** One scalar flag after another *)

Lemma membersByLongName_setMember :
  forall ms i m m' name,
    nth_error ms i = Some m -> later m m' ->
    membersByLongName (setMember ms i m') name = membersByLongName ms name.
Proof.
  intros ms i m m' name Hnth Hl.
  apply later_membersByLongName.
  eapply Forall2_later_setMember; eassumption.
Qed.

Lemma setMember_comm :
  forall ms i j x y,
    i <> j ->
    setMember (setMember ms i x) j y = setMember (setMember ms j y) i x.
Proof.
  induction ms as [|m ms IH]; intros [|i] [|j] x y H; simpl;
    try reflexivity; try congruence.
  f_equal. apply IH. congruence.
Qed.

(** One turn of the loop of a group on a scalar flag followed by its
    value. *)
Lemma groupLoop_scalar_step :
  forall n k a ms argv p name raw i a' P d x,
    membersByLongName ms name = Some i ->
    nth_error ms i = Some (PrimitiveFlag a' P false d) ->
    nth_error argv (S p) = Some raw ->
    parseType P raw = Some x ->
    groupLoop (parseArgsR (S n)) (S k) a ms (flagReader argv p name)
    = match tokenAt argv (S (S p)) with
      | Some r' =>
          groupLoop (parseArgsR (S n)) k a
                    (setMember ms i (PrimitiveFlag a' P true x)) r'
      | None => Undefined
      end.
Proof.
  intros n k a ms argv p name raw i a' P d x Hfound Hnth Hraw Hx.
  assert (Hlt : S p < List.length argv)
    by (apply nth_error_Some; congruence).
  assert (Hinv : parseArgsR (S n) (PrimitiveFlag a' P false d)
                            (flagReader argv p name)
                 = match tokenAt argv (S (S p)) with
                   | Some r' => Done true (PrimitiveFlag a' P true x) r'
                   | None => Undefined
                   end).
  { rewrite parseArgsR_primitive,
      (SingletonFlag_next_argument _ _ _ _ _ _ raw Hraw).
    unfold parse. rewrite Hx. reflexivity. }
  destruct (tokenAt argv (S (S p))) as [r'|] eqn:Et.
  - apply (groupLoop_member_parsed
             _ k a ms _ i (PrimitiveFlag a' P false d)
             (PrimitiveFlag a' P true x) r');
      try reflexivity; try assumption.
    destruct (tokenAt_tell argv (S (S p)) r' ltac:(lia) Et) as (Ht & _).
    rewrite Ht. unfold flagReader, ArgReader.tell. reader_fields. lia.
  - dispatch_to i (PrimitiveFlag a' P false d) Hfound Hnth.
    cbn [atCapacity]. rewrite Hinv. reflexivity.
Qed.

(** X14. The loop of a group stops at a flag whose member is at
    capacity, as a scalar that has its value is: the token is left unread
    and the group is as it was, and when the loop is that of the root
    group, what [parseArgs] returns is false.  So a scalar member of the
    root group that is given twice at the head of the arguments, each time
    by its long flag with the value after it, is parsed once:
    [parseArgs] returns false, whatever arguments follow, and the flag
    keeps its first value. *)
Theorem scalar_flag_given_twice_is_rejected :
  (forall inv k ga ms r i m,
      ArgReader.atEnd r = false ->
      dispatched ms r = Some i ->
      nth_error ms i = Some m ->
      atCapacity m = true ->
      groupLoop inv (S k) ga ms r = Done true (FlagGroup ga ms) r
      /\ resultOf (groupLoop inv (S k) ga ms r)
         = Returned false (FlagGroup ga ms))
  /\ (forall fuel a ms prog name v w rest i a' P d x,
         ArgReader.splitAtEquals name = None ->
         String.eqb (_longName a) name = false ->
         membersByLongName ms name = Some i ->
         nth_error ms i = Some (PrimitiveFlag a' P false d) ->
         parseType P v = Some x ->
         parseArgv (S (S (S fuel))) (FlagGroup a ms)
                   (prog :: separateForm name v ++ separateForm name w
                         ++ rest)
         = Returned false
             (FlagGroup a (setMember ms i (PrimitiveFlag a' P true x)))).
Proof.
  split.
  - intros inv k ga ms r i m Hend Hd Hnth Hcap.
    rewrite (groupLoop_dispatch inv k ga ms r i m Hend Hd Hnth), Hcap.
    split; [reflexivity|]. cbn [resultOf]. rewrite Hend. reflexivity.
  - intros fuel a ms prog name v w rest i a' P d x Hname Hown Hfound Hnth Hx.
    unfold separateForm. cbn [app].
    set (argv := prog :: String dash (String dash name) :: v
                      :: String dash (String dash name) :: w :: rest).
    rewrite parseArgv_tokenAt by (simpl; lia).
    unfold tokenAt. cbn [nth_error argv].
    rewrite (readArgument_long _ _ _ Hname). reader_fields.
    rewrite FlagGroup_loop;
      [|reflexivity|apply namesGroup_other_long; [reflexivity|exact Hown]].
    change (ArgReader.mk (List.length argv) argv NUL name "" false false
                         false false 1 [])
      with (flagReader argv 1 name).
    rewrite (groupLoop_scalar_step _ _ _ _ argv 1 name v i a' P d x Hfound
                                   Hnth eq_refl Hx).
    unfold tokenAt. cbn [nth_error argv].
    rewrite (readArgument_long _ _ _ Hname). reader_fields.
    match goal with
    | |- context [groupLoop ?inv (S ?k) ?b ?ms' ?r] =>
        rewrite (groupLoop_dispatch inv k b ms' r i
                   (PrimitiveFlag a' P true x) eq_refl)
    end.
    + reflexivity.
    + unfold dispatched. cbn.
      rewrite (membersByLongName_setMember _ _ _ _ _ Hnth); [assumption|].
      constructor. discriminate.
    + eapply nth_error_setMember_same. eassumption.
Qed.

Lemma scalar_flag_given_twice_is_rejected_witness :
  parseArgv 3 BasicFlagGroup ["prog"; "--param"; "1"; "--param"; "2"]
  = Returned false
      (FlagGroup anonymous
         [ Flag_bool (flag "alive");
           PrimitiveFlag (flag "param") (TInt ParseType.I64) true (VInt 1);
           vectorOf (Flag_int anonymous) (flag "ind") ]).
Proof.
  apply (proj2 scalar_flag_given_twice_is_rejected
           0 anonymous (membersOf BasicFlagGroup) "prog" "param" "1" "2" []
           1 (flag "param") (TInt ParseType.I64) (VInt 0) (VInt 1));
    reflexivity.
Defined.

(** Two arrays of the same length that agree from a position on are read
    alike from there. *)
Lemma tokenAt_same_suffix :
  forall argvA argvB p,
    List.length argvA = List.length argvB ->
    skipn p argvA = skipn p argvB ->
    match tokenAt argvA p, tokenAt argvB p with
    | Some rA, Some rB => shifted 0 rA rB
    | None, None => True
    | _, _ => False
    end.
Proof.
  intros argvA argvB p Hlen Hskip.
  destruct (skipn_agree _ _ _ _ Hskip) as [Hnth Hrest].
  unfold tokenAt. rewrite <- Hnth.
  destruct (nth_error argvA p) as [arg|].
  - rewrite (readArgument_classifies
               (ArgReader.mk _ argvA NUL "" "" true false false false 0 [])
               _ arg),
      (readArgument_classifies
         (ArgReader.mk _ argvB NUL "" "" true false false false 0 [])
         _ arg).
    destruct (ArgReader.readArgument (ArgReader.make 0 []) 0 arg);
      [|exact I].
    unfold shifted. reader_fields. rewrite !Nat.add_0_r.
    repeat split; auto.
  - unfold shifted, endReader. reader_fields. rewrite !Nat.add_0_r.
    repeat split; auto.
    rewrite !skipn_all2 by lia. reflexivity.
Qed.

(** X15. Two scalar flags of a group, each followed by a value that its
    type accepts, may be given in either order: the two runs return the
    same and leave the group in the same state, whatever arguments
    follow. *)
Theorem two_scalar_flags_in_either_order :
  forall fuel a ms prog n1 v1 n2 v2 rest i j a1 P1 d1 x1 a2 P2 d2 x2,
    ArgReader.splitAtEquals n1 = None ->
    ArgReader.splitAtEquals n2 = None ->
    String.eqb (_longName a) n1 = false ->
    String.eqb (_longName a) n2 = false ->
    membersByLongName ms n1 = Some i ->
    membersByLongName ms n2 = Some j ->
    i <> j ->
    nth_error ms i = Some (PrimitiveFlag a1 P1 false d1) ->
    nth_error ms j = Some (PrimitiveFlag a2 P2 false d2) ->
    parseType P1 v1 = Some x1 ->
    parseType P2 v2 = Some x2 ->
    parseArgv (S (S (S fuel))) (FlagGroup a ms)
              (prog :: separateForm n1 v1 ++ separateForm n2 v2 ++ rest)
    = parseArgv (S (S (S fuel))) (FlagGroup a ms)
                (prog :: separateForm n2 v2 ++ separateForm n1 v1 ++ rest).
Proof.
  intros fuel a ms prog n1 v1 n2 v2 rest i j a1 P1 d1 x1 a2 P2 d2 x2
         Hn1 Hn2 Ho1 Ho2 Hf1 Hf2 Hij Hi Hj Hx1 Hx2.
  assert (Hrun : forall na va nb vb ia ib aa Pa da xa ab Pb db xb,
             ArgReader.splitAtEquals na = None ->
             ArgReader.splitAtEquals nb = None ->
             String.eqb (_longName a) na = false ->
             membersByLongName ms na = Some ia ->
             membersByLongName ms nb = Some ib ->
             ia <> ib ->
             nth_error ms ia = Some (PrimitiveFlag aa Pa false da) ->
             nth_error ms ib = Some (PrimitiveFlag ab Pb false db) ->
             parseType Pa va = Some xa ->
             parseType Pb vb = Some xb ->
             parseArgv (S (S (S fuel))) (FlagGroup a ms)
                       (prog :: separateForm na va ++ separateForm nb vb
                             ++ rest)
             = match tokenAt (prog :: separateForm na va
                                   ++ separateForm nb vb ++ rest) 5 with
               | Some r =>
                   resultOf
                     (groupLoop (parseArgsR (S (S fuel))) fuel a
                        (setMember
                           (setMember ms ia (PrimitiveFlag aa Pa true xa))
                           ib (PrimitiveFlag ab Pb true xb)) r)
               | None => UndefinedBehaviour
               end).
  { intros na va nb vb ia ib aa Pa da xa ab Pb db xb
           Hna Hnb Hoa Hfa Hfb Hne Hia Hib Hxa Hxb.
    unfold separateForm. cbn [app].
    set (argv := prog :: String dash (String dash na) :: va
                      :: String dash (String dash nb) :: vb :: rest).
    rewrite parseArgv_tokenAt by (simpl; lia).
    unfold tokenAt at 1. cbn [nth_error argv].
    rewrite (readArgument_long _ _ _ Hna). reader_fields.
    rewrite FlagGroup_loop;
      [|reflexivity|apply namesGroup_other_long; [reflexivity|exact Hoa]].
    change (ArgReader.mk (List.length argv) argv NUL na "" false false
                         false false 1 [])
      with (flagReader argv 1 na).
    rewrite (groupLoop_scalar_step _ _ _ _ argv 1 na va ia aa Pa da xa
                                   Hfa Hia eq_refl Hxa).
    unfold tokenAt at 1. cbn [nth_error argv].
    rewrite (readArgument_long _ _ _ Hnb). reader_fields.
    change (ArgReader.mk (List.length argv) argv NUL nb "" false false
                         false false 3 [])
      with (flagReader argv 3 nb).
    rewrite (groupLoop_scalar_step _ _ _ _ argv 3 nb vb ib ab Pb db xb);
      [| |rewrite nth_error_setMember_other by assumption; exact Hib
       |reflexivity|exact Hxb].
    - destruct (tokenAt argv 5); reflexivity.
    - rewrite (membersByLongName_setMember _ _ _ _ _ Hia); [assumption|].
      constructor. discriminate. }
  rewrite (Hrun n1 v1 n2 v2 i j a1 P1 d1 x1 a2 P2 d2 x2) by assumption.
  rewrite (Hrun n2 v2 n1 v1 j i a2 P2 d2 x2 a1 P1 d1 x1)
    by (assumption || congruence).
  rewrite (setMember_comm ms j i _ _ (not_eq_sym Hij)).
  match goal with
  | |- match tokenAt ?A 5 with _ => _ end
       = match tokenAt ?B 5 with _ => _ end =>
      pose proof (tokenAt_same_suffix A B 5 eq_refl eq_refl) as Hs
  end.
  match type of Hs with
  | match tokenAt ?A 5 with _ => _ end =>
      destruct (tokenAt A 5) as [rA|]
  end;
  match type of Hs with
  | match tokenAt ?B 5 with _ => _ end =>
      destruct (tokenAt B 5) as [rB|]
  end; try contradiction; [|reflexivity].
  apply (sameOutcome_resultOf 0).
  apply groupLoop_shifted; [|assumption].
  intros m rA' rB' Hs'. apply parseArgsR_shifted. assumption.
Qed.

Lemma two_scalar_flags_in_either_order_witness :
  parseArgv 8 BasicFlagGroup
            ["prog"; "--alive"; "yes"; "--param"; "20"; "--ind"; "1"]
  = parseArgv 8 BasicFlagGroup
              ["prog"; "--param"; "20"; "--alive"; "yes"; "--ind"; "1"].
Proof.
  apply (two_scalar_flags_in_either_order
           5 anonymous (membersOf BasicFlagGroup) "prog"
           "alive" "yes" "param" "20" ["--ind"; "1"] 0 1
           (flag "alive") TBool (VBool false) (VBool true)
           (flag "param") (TInt ParseType.I64) (VInt 0) (VInt 20));
    solve [reflexivity | discriminate].
Defined.

(* ------------------------------------------------------------------ *)
(** ** A greedy vector and the values that follow its flag *)

(** A greedy vector of scalars that has just taken a value goes on through
    the bare arguments that follow, up to the end of the arguments.  There
    the reader holds a long flag with the empty name: a re-entrant vector
    without a long name takes it for its own, calls itself once more and
    fails for want of a value. *)
Lemma vector_takes_bare_values :
  forall a re aT P pT dT vals xs,
    Forall2 (fun s x => isBare s = true /\ parseType P s = Some x) vals xs ->
    forall argv q els n x0,
      skipn q argv = vals ->
      q <= List.length argv ->
      List.length vals + 2 <= n ->
      exists r',
        tokenAt argv q = Some r'
        /\ ArgReader.tell r' = q
        /\ (if reinvokes true re r' (PrimitiveFlag a P true x0)
            then parseArgsR n (VectorFlag a true re
                                 (PrimitiveFlag aT P pT dT) true els) r'
            else Done true (VectorFlag a true re
                              (PrimitiveFlag aT P pT dT) true els) r')
           = Done (negb (re && String.eqb (_longName a) ""))
                  (VectorFlag a true re (PrimitiveFlag aT P pT dT) true
                              (els ++ parsedElements a P xs))
                  (endReader argv).
Proof.
  intros a re aT P pT dT vals xs HF.
  induction HF as [|s x vals xs [Hbare Hparse] HF IH];
    intros argv q els n x0 Hskip Hq Hn.
  - assert (Hend : q = List.length argv).
    { destruct (Nat.eq_dec q (List.length argv)) as [E|E]; [exact E|].
      assert (Hlen : List.length (skipn q argv) = List.length argv - q)
        by apply length_skipn.
      rewrite Hskip in Hlen. simpl in Hlen. lia. }
    exists (endReader argv). subst q.
    unfold tokenAt.
    replace (nth_error argv (List.length argv)) with (@None string)
      by (symmetry; apply nth_error_None; lia).
    split; [reflexivity|]. split; [reflexivity|].
    unfold parsedElements. simpl map. rewrite app_nil_r.
    unfold reinvokes, canReenter, endReader, ArgReader.hasAnyFlag,
      ArgReader.hasShortFlag, ArgReader.getLongFlag.
    reader_fields. cbn [negb andb orb hasFlag].
    destruct re; cbn [negb andb]; [|reflexivity].
    destruct (String.eqb (_longName a) "") eqn:E; cbn [negb]; [|reflexivity].
    destruct n as [|[|n]]; try (simpl in Hn; lia).
    rewrite parseArgsR_vector. unfold newFlag. cbn [construct].
    rewrite parseArgsR_primitive.
    unfold SingletonFlag_parseArgsR, ArgReader.hasValue,
      ArgReader.hasMoreArguments. reader_fields.
    rewrite Nat.ltb_irrefl. reflexivity.
  - destruct (skipn_agree _ _ _ _ (eq_trans Hskip
                 (eq_sym (eq_refl : skipn 0 (s :: vals) = s :: vals))))
      as [Hnth Hrest].
    simpl in Hnth, Hrest.
    assert (Hlt : q < List.length argv)
      by (apply nth_error_Some; congruence).
    exists (bareReader argv q s).
    unfold tokenAt. rewrite Hnth, (readArgument_bare _ _ _ Hbare).
    reader_fields. split; [reflexivity|]. split; [reflexivity|].
    replace (reinvokes true re (bareReader argv q s)
                       (PrimitiveFlag a P true x0)) with true
      by reflexivity.
    destruct n as [|[|n]]; try (simpl in Hn; lia).
    rewrite parseArgsR_vector. unfold newFlag. cbn [construct].
    rewrite parseArgsR_primitive.
    unfold SingletonFlag_parseArgsR at 1, bareReader at 1 2 3,
      ArgReader.hasValue, ArgReader.getValue. reader_fields.
    unfold parse. rewrite Hparse.
    rewrite parseNextArg_tokenAt by assumption.
    destruct (IH argv (S q) (els ++ [PrimitiveFlag a P true x]) (S n) x
                 Hrest ltac:(lia) ltac:(simpl in Hn |- *; lia))
      as (r' & Ht & Htell & Hgo).
    rewrite Ht, Htell.
    unfold bareReader, ArgReader.tell. reader_fields.
    replace (q =? S q)%nat with false
      by (symmetry; apply Nat.eqb_neq; lia).
    rewrite Hgo. unfold parsedElements. simpl map.
    rewrite <- app_assoc. reflexivity.
Qed.

(** The first call of a greedy vector of scalars, on its flag without a
    value: the argument after the flag is the first value, whatever it
    looks like, and the bare arguments after it are the next ones. *)
Lemma vector_first_value :
  forall n a re aT P pT dT e els argv ck k fa fc p v0 x0 vals xs,
    nth_error argv (S p) = Some v0 ->
    skipn (S (S p)) argv = vals ->
    parseType P v0 = Some x0 ->
    Forall2 (fun s x => isBare s = true /\ parseType P s = Some x) vals xs ->
    List.length vals + 1 <= n ->
    parseArgsR (S (S n))
               (VectorFlag a true re (PrimitiveFlag aT P pT dT) e els)
               (ArgReader.mk (List.length argv) argv ck k "" fa fc false
                             false p [])
    = Done (negb (re && String.eqb (_longName a) ""))
           (VectorFlag a true re (PrimitiveFlag aT P pT dT) true
                       (els ++ parsedElements a P (x0 :: xs)))
           (endReader argv).
Proof.
  intros n a re aT P pT dT e els argv ck k fa fc p v0 x0 vals xs
         Hnth Hskip Hx0 HF Hn.
  assert (Hlt : S p < List.length argv)
    by (apply nth_error_Some; congruence).
  rewrite parseArgsR_vector. unfold newFlag. cbn [construct].
  rewrite parseArgsR_primitive,
    (SingletonFlag_no_value _ _ _ _ _ _ _ _ _ v0 Hnth).
  unfold parse. rewrite Hx0.
  destruct (vector_takes_bare_values
              a re aT P pT dT vals xs HF argv (S (S p))
              (els ++ [PrimitiveFlag a P true x0]) (S n) x0
              Hskip ltac:(lia) ltac:(lia))
    as (r' & Ht & Htell & Hgo).
  rewrite Ht, Htell. unfold ArgReader.tell. reader_fields.
  replace (p =? S (S p))%nat with false
    by (symmetry; apply Nat.eqb_neq; lia).
  rewrite Hgo. unfold parsedElements. simpl map.
  rewrite <- app_assoc. reflexivity.
Qed.

(** X16. A greedy vector of scalars, after its long flag, takes the next
    argument as its first value, whatever it looks like, and then every
    bare argument up to the end of the arguments, in order: [parseArgs]
    returns true and the vector holds, after the elements it had, one
    element for each value. *)
Theorem greedy_vector_takes_the_values_that_follow :
  forall fuel a ms prog name v0 vals x0 xs i a' re aT P pT dT e els,
    ArgReader.splitAtEquals name = None ->
    String.eqb (_longName a) name = false ->
    membersByLongName ms name = Some i ->
    nth_error ms i
    = Some (VectorFlag a' true re (PrimitiveFlag aT P pT dT) e els) ->
    e && negb re = false ->
    parseType P v0 = Some x0 ->
    Forall2 (fun s x => isBare s = true /\ parseType P s = Some x) vals xs ->
    parseArgv (S (S (S (S (List.length vals + fuel))))) (FlagGroup a ms)
              (prog :: String dash (String dash name) :: v0 :: vals)
    = Returned true
        (FlagGroup a
           (setMember ms i
              (VectorFlag a' true re (PrimitiveFlag aT P pT dT) true
                          (els ++ parsedElements a' P (x0 :: xs))))).
Proof.
  intros fuel a ms prog name v0 vals x0 xs i a' re aT P pT dT e els
         Hname Hown Hfound Hnth Hcap Hx0 HF.
  assert (Hlong : String.eqb (_longName a') "" = false).
  { destruct (membersByLongName_found _ _ _ Hfound) as (m & Hm & Hhas & _).
    rewrite Hnth in Hm. inversion Hm; subst m.
    unfold hasLongName, getLongName in Hhas. simpl in Hhas.
    destruct (_longName a'); [discriminate|reflexivity]. }
  set (argv := prog :: String dash (String dash name) :: v0 :: vals).
  rewrite parseArgv_tokenAt by (simpl; lia).
  unfold tokenAt. cbn [nth_error argv].
  rewrite (readArgument_long _ _ _ Hname). reader_fields.
  rewrite FlagGroup_loop;
    [|reflexivity|apply namesGroup_other_long; [reflexivity|exact Hown]].
  match goal with
  | |- context [groupLoop ?inv (S ?k) a ms ?r] =>
      rewrite (groupLoop_member_parsed
                 inv k a ms r i _
                 (VectorFlag a' true re (PrimitiveFlag aT P pT dT) true
                             (els ++ parsedElements a' P (x0 :: xs)))
                 (endReader argv) eq_refl Hfound Hnth Hcap)
  end.
  - rewrite groupLoop_at_end by reflexivity. reflexivity.
  - rewrite (vector_first_value
               (S (List.length vals + fuel))
               a' re aT P pT dT e els argv NUL name false false 1
               v0 x0 vals xs eq_refl eq_refl Hx0 HF ltac:(lia)).
    rewrite Hlong, andb_false_r. reflexivity.
  - unfold endReader, ArgReader.tell. reader_fields. simpl. lia.
Qed.

Lemma greedy_vector_takes_the_values_that_follow_witness :
  parseArgv 6 BasicFlagGroup ["prog"; "--ind"; "-5"; "6"; "7"]
  = Returned true
      (FlagGroup anonymous
         [ Flag_bool (flag "alive");
           Flag_int64_t (flag "param");
           VectorFlag (flag "ind") true true (Flag_int anonymous) true
             (parsedElements (flag "ind") (TInt ParseType.I32)
                             [VInt (-5); VInt 6; VInt 7]) ]).
Proof.
  apply (greedy_vector_takes_the_values_that_follow
           0 anonymous (membersOf BasicFlagGroup) "prog" "ind" "-5"
           ["6"; "7"] (VInt (-5)) [VInt 6; VInt 7] 2 (flag "ind") true
           anonymous (TInt ParseType.I32) false (VInt 0) false []);
    try reflexivity.
  repeat constructor.
Defined.

(** X17. A greedy re-entrant vector of scalars ([Flag<std::vector<T>>])
    that has a short name and no long name fails when its values are the
    last arguments: at the end of the arguments the reader holds a long
    flag with the empty name, which the vector takes for its own, so it
    calls itself once more and returns false for want of a value.
    [parseArgs] returns false, with the values stored. *)
Theorem vector_without_long_name_fails_at_the_end :
  forall fuel a ms prog c v0 vals x0 xs i a' aT P pT dT e els,
    Ascii.eqb c dash = false ->
    Ascii.eqb (_shortName a) c = false ->
    membersByShortName ms c = Some i ->
    nth_error ms i
    = Some (VectorFlag a' true true (PrimitiveFlag aT P pT dT) e els) ->
    _longName a' = "" ->
    parseType P v0 = Some x0 ->
    Forall2 (fun s x => isBare s = true /\ parseType P s = Some x) vals xs ->
    parseArgv (S (S (S (S (List.length vals + fuel))))) (FlagGroup a ms)
              (prog :: String dash (String c "") :: v0 :: vals)
    = Returned false
        (FlagGroup a
           (setMember ms i
              (VectorFlag a' true true (PrimitiveFlag aT P pT dT) true
                          (els ++ parsedElements a' P (x0 :: xs))))).
Proof.
  intros fuel a ms prog c v0 vals x0 xs i a' aT P pT dT e els
         Hc Hown Hfound Hnth Hlong Hx0 HF.
  set (argv := prog :: String dash (String c "") :: v0 :: vals).
  rewrite parseArgv_tokenAt by (simpl; lia).
  unfold tokenAt. cbn [nth_error argv].
  rewrite (readArgument_short _ _ _ "" Hc). reader_fields.
  rewrite FlagGroup_loop;
    [|reflexivity|apply namesGroup_other_short; [reflexivity|exact Hown]].
  dispatch_to i (VectorFlag a' true true (PrimitiveFlag aT P pT dT) e els)
              Hfound Hnth.
  cbn [atCapacity negb]. rewrite andb_false_r.
  change (ArgReader.charsOf "") with (@nil ascii).
  rewrite (vector_first_value
             (S (List.length vals + fuel))
             a' true aT P pT dT e els argv c "" false true 1
             v0 x0 vals xs eq_refl eq_refl Hx0 HF ltac:(lia)).
  rewrite Hlong. reflexivity.
Qed.

Lemma vector_without_long_name_fails_at_the_end_witness :
  parseArgv 5
    (FlagGroup anonymous [ vectorOf (Flag_int anonymous) (flagc "b") ])
    ["prog"; "-b"; "1"; "2"]
  = Returned false
      (FlagGroup anonymous
         [ VectorFlag (flagc "b") true true (Flag_int anonymous) true
             (parsedElements (flagc "b") (TInt ParseType.I32)
                             [VInt 1; VInt 2]) ]).
Proof.
  apply (vector_without_long_name_fails_at_the_end
           0 anonymous [ vectorOf (Flag_int anonymous) (flagc "b") ]
           "prog" "b"%char "1" ["2"] (VInt 1) [VInt 2] 0 (flagc "b")
           anonymous (TInt ParseType.I32) false (VInt 0) false []);
    try reflexivity.
  repeat constructor.
Defined.

(* ------------------------------------------------------------------ *)
(** ** The ways of giving values to a vector, mixed *)

Lemma skipn_cons {A} :
  forall (l : list A) q x rest,
    skipn q l = x :: rest ->
    nth_error l q = Some x /\ skipn (S q) l = rest.
Proof.
  intros l q x rest H. destruct (skipn_next q l) as [H1 H2].
  rewrite H1, H2, H. split; reflexivity.
Qed.

(** The mark [entered] of a vector has no part in its parse. *)
Lemma parseArgsR_vector_entered :
  forall n a g re T e vs r,
    parseArgsR n (VectorFlag a g re T e vs) r
    = parseArgsR n (VectorFlag a g re T true vs) r.
Proof.
  intros [|n] a g re T e vs r; [reflexivity|].
  rewrite !parseArgsR_vector. reflexivity.
Qed.

(** A greedy re-entrant vector of scalars that is on a value given in one
    of the three ways takes it and goes on through the values that follow,
    however each is given, up to the end of the arguments. *)
Lemma vector_takes_given :
  forall a name aT P pT dT,
    ArgReader.splitAtEquals name = None ->
    String.eqb (_longName a) name = true ->
    String.eqb (_longName a) "" = false ->
    forall gs xs,
      Forall2 (accepted P) gs xs ->
      forall argv q els n x0,
        skipn q argv = writtenOut name gs ->
        q <= List.length argv ->
        List.length gs + 2 <= n ->
        exists r',
          tokenAt argv q = Some r'
          /\ ArgReader.tell r' = q
          /\ (gs <> [] ->
              reinvokes true true r' (PrimitiveFlag a P true x0) = true)
          /\ (if reinvokes true true r' (PrimitiveFlag a P true x0)
              then parseArgsR n (VectorFlag a true true
                                   (PrimitiveFlag aT P pT dT) true els) r'
              else Done true (VectorFlag a true true
                                (PrimitiveFlag aT P pT dT) true els) r')
             = Done true
                    (VectorFlag a true true (PrimitiveFlag aT P pT dT) true
                                (els ++ parsedElements a P xs))
                    (endReader argv).
Proof.
  intros a name aT P pT dT Hname Hown Hlong gs xs HF.
  induction HF as [|g x gs xs [Hparse Hbare] HF IH];
    intros argv q els n x0 Hskip Hq Hn.
  - assert (Hend : q = List.length argv).
    { destruct (Nat.eq_dec q (List.length argv)) as [E|E]; [exact E|].
      assert (Hlen : List.length (skipn q argv) = List.length argv - q)
        by apply length_skipn.
      rewrite Hskip in Hlen. simpl in Hlen. lia. }
    exists (endReader argv). subst q.
    unfold tokenAt.
    replace (nth_error argv (List.length argv)) with (@None string)
      by (symmetry; apply nth_error_None; lia).
    split; [reflexivity|]. split; [reflexivity|].
    split; [congruence|].
    unfold parsedElements. simpl map. rewrite app_nil_r.
    unfold reinvokes, canReenter, endReader, ArgReader.hasAnyFlag,
      ArgReader.hasShortFlag, ArgReader.getLongFlag.
    reader_fields. cbn [negb andb orb hasFlag]. rewrite Hlong.
    reflexivity.
  - destruct n as [|[|n]]; try (simpl in Hn; lia).
    unfold writtenOut in Hskip. cbn [flat_map] in Hskip.
    fold (writtenOut name gs) in Hskip.
    destruct g as [v|v|v]; cbn [givenArgs separateForm attachedForm app]
      in Hskip; cbn [givenValue] in Hparse.
    + (* the flag, then the value *)
      destruct (skipn_cons _ _ _ _ Hskip) as [Hnth0 Hrest0].
      destruct (skipn_cons _ _ _ _ Hrest0) as [Hnth1 Hrest1].
      assert (Hlt : S q < List.length argv)
        by (apply nth_error_Some; congruence).
      exists (flagReader argv q name).
      unfold tokenAt. rewrite Hnth0, (readArgument_long _ _ _ Hname).
      reader_fields. split; [reflexivity|]. split; [reflexivity|].
      assert (Hre : reinvokes true true (flagReader argv q name)
                              (PrimitiveFlag a P true x0) = true).
      { unfold reinvokes, canReenter, flagReader, ArgReader.hasAnyFlag,
          ArgReader.hasShortFlag, ArgReader.getLongFlag.
        reader_fields. cbn [negb andb orb hasFlag]. exact Hown. }
      split; [intros _; exact Hre|]. rewrite Hre.
      rewrite parseArgsR_vector. unfold newFlag. cbn [construct].
      rewrite parseArgsR_primitive,
        (SingletonFlag_next_argument _ _ _ _ _ _ v Hnth1).
      unfold parse. rewrite Hparse.
      destruct (IH argv (S (S q)) (els ++ [PrimitiveFlag a P true x])
                   (S n) x Hrest1 ltac:(lia) ltac:(simpl in Hn |- *; lia))
        as (r' & Ht & Htell & _ & Hgo).
      rewrite Ht, Htell. unfold flagReader, ArgReader.tell. reader_fields.
      replace (q =? S (S q))%nat with false
        by (symmetry; apply Nat.eqb_neq; lia).
      rewrite Hgo. unfold parsedElements. simpl map.
      rewrite <- app_assoc. reflexivity.
    + (* the value attached to the flag *)
      destruct (skipn_cons _ _ _ _ Hskip) as [Hnth0 Hrest0].
      assert (Hlt : q < List.length argv)
        by (apply nth_error_Some; congruence).
      exists (valueReader argv q name v).
      unfold tokenAt.
      rewrite Hnth0, (readArgument_long_value _ _ _ v Hname).
      reader_fields. split; [reflexivity|]. split; [reflexivity|].
      assert (Hre : reinvokes true true (valueReader argv q name v)
                              (PrimitiveFlag a P true x0) = true).
      { unfold reinvokes, canReenter, valueReader, ArgReader.hasAnyFlag,
          ArgReader.hasShortFlag, ArgReader.getLongFlag.
        reader_fields. cbn [negb andb orb hasFlag]. exact Hown. }
      split; [intros _; exact Hre|]. rewrite Hre.
      rewrite parseArgsR_vector. unfold newFlag. cbn [construct].
      rewrite parseArgsR_primitive, SingletonFlag_attached by assumption.
      unfold parse. rewrite Hparse.
      destruct (IH argv (S q) (els ++ [PrimitiveFlag a P true x])
                   (S n) x Hrest0 ltac:(lia) ltac:(simpl in Hn |- *; lia))
        as (r' & Ht & Htell & _ & Hgo).
      rewrite Ht, Htell. unfold valueReader, ArgReader.tell. reader_fields.
      replace (q =? S q)%nat with false
        by (symmetry; apply Nat.eqb_neq; lia).
      rewrite Hgo. unfold parsedElements. simpl map.
      rewrite <- app_assoc. reflexivity.
    + (* a bare value *)
      destruct (skipn_cons _ _ _ _ Hskip) as [Hnth0 Hrest0].
      assert (Hlt : q < List.length argv)
        by (apply nth_error_Some; congruence).
      exists (bareReader argv q v).
      unfold tokenAt. rewrite Hnth0, (readArgument_bare _ _ _ Hbare).
      reader_fields. split; [reflexivity|]. split; [reflexivity|].
      split; [reflexivity|].
      replace (reinvokes true true (bareReader argv q v)
                         (PrimitiveFlag a P true x0)) with true
        by reflexivity.
      rewrite parseArgsR_vector. unfold newFlag. cbn [construct].
      rewrite parseArgsR_primitive.
      unfold SingletonFlag_parseArgsR at 1, bareReader at 1 2 3,
        ArgReader.hasValue, ArgReader.getValue. reader_fields.
      unfold parse. rewrite Hparse.
      rewrite parseNextArg_tokenAt by assumption.
      destruct (IH argv (S q) (els ++ [PrimitiveFlag a P true x])
                   (S n) x Hrest0 ltac:(lia) ltac:(simpl in Hn |- *; lia))
        as (r' & Ht & Htell & _ & Hgo).
      rewrite Ht, Htell. unfold bareReader, ArgReader.tell. reader_fields.
      replace (q =? S q)%nat with false
        by (symmetry; apply Nat.eqb_neq; lia).
      rewrite Hgo. unfold parsedElements. simpl map.
      rewrite <- app_assoc. reflexivity.
Qed.

(** X18. The ways of giving values to a [Flag<std::vector<T>>] of scalars
    may be mixed freely: after a first value given with the flag, each
    further value may come after the flag again ([--name v]), attached to
    it ([--name=v]) or bare ([v]).  Whatever the mix, [parseArgs] returns
    true and the vector holds one element for each value, in order; so two
    command lines that give the same values give the same vector. *)
Theorem vector_values_however_given :
  forall fuel a ms prog name g0 gs x0 xs i a' aT P pT dT e els,
    ArgReader.splitAtEquals name = None ->
    String.eqb (_longName a) name = false ->
    membersByLongName ms name = Some i ->
    nth_error ms i
    = Some (VectorFlag a' true true (PrimitiveFlag aT P pT dT) e els) ->
    (forall v, g0 <> Bare v) ->
    Forall2 (accepted P) (g0 :: gs) (x0 :: xs) ->
    parseArgv (S (S (S (S (List.length gs + fuel))))) (FlagGroup a ms)
              (prog :: writtenOut name (g0 :: gs))
    = Returned true
        (FlagGroup a
           (setMember ms i
              (VectorFlag a' true true (PrimitiveFlag aT P pT dT) true
                          (els ++ parsedElements a' P (x0 :: xs))))).
Proof.
  intros fuel a ms prog name g0 gs x0 xs i a' aT P pT dT e els
         Hname Hown Hfound Hnth Hflag HF.
  destruct (membersByLongName_found _ _ _ Hfound) as (m & Hm & Hhas & Heq).
  rewrite Hnth in Hm. inversion Hm; subst m. clear Hm.
  unfold hasLongName, getLongName in Hhas, Heq. simpl in Hhas, Heq.
  assert (Hlong : String.eqb (_longName a') "" = false).
  { destruct (_longName a'); [discriminate|reflexivity]. }
  set (argv := prog :: writtenOut name (g0 :: gs)).
  destruct (vector_takes_given
              a' name aT P pT dT Hname Heq Hlong (g0 :: gs) (x0 :: xs) HF
              argv 1 els (S (S (S (List.length gs + fuel)))) x0
              eq_refl ltac:(unfold argv; simpl; lia) ltac:(simpl; lia))
    as (r' & Ht & Htell & Hre & Hgo).
  rewrite (Hre ltac:(discriminate)) in Hgo.
  assert (Hlen : 2 <= List.length argv)
    by (unfold argv, writtenOut; destruct g0; simpl; lia).
  rewrite parseArgv_tokenAt by exact Hlen.
  rewrite Ht.
  assert (Hr' : notOneFlag r' = false
                /\ namesGroup a r' = false
                /\ ArgReader.atEnd r' = false
                /\ dispatched ms r' = Some i).
  { unfold argv, writtenOut, tokenAt in Ht.
    destruct g0 as [v|v|v]; [| |destruct (Hflag v eq_refl)];
      cbn [flat_map givenArgs separateForm attachedForm app nth_error] in Ht.
    - rewrite (readArgument_long _ _ _ Hname) in Ht.
      inversion Ht; subst r'. repeat split; auto.
      apply namesGroup_other_long; [reflexivity|exact Hown].
    - rewrite (readArgument_long_value _ _ _ v Hname) in Ht.
      inversion Ht; subst r'. repeat split; auto.
      apply namesGroup_other_long; [reflexivity|exact Hown]. }
  destruct Hr' as (Hone & Hng & Hend & Hd).
  rewrite FlagGroup_loop by assumption.
  rewrite (groupLoop_member_parsed
             _ _ a ms r' i _
             (VectorFlag a' true true (PrimitiveFlag aT P pT dT) true
                         (els ++ parsedElements a' P (x0 :: xs)))
             (endReader argv) Hend Hd Hnth).
  - rewrite groupLoop_at_end by reflexivity. reflexivity.
  - cbn [atCapacity negb]. apply andb_false_r.
  - rewrite parseArgsR_vector_entered. exact Hgo.
  - rewrite Htell. unfold endReader, ArgReader.tell. reader_fields.
    unfold argv. destruct g0; simpl; lia.
Qed.

Lemma vector_values_however_given_witness :
  parseArgv 6 BasicFlagGroup ["prog"; "--ind=10"; "--ind"; "11"; "12"]
  = Returned true
      (FlagGroup anonymous
         [ Flag_bool (flag "alive");
           Flag_int64_t (flag "param");
           VectorFlag (flag "ind") true true (Flag_int anonymous) true
             (parsedElements (flag "ind") (TInt ParseType.I32)
                             [VInt 10; VInt 11; VInt 12]) ]).
Proof.
  apply (vector_values_however_given
           0 anonymous (membersOf BasicFlagGroup) "prog" "ind"
           (Attached "10") [AfterFlag "11"; Bare "12"]
           (VInt 10) [VInt 11; VInt 12] 2 (flag "ind")
           anonymous (TInt ParseType.I32) false (VInt 0) false []);
    try reflexivity.
  - discriminate.
  - repeat constructor.
Defined.

(* ------------------------------------------------------------------ *)
(** ** The limits of the numbers *)

Lemma limits_widen :
  forall k k',
    ParseType.isSigned k' = ParseType.isSigned k ->
    (ParseType.bits k <= ParseType.bits k')%Z ->
    (ParseType.minOf k' <= ParseType.minOf k)%Z
    /\ (ParseType.maxOf k <= ParseType.maxOf k')%Z.
Proof.
  intros k k' Hs Hb.
  destruct k, k'; try discriminate Hs;
    try (exfalso; apply Hb; reflexivity);
    split; intro Hc; vm_compute in Hc; discriminate.
Qed.

(** X19. An integer flag holds a value within the limits of its type: a
    text that [parseInt] accepts for a type gives a value between
    [min()] and [max()] of the type; and the same text is accepted, with
    the same value, for every type of the same signedness that is at least
    as wide. *)
Theorem parseInt_within_limits :
  forall k val i,
    ParseType.parseInt k val = Some i ->
    (ParseType.minOf k <= i <= ParseType.maxOf k)%Z
    /\ forall k',
        ParseType.isSigned k' = ParseType.isSigned k ->
        (ParseType.bits k <= ParseType.bits k')%Z ->
        ParseType.parseInt k' val = Some i.
Proof.
  intros k val i H. unfold ParseType.parseInt in H.
  destruct (if ParseType.isSigned k
            then ParseType.stoll val else ParseType.stoull val)
    as [j|] eqn:E; [|discriminate].
  destruct ((ParseType.minOf k <=? j)%Z && (j <=? ParseType.maxOf k)%Z)
    eqn:Eb; [|discriminate].
  inversion H; subst j. apply andb_true_iff in Eb.
  destruct Eb as [Hlo Hhi]. apply Z.leb_le in Hlo, Hhi.
  split; [lia|].
  intros k' Hs Hb. destruct (limits_widen k k' Hs Hb) as [Hmin Hmax].
  unfold ParseType.parseInt. rewrite Hs, E.
  replace (ParseType.minOf k' <=? i)%Z with true
    by (symmetry; apply Z.leb_le; lia).
  replace (i <=? ParseType.maxOf k')%Z with true
    by (symmetry; apply Z.leb_le; lia).
  reflexivity.
Qed.

Lemma parseInt_within_limits_witness :
  (ParseType.minOf ParseType.I8 <= -128 <= ParseType.maxOf ParseType.I8)%Z
  /\ ParseType.parseInt ParseType.I32 "-0x80" = Some (-128)%Z.
Proof.
  destruct (parseInt_within_limits ParseType.I8 "-0x80" (-128)%Z eq_refl)
    as [H1 H2].
  split; [exact H1|].
  apply H2; [reflexivity|]. intro Hc. vm_compute in Hc. discriminate.
Defined.

(** X20. A floating-point flag rejects zero and every negative number:
    [ParseFloatType] accepts a value only from [numeric_limits<T>::min()]
    on, which for a floating type is the smallest positive normalised
    value; so whatever finite value that is not positive [std::stold]
    reads, [error] is set. *)
Theorem float_flag_rejects_zero_and_negatives :
  forall stold lim val m e,
    (0 < ParseFloat.minM lim)%Z ->
    stold val = Some (ParseFloat.Finite m e) ->
    (m <= 0)%Z ->
    ParseFloat.error stold lim val = true.
Proof.
  intros stold lim val m e Hmin Hval Hm.
  unfold ParseFloat.error. rewrite Hval.
  unfold ParseFloat.geBound, ParseFloat.dyadic_leb.
  set (e0 := Z.min (ParseFloat.minE lim) e).
  assert (H1 : (0 < 2 ^ (ParseFloat.minE lim - e0))%Z)
    by (apply Z.pow_pos_nonneg; unfold e0; lia).
  assert (H2 : (0 < 2 ^ (e - e0))%Z)
    by (apply Z.pow_pos_nonneg; unfold e0; lia).
  replace (ParseFloat.minM lim * 2 ^ (ParseFloat.minE lim - e0)
           <=? m * 2 ^ (e - e0))%Z with false; [reflexivity|].
  symmetry. apply Z.leb_gt. nia.
Qed.

Lemma float_flag_rejects_zero_and_negatives_witness :
  ParseFloat.error (fun _ => Some (ParseFloat.Finite 0 0))
                   ParseFloat.doubleLimits "0"
  = true
  /\ ParseFloat.error (fun _ => Some (ParseFloat.Finite (-3) (-1)))
                      ParseFloat.floatLimits "-1.5"
     = true.
Proof.
  split.
  - apply (float_flag_rejects_zero_and_negatives
             (fun _ => Some (ParseFloat.Finite 0 0))
             ParseFloat.doubleLimits "0" 0 0);
      solve [reflexivity | simpl; lia].
  - apply (float_flag_rejects_zero_and_negatives
             (fun _ => Some (ParseFloat.Finite (-3) (-1)))
             ParseFloat.floatLimits "-1.5" (-3) (-1));
      solve [reflexivity | simpl; lia].
Defined.


(* ------------------------------------------------------------------ *)
(** ** The help printer *)

Import Help.

Lemma append_assoc (a b c : string) :
  ((a ++ b) ++ c = a ++ (b ++ c))%string.
Proof.
  induction a as [|x a IH]; simpl; [reflexivity | now rewrite IH].
Qed.

Lemma append_length (a b : string) :
  String.length (a ++ b)%string = String.length a + String.length b.
Proof.
  induction a as [|x a IH]; simpl; [reflexivity | now rewrite IH].
Qed.

Lemma blank_append (a b : string) :
  blank a = true -> blank b = true -> blank (a ++ b)%string = true.
Proof.
  induction a as [|x a IH]; simpl; intros Ha Hb; [exact Hb|].
  apply andb_true_iff in Ha as [Hx Ha]. rewrite Hx. simpl. auto.
Qed.

Lemma blank_spaces (n : nat) : blank (spaces n) = true.
Proof. induction n; simpl; auto. Qed.

Lemma length_spaces (n : nat) : String.length (spaces n) = n.
Proof. induction n; simpl; auto. Qed.

Lemma blank_indentation (fuel : nat) (toPrint : Z) :
  blank (indentation fuel toPrint) = true.
Proof.
  revert toPrint. induction fuel as [|fuel IH]; intros toPrint; simpl;
    destruct (16 <? toPrint)%Z; auto using blank_spaces.
  apply (blank_append (spaces 16)); auto using blank_spaces.
Qed.

(** The loop of [writeIndentation] writes as many spaces as it is asked
    for, with the fuel [indentationOf] gives it. *)
Lemma indentation_spaces (fuel : nat) (toPrint : Z) :
  (0 <= toPrint)%Z -> Z.to_nat toPrint <= 16 * fuel + 16 ->
  indentation fuel toPrint = spaces (Z.to_nat toPrint).
Proof.
  revert toPrint. induction fuel as [|fuel IH]; intros toPrint H0 Hf; simpl.
  - destruct (16 <? toPrint)%Z eqn:E; [apply Z.ltb_lt in E; lia | reflexivity].
  - destruct (16 <? toPrint)%Z eqn:E; [|reflexivity].
    apply Z.ltb_lt in E. rewrite IH by lia.
    replace (Z.to_nat toPrint) with (16 + Z.to_nat (toPrint - 16)) by lia.
    reflexivity.
Qed.

Lemma indentationOf_spaces (ind : Z) :
  (0 <= ind < 2 ^ 32)%Z -> indentationOf ind = spaces (Z.to_nat ind).
Proof.
  intros H. unfold indentationOf. rewrite Z.mod_small by exact H.
  apply indentation_spaces; lia.
Qed.

Lemma spanSpaces_spec (s : string) :
  forall sp r, spanSpaces s = (sp, r) ->
    s = (sp ++ r)%string /\ blank sp = true
    /\ wordEnds r = (match r with EmptyString => true | _ => false end)
    /\ String.length r <= String.length s
    /\ (wordEnds s = true -> s <> EmptyString -> sp <> EmptyString).
Proof.
  induction s as [|c s IH]; simpl; intros sp r H.
  - inversion H; subst. repeat split; auto.
  - destruct (isspace c) eqn:Ec.
    + destruct (spanSpaces s) as [sp' r'] eqn:Es. inversion H; subst.
      destruct (IH _ _ eq_refl) as (H1 & H2 & H3 & H4 & _).
      repeat split; simpl; auto.
      * now rewrite <- H1.
      * now rewrite Ec.
      * discriminate.
    + inversion H; subst. simpl. rewrite Ec.
      repeat split; auto. discriminate.
Qed.

Lemma spanWord_spec (s : string) :
  forall w r, spanWord s = (w, r) ->
    s = (w ++ r)%string /\ solid w = true /\ wordEnds r = true
    /\ String.length r <= String.length s.
Proof.
  induction s as [|c s IH]; simpl; intros w r H.
  - inversion H; subst. repeat split; auto.
  - destruct (isspace c) eqn:Ec.
    + inversion H; subst. simpl. rewrite Ec. repeat split; auto.
    + destruct (spanWord s) as [w' r'] eqn:Es. inversion H; subst.
      destruct (IH _ _ eq_refl) as (H1 & H2 & H3 & H4).
      repeat split; simpl; auto.
      * now rewrite <- H1.
      * now rewrite Ec.
Qed.

Lemma wordsFrom_blank (sp t : string) :
  blank sp = true -> wordsFrom (sp ++ t) None = wordsFrom t None.
Proof.
  induction sp as [|c sp IH]; simpl; intros H; [reflexivity|].
  apply andb_true_iff in H as [Hc H]. rewrite Hc. auto.
Qed.

Lemma wordsFrom_solid (w t a : string) :
  solid w = true ->
  wordsFrom (w ++ t) (Some a) = wordsFrom t (Some (a ++ w)%string).
Proof.
  revert a. induction w as [|c w IH]; simpl; intros a H.
  - replace (a ++ "")%string with a; [reflexivity|].
    induction a as [|x a IHa]; simpl; [reflexivity | now rewrite <- IHa].
  - apply andb_true_iff in H as [Hc H]. apply negb_true_iff in Hc.
    rewrite Hc, IH by exact H. rewrite append_assoc. reflexivity.
Qed.

Lemma wordsFrom_ends (t a : string) :
  wordEnds t = true -> wordsFrom t (Some a) = a :: wordsFrom t None.
Proof.
  destruct t as [|c t]; simpl; intros H; [reflexivity|].
  now rewrite H.
Qed.

Lemma wordsFrom_word (c : ascii) (w t : string) :
  isspace c = false -> solid w = true -> wordEnds t = true ->
  wordsFrom (String c w ++ t) None = String c w :: wordsFrom t None.
Proof.
  intros Hc Hw Ht. simpl. rewrite Hc.
  rewrite wordsFrom_solid by exact Hw.
  simpl. apply wordsFrom_ends, Ht.
Qed.

Lemma isspace_newline : isspace newline = true.
Proof. reflexivity. Qed.

(** After a word the loop goes on with white space, or with nothing. *)
Lemma blockLoop_head (fuel : nat) (ws : Z) (ind s : string) (col : Z) :
  wordEnds s = true ->
  wordEnds (blockLoop fuel ws ind s col ++ endl ++ endl) = true.
Proof.
  intros Hs. destruct fuel as [|fuel]; [reflexivity|].
  destruct s as [|c s]; [reflexivity|].
  cbn [blockLoop].
  destruct (spanSpaces (String c s)) as [sp s1] eqn:Esp.
  destruct (spanSpaces_spec _ _ _ Esp) as (H1 & H2 & H3 & H4 & H5).
  destruct s1 as [|c1 s1]; [reflexivity|].
  destruct (spanWord s1) as [w s2] eqn:Ew.
  destruct (_ <? _)%Z; [reflexivity|].
  destruct sp as [|x sp]; [exfalso; apply H5; auto; discriminate|].
  simpl in H2 |- *. apply andb_true_iff in H2 as [Hx _]. exact Hx.
Qed.

(** The words the loop writes are the words of the text it is given. *)
Lemma blockLoop_words (ws : Z) (ind : string) :
  blank ind = true ->
  forall fuel s col,
    String.length s < fuel ->
    wordsFrom (blockLoop fuel ws ind s col ++ endl ++ endl) None
    = wordsFrom s None.
Proof.
  intros Hind. induction fuel as [|fuel IH]; intros s col Hf; [lia|].
  destruct s as [|c s]; [reflexivity|].
  cbn [blockLoop].
  destruct (spanSpaces (String c s)) as [sp s1] eqn:Esp.
  destruct (spanSpaces_spec _ _ _ Esp) as (H1 & H2 & H3 & H4 & H5).
  rewrite H1.
  destruct s1 as [|c1 s1].
  - rewrite (wordsFrom_blank sp) by exact H2. reflexivity.
  - destruct (spanWord s1) as [w s2] eqn:Ew.
    destruct (spanWord_spec _ _ _ Ew) as (G1 & G2 & G3 & G4).
    simpl in H3.
    rewrite (wordsFrom_blank sp (String c1 s1)) by exact H2.
    assert (Hrhs : wordsFrom (String c1 s1) None
                   = String c1 w :: wordsFrom s2 None).
    { rewrite G1. apply (wordsFrom_word c1 w s2); auto. }
    rewrite Hrhs.
    assert (Hlen : String.length s2 < fuel).
    { simpl in H4, Hf. lia. }
    destruct (_ <? _)%Z.
    + rewrite !append_assoc.
      rewrite (wordsFrom_blank endl) by reflexivity.
      rewrite (wordsFrom_blank ind) by exact Hind.
      rewrite (wordsFrom_word c1 w); auto.
      * f_equal. apply IH, Hlen.
      * apply blockLoop_head, G3.
    + rewrite !append_assoc.
      rewrite (wordsFrom_blank sp) by exact H2.
      rewrite (wordsFrom_word c1 w); auto.
      * f_equal. apply IH, Hlen.
      * apply blockLoop_head, G3.
Qed.

(** X21. [writeBlock] of the [BasicHelpPrinter] only adds to the stream,
    and the words of what it adds are the words of the text it was
    given, in the same order: wrapping the text loses no word, joins
    none and splits none. *)
Theorem writeBlock_keeps_the_words (p : BasicHelpPrinter) (text : string) :
  exists written,
    stream (writeBlock p text) = (stream p ++ written)%string
    /\ words written = words text.
Proof.
  exists (blockOf (consoleWidth p) (indent p) text). split; [reflexivity|].
  unfold words, blockOf.
  rewrite wordsFrom_blank by apply blank_indentation.
  apply blockLoop_words; [apply blank_indentation | lia].
Qed.


Lemma longestLine_append (a b : string) (m : nat) :
  forall n, n + String.length a <= m ->
    (forall n', n' <= n + String.length a -> longestLine b n' <= m) ->
    longestLine (a ++ b) n <= m.
Proof.
  induction a as [|c a IH]; simpl; intros n Hn Hb.
  - apply Hb. lia.
  - destruct (Ascii.eqb c newline).
    + apply Nat.max_lub; [lia|]. apply IH; [lia|]. intros; apply Hb; lia.
    + apply IH; [lia|]. intros; apply Hb; lia.
Qed.

Lemma longestLine_endl (b : string) (n : nat) :
  longestLine (endl ++ b) n = Nat.max n (longestLine b 0).
Proof. reflexivity. Qed.

(** No line that the loop writes goes beyond the working space, when no
    word of the text is longer than it. *)
Lemma blockLoop_lines (ws : Z) (ind : string) (m : nat) :
  (Z.of_nat m = Z.of_nat (String.length ind) + ws)%Z ->
  forall fuel s col n,
    (0 <= col <= ws)%Z ->
    (Z.of_nat n <= Z.of_nat (String.length ind) + col)%Z ->
    Forall (fun w => (Z.of_nat (String.length w) <= ws)%Z)
           (wordsFrom s None) ->
    longestLine (blockLoop fuel ws ind s col ++ endl ++ endl) n <= m.
Proof.
  intros Hm.
  assert (Hend : forall n col, (0 <= col <= ws)%Z ->
            (Z.of_nat n <= Z.of_nat (String.length ind) + col)%Z ->
            longestLine (endl ++ endl) n <= m).
  { intros n col Hc Hn. simpl. lia. }
  induction fuel as [|fuel IH]; intros s col n Hc Hn Hw;
    [apply (Hend n col); auto|].
  destruct s as [|c s]; [apply (Hend n col); auto|].
  cbn [blockLoop].
  destruct (spanSpaces (String c s)) as [sp s1] eqn:Esp.
  destruct (spanSpaces_spec _ _ _ Esp) as (H1 & H2 & H3 & H4 & H5).
  rewrite H1, (wordsFrom_blank sp) in Hw by exact H2.
  destruct s1 as [|c1 s1]; [apply (Hend n col); auto|].
  destruct (spanWord s1) as [w s2] eqn:Ew.
  destruct (spanWord_spec _ _ _ Ew) as (G1 & G2 & G3 & G4).
  simpl in H3.
  assert (Hrhs : wordsFrom (String c1 s1) None
                 = String c1 w :: wordsFrom s2 None).
  { rewrite G1. apply (wordsFrom_word c1 w s2); auto. }
  rewrite Hrhs in Hw.
  apply Forall_cons_iff in Hw as [Hword Hrest].
  assert (Hlen : String.length (String c s)
                 = String.length sp + String.length (String c1 s1)).
  { rewrite H1 at 1. apply append_length. }
  set (word := String c1 w) in *.
  destruct (_ <? _)%Z eqn:E.
  - rewrite !append_assoc. rewrite longestLine_endl.
    apply Nat.max_lub; [lia|].
    apply longestLine_append; [lia|]. intros n1 Hn1.
    apply longestLine_append; [lia|]. intros n2 Hn2.
    apply IH; auto; lia.
  - apply Z.ltb_ge in E.
    rewrite !append_assoc.
    apply longestLine_append; [lia|]. intros n1 Hn1.
    apply longestLine_append; [lia|]. intros n2 Hn2.
    apply IH; auto; lia.
Qed.

(** X22. When a block starts on a new line, the indentation is not
    wider than the console and no word of the text is longer than the
    space that is left, no line that [writeBlock] writes is longer than
    the console is wide. *)
Theorem writeBlock_lines_fit_the_console (p : BasicHelpPrinter)
    (text : string) :
  (0 <= indent p <= consoleWidth p)%Z ->
  (indent p < 2 ^ 32)%Z -> (consoleWidth p < 2 ^ 64)%Z ->
  Forall (fun w =>
            (Z.of_nat (String.length w) <= consoleWidth p - indent p)%Z)
         (words text) ->
  exists written,
    stream (writeBlock p text) = (stream p ++ written)%string
    /\ (Z.of_nat (longestLine written 0) <= consoleWidth p)%Z.
Proof.
  intros Hi Hi32 Hw64 Hwords.
  exists (blockOf (consoleWidth p) (indent p) text). split; [reflexivity|].
  unfold blockOf.
  rewrite Z.mod_small by lia.
  rewrite indentationOf_spaces by lia.
  assert (H : longestLine
                (spaces (Z.to_nat (indent p))
                 ++ blockLoop (S (String.length text))
                      (consoleWidth p - indent p)
                      (spaces (Z.to_nat (indent p))) text 0
                 ++ endl ++ endl) 0
              <= Z.to_nat (consoleWidth p)); [|lia].
  apply longestLine_append; rewrite ?length_spaces; [lia|].
  intros n Hn.
  apply blockLoop_lines with (col := 0%Z);
    rewrite ?length_spaces; auto; lia.
Qed.

Lemma writeBlock_lines_fit_the_console_witness :
  exists written,
    stream (writeBlock (mkBasicHelpPrinter 20 "" true 4)
                       "Specifies the file to read (reads from stdin).")
    = written
    /\ (Z.of_nat (longestLine written 0) <= 20)%Z.
Proof.
  destruct (writeBlock_lines_fit_the_console
              (mkBasicHelpPrinter 20 "" true 4)
              "Specifies the file to read (reads from stdin).")
    as (written & Hs & Hl).
  - simpl; lia.
  - simpl; lia.
  - simpl; lia.
  - vm_compute. repeat constructor; discriminate.
  - exists written. split; [exact Hs | exact Hl].
Defined.

Lemma append_empty (a : string) : (a ++ "")%string = a.
Proof.
  induction a as [|x a IH]; simpl; [reflexivity | now rewrite IH].
Qed.

(** What the parts of [printHelp] keep: the width of the console and
    what is on the stream already. *)
Lemma enterFlag_step (p : BasicHelpPrinter) (props : FlagProperties) :
  (0 <= indent p)%Z -> inFlag p = true \/ indent p = 0%Z ->
  let q := enterFlag p props in
  inFlag q = true
  /\ (indent q = indent p + 2 \/ indent q = 0 /\ indent p = 0)%Z
  /\ exists written, stream q = (stream p ++ written)%string.
Proof.
  intros H0 Hin. cbn. unfold BasicHelpPrinter_enterFlag.
  destruct (hasAnyName props); cbn.
  - repeat split; auto. eexists; reflexivity.
  - destruct (inFlag p) eqn:E; cbn.
    + repeat split; auto. exists ""%string. now rewrite append_empty.
    + destruct Hin as [Hin|Hin]; [discriminate|].
      repeat split; auto. exists ""%string. now rewrite append_empty.
Qed.

Lemma leaveFlag_step (p q : BasicHelpPrinter) :
  (0 <= indent p)%Z ->
  (indent q = indent p + 2 \/ indent q = 0 /\ indent p = 0)%Z ->
  indent (leaveFlag q) = indent p
  /\ inFlag (leaveFlag q) = inFlag q
  /\ stream (leaveFlag q) = stream q.
Proof.
  intros H0 H. cbn.
  repeat split.
  destruct (2 <? indent q)%Z eqn:E;
    [apply Z.ltb_lt in E | apply Z.ltb_ge in E]; lia.
Qed.

Lemma printHelp_balanced (flag : HelpFlag) :
  forall p : BasicHelpPrinter,
    (0 <= indent p)%Z -> inFlag p = true \/ indent p = 0%Z ->
    indent (printHelp flag p) = indent p
    /\ inFlag (printHelp flag p) = true
    /\ exists written,
         stream (printHelp flag p) = (stream p ++ written)%string.
Proof.
  induction flag as [d | v IH | d g re T IH | d ms IH]
    using HelpFlag_tree_ind; intros p H0 Hin.
  - cbn [printHelp].
    destruct (enterFlag_step p (makeProps d false false) H0 Hin)
      as (E1 & E2 & w1 & E3).
    set (p1 := enterFlag p (makeProps d false false)) in *.
    set (p2 := if hasDescription d then writeBlock p1 (_description d)
               else p1).
    assert (Hp2 : indent p2 = indent p1 /\ inFlag p2 = inFlag p1
                  /\ exists w, stream p2 = (stream p1 ++ w)%string).
    { unfold p2. destruct (hasDescription d); cbn.
      - repeat split. eexists; reflexivity.
      - repeat split. exists ""%string. now rewrite append_empty. }
    destruct Hp2 as (I2 & F2 & w2 & S2).
    destruct (leaveFlag_step p p2 H0) as (L1 & L2 & L3);
      [rewrite I2; exact E2|].
    repeat split; [exact L1 | congruence |].
    exists (w1 ++ w2)%string.
    rewrite L3, S2, E3. apply append_assoc.
  - cbn [printHelp]. apply IH; auto.
  - cbn [printHelp].
    destruct (enterFlag_step p (makeProps d g re) H0 Hin)
      as (E1 & E2 & w1 & E3).
    set (p1 := enterFlag p (makeProps d g re)) in *.
    set (p2 := if hasDescription d then writeBlock p1 (_description d)
               else p1).
    assert (Hp2 : indent p2 = indent p1 /\ inFlag p2 = inFlag p1
                  /\ exists w, stream p2 = (stream p1 ++ w)%string).
    { unfold p2. destruct (hasDescription d); cbn.
      - repeat split. eexists; reflexivity.
      - repeat split. exists ""%string. now rewrite append_empty. }
    destruct Hp2 as (I2 & F2 & w2 & S2).
    destruct (IH p2) as (I3 & F3 & w3 & S3); [lia | left; congruence |].
    destruct (leaveFlag_step p (printHelp T p2) H0) as (L1 & L2 & L3);
      [rewrite I3, I2; exact E2|].
    repeat split; [exact L1 | congruence |].
    exists (w1 ++ w2 ++ w3)%string.
    rewrite L3, S3, S2, E3. now rewrite !append_assoc.
  - cbn [printHelp].
    destruct (enterFlag_step p (makeProps d false false) H0 Hin)
      as (E1 & E2 & w1 & E3).
    set (p1 := enterFlag p (makeProps d false false)) in *.
    assert (Hms : forall q : BasicHelpPrinter,
              (0 <= indent q)%Z -> inFlag q = true ->
              let q' := fold_left (fun p m => printHelp m p) ms q in
              indent q' = indent q /\ inFlag q' = true
              /\ exists w, stream q' = (stream q ++ w)%string).
    { induction IH as [|m ms Hm _ IHms]; intros q Hq Hf; cbn.
      - repeat split; auto. exists ""%string. now rewrite append_empty.
      - destruct (Hm q Hq (or_introl Hf)) as (A1 & A2 & wa & A3).
        destruct (IHms (printHelp m q)) as (B1 & B2 & wb & B3);
          [lia | exact A2 |].
        repeat split; [congruence | exact B2 |].
        exists (wa ++ wb)%string. rewrite B3, A3. apply append_assoc. }
    destruct (Hms p1) as (I3 & F3 & w3 & S3); [lia | exact E1 |].
    destruct (leaveFlag_step p
                (fold_left (fun p m => printHelp m p) ms p1) H0)
      as (L1 & L2 & L3); [rewrite I3; exact E2|].
    repeat split; [exact L1 | congruence |].
    exists (w1 ++ w3)%string.
    rewrite L3, S3, E3. apply append_assoc.
Qed.

(** X23. [printHelp] of any flag leaves the indentation of a
    [BasicHelpPrinter] as it found it, and only adds to the stream,
    whenever the printer is new or inside a flag: the help of one flag
    never shifts the help of the next. *)
Theorem printHelp_restores_the_indentation (flag : HelpFlag)
    (p : BasicHelpPrinter) :
  (0 <= indent p)%Z -> inFlag p = true \/ indent p = 0%Z ->
  indent (printHelp flag p) = indent p
  /\ exists written,
       stream (printHelp flag p) = (stream p ++ written)%string.
Proof.
  intros H0 Hin.
  destruct (printHelp_balanced flag p H0 Hin) as (H1 & _ & H2).
  split; assumption.
Qed.


Lemma printHelp_restores_the_indentation_witness :
  indent (printHelp HelpExample.AllFlags (newPrinter 80 "")) = 0%Z
  /\ exists written,
       stream (printHelp HelpExample.AllFlags (newPrinter 80 ""))
       = written.
Proof.
  destruct (printHelp_restores_the_indentation
              HelpExample.AllFlags (newPrinter 80 ""))
    as (Hi & written & Hs).
  - simpl; lia.
  - right; reflexivity.
  - split; [exact Hi | exists written; exact Hs].
Defined.
